(** * Invite codes: the self-checking code format and the redemption service

    A shallow embedding of [src/services/invite.service.js]
    ([CustomBase31Generator] and [InviteService]) together with the
    collection schema of [models/invite.model.js], and the properties of the
    design document that can be settled on it.

    Conventions of the embedding.
    - A JavaScript string that the code takes apart character by character
      (a code, the alphabet, the salt) is a [list ascii]; strings that are
      only compared (e-mail addresses, lock identifiers, IP addresses) are
      [string].  Characters are 8-bit.  [toUpperCase], [toLowerCase] and
      [trim] are the functions of JavaScript on ASCII strings ([Js.isAscii]):
      outside ASCII the built-ins change further characters and can change
      the length of a string, which is not modelled.  A statement whose
      content depends on what these functions make of an input string says
      so of ASCII input.
    - JavaScript numbers that hold integers are [Z]; [%] is the truncating
      remainder [Z.rem], and a remainder by zero is [NaN], which is [None].
    - [undefined] is [None].
    - Dates are milliseconds since the epoch, in [Z]. *)

From Stdlib Require Import ZArith Ascii String List Lia Bool QArith.
From Stdlib Require Import Strings.Byte Sorting.Sorted.
From stdpp Require Import gmap strings list.

Local Open Scope Z_scope.

(** * Part I: the program *)

(** ** JavaScript string primitives *)

Module Js.

(** A string literal as a list of characters. *)
Definition str (s : string) : list ascii := list_ascii_of_string s.

(** [c.toUpperCase()] for one character: the ASCII letters a-z move to
    A-Z, every other character is left alone. *)
Definition upper (c : ascii) : ascii :=
  let n := nat_of_ascii c in
  if ((97 <=? n) && (n <=? 122))%nat then ascii_of_nat (n - 32) else c.

Definition toUpperCase (s : list ascii) : list ascii := map upper s.

(** The strings on which the case mappings and [trim] are modelled: every
    character is below U+0080. *)
Definition isAscii (s : list ascii) : bool :=
  forallb (fun c => (nat_of_ascii c <? 128)%nat) s.

(** [c.toLowerCase()] for one character: the ASCII letters A-Z move to
    a-z. *)
Definition lower (c : ascii) : ascii :=
  let n := nat_of_ascii c in
  if ((65 <=? n) && (n <=? 90))%nat then ascii_of_nat (n + 32) else c.

Definition toLowerCase (s : list ascii) : list ascii := map lower s.

(** The ASCII characters that [trim] removes: tab, line feed, vertical tab,
    form feed, carriage return and space. *)
Definition isWhiteSpace (c : ascii) : bool :=
  let n := nat_of_ascii c in
  ((9 <=? n) && (n <=? 13) || (n =? 32))%nat.

Fixpoint trimStart (s : list ascii) : list ascii :=
  match s with
  | [] => []
  | c :: r => if isWhiteSpace c then trimStart r else s
  end.

(** [s.trim()] *)
Definition trim (s : list ascii) : list ascii :=
  rev (trimStart (rev (trimStart s))).

(** A [Date] holds a time value of at most 8.64e15 ms in absolute value;
    [new Date(t)] is an invalid date outside this range. *)
Definition validTime (t : Z) : bool :=
  (-8640000000000000 <=? t) && (t <=? 8640000000000000).

(** [s.replace(c, '')] with a string pattern: only the first occurrence
    is removed. *)
Fixpoint removeFirst (c : ascii) (s : list ascii) : list ascii :=
  match s with
  | [] => []
  | x :: r => if Ascii.eqb x c then r else x :: removeFirst c r
  end.

(** [s.indexOf(c)]: the first index of [c], or -1. *)
Fixpoint indexOfFrom (i : Z) (s : list ascii) (c : ascii) : Z :=
  match s with
  | [] => -1
  | x :: r => if Ascii.eqb x c then i else indexOfFrom (i + 1) r c
  end.

Definition indexOf (s : list ascii) (c : ascii) : Z := indexOfFrom 0 s c.

(** [s.includes(c)] for a one-character [c]. *)
Definition includes (s : list ascii) (c : ascii) : bool :=
  existsb (Ascii.eqb c) s.

(** [a % b] on integers held in numbers. *)
Definition rem (a b : Z) : option Z :=
  if b =? 0 then None else Some (Z.rem a b).

(** [s[k]] where [k] may be [NaN] or negative: [undefined] outside the
    string. *)
Definition at_ (s : list ascii) (k : option Z) : option ascii :=
  match k with
  | Some k => if k <? 0 then None else nth_error s (Z.to_nat k)
  | None => None
  end.

(** What string concatenation makes of a value that may be [undefined]. *)
Definition show (c : option ascii) : list ascii :=
  match c with
  | Some c => [c]
  | None => str "undefined"
  end.

(** [s.charCodeAt(i)] of a character. *)
Definition charCode (c : ascii) : Z := Z.of_nat (nat_of_ascii c).

(** [a === b] on values that are a one-character string or [undefined]. *)
Definition strictEq (a b : option ascii) : bool :=
  match a, b with
  | Some x, Some y => Ascii.eqb x y
  | None, None => true
  | _, _ => false
  end.

End Js.

(** ** CustomBase31Generator *)

Section Generator.

(** [config.system.invite_alphabet] and [config.system.salt]. *)
Variable alphabet : list ascii.
Variable salt : list ascii.

Definition base : Z := Z.of_nat (length alphabet).

(** The loop of [generateRandomChars]: [bytes] is the buffer returned by
    [crypto.randomBytes(length * 2)], given by its index function; the loop
    reads the indices [i .. i + n - 1]. *)
Fixpoint randomCharsLoop (bytes : nat -> byte) (n i : nat)
         (result : list ascii) : list ascii :=
  match n with
  | O => result
  | S n' =>
      let index := Js.rem (Z.of_N (Byte.to_N (bytes i))) base in
      randomCharsLoop bytes n' (S i) (result ++ Js.show (Js.at_ alphabet index))
  end.

Definition generateRandomChars (bytes : nat -> byte) (len : nat) : list ascii :=
  randomCharsLoop bytes len 0%nat [].

(** First loop of [calculateChecksum]: weights 1, 2, 1, 2, ... *)
Fixpoint weightedLoop (s : list ascii) (i : nat) (sum : Z) : Z :=
  match s with
  | [] => sum
  | c :: r =>
      let charValue := Js.indexOf alphabet c in
      let weight := Z.of_nat (i mod 2) + 1 in
      weightedLoop r (S i) (sum + charValue * weight)
  end.

(** Second loop of [calculateChecksum]: the character codes of the salt. *)
Fixpoint saltLoop (s : list ascii) (sum : Z) : Z :=
  match s with
  | [] => sum
  | c :: r => saltLoop r (sum + Js.charCode c)
  end.

Definition calculateChecksum (s : list ascii) : option ascii :=
  let sum := weightedLoop s 0%nat 0 in
  let sum := saltLoop salt sum in
  Js.at_ alphabet (Js.rem sum base).

Definition generate (bytes : nat -> byte) : list ascii :=
  let randomChars := generateRandomChars bytes 7 in
  let checksum := calculateChecksum randomChars in
  let code := firstn 3 randomChars ++ Js.show checksum ++ skipn 3 randomChars in
  firstn 4 code ++ Js.str "-" ++ skipn 4 code.

Definition validate (code : list ascii) : bool :=
  let clean := Js.removeFirst "-"%char (Js.toUpperCase code) in
  if negb (length clean =? 8)%nat then false
  else if negb (forallb (Js.includes alphabet) clean) then false
  else
    let checksum := nth_error clean 3 in
    let original := firstn 3 clean ++ skipn 4 clean in
    let expectedChecksum := calculateChecksum original in
    Js.strictEq checksum expectedChecksum.

Definition format (code : list ascii) : list ascii :=
  let clean := Js.toUpperCase (Js.removeFirst "-"%char code) in
  if negb (length clean =? 8)%nat then code
  else firstn 4 clean ++ Js.str "-" ++ skipn 4 clean.

End Generator.

(** The alphabet and salt of the README and of the generator's test suite. *)
Definition testAlphabet : list ascii := Js.str "K7Q2N5XR8BMVY9CW3PFGJH6DZT4SL".
Definition testSalt : list ascii := Js.str "TestSalt2024".

(** A buffer in which every byte is [b]. *)
Definition constBytes (b : byte) : nat -> byte := fun _ => b.

(** The same alphabet in lower case: a value that the configuration
    accepts as well, [INVITE_ALPHABET] being any non-empty string. *)
Definition lowerAlphabet : list ascii := Js.str "k7q2n5xr8bmvy9cw3pfgjh6dzt4sl".

(** ** The invite collection and the Redis store

    The schema is that of [models/invite.model.js].  Its paths
    [referrerEmail] and [usedBy.email] carry the setters [lowercase] and
    [trim]; Mongoose runs them wherever a value is cast to the path: when a
    document is built, when an update is cast and when a query filter is
    cast. *)

Definition isAsciiString (s : string) : bool := Js.isAscii (list_ascii_of_string s).

(** The setters [lowercase: true, trim: true] of an e-mail path. *)
Definition normalizeEmail (s : string) : string :=
  string_of_list_ascii (Js.toLowerCase (Js.trim (list_ascii_of_string s))).

Record UsedBy := {
  email : string;
  usedAt : Z;
  ipAddress : string
}.

Record Invite := {
  _id : nat;
  code : list ascii;
  maxUses : Z;
  currentUses : Z;
  referrerEmail : string;
  usedBy : list UsedBy;
  isActive : bool;
  expiresAt : Z
}.

(** The JSON object that [createInvite] caches under [invite:<code>]; it has
    no [usedBy]. *)
Record Cached := {
  c_id : nat;
  c_code : list ascii;
  c_referrerEmail : string;
  c_maxUses : Z;
  c_currentUses : Z;
  c_isActive : bool;
  c_expiresAt : Z
}.

Definition toCached (inv : Invite) : Cached := {|
  c_id := _id inv;
  c_code := code inv;
  c_referrerEmail := referrerEmail inv;
  c_maxUses := maxUses inv;
  c_currentUses := currentUses inv;
  c_isActive := isActive inv;
  c_expiresAt := expiresAt inv
|}.

(** The Redis commands the service issues. *)
Inductive RedisCmd := SET | SETEX | GET | DEL | EVAL.

Inductive Error :=
| InvalidFormat            (* 'Invalid invite code format or checksum' *)
| Contended                (* 'Another request is processing this code' *)
| NotFound                 (* 'Invalid invite code' *)
| MaxUsesReached           (* 'Invite code has reached max uses' *)
| Expired                  (* 'Invite code has expired' *)
| IdentityAlreadyRedeemed  (* 'Email has already used an invite code' *)
| CodeSpaceExhausted       (* 'Failed to generate unique code' *)
| ValidationFailed         (* the schema validators reject the document *)
| RedisFailure (c : RedisCmd). (* the Redis client rejects the command *)

Inductive Result (A : Type) :=
| Ok (a : A)
| Err (e : Error).
Arguments Ok {A} a.
Arguments Err {A} e.

Definition isOk {A} (r : Result A) : bool :=
  match r with Ok _ => true | Err _ => false end.

(** Everything outside the process that the service reads or writes.
    Redis keys carry the time at which they expire; [invite:<code>] and
    [lock:invite:<code>] are two disjoint families of keys, both indexed here
    by the code. *)
Record World := {
  invites : list Invite;                    (* the collection, in insertion order *)
  cache : gmap (list ascii) (Cached * Z);   (* invite:<code> *)
  locks : gmap (list ascii) (string * Z);   (* lock:invite:<code> *)
  now : Z;                                  (* the clock, Date.now() *)
  redisFails : RedisCmd -> bool;            (* commands the client currently rejects *)
  randomBytes : nat -> nat -> byte;         (* the k-th buffer of crypto.randomBytes *)
  drawn : nat;                              (* buffers handed out so far *)
  nextId : nat                              (* the next ObjectId *)
}.

Definition withInvites (w : World) (l : list Invite) : World :=
  {| invites := l; cache := cache w; locks := locks w; now := now w;
     redisFails := redisFails w; randomBytes := randomBytes w;
     drawn := drawn w; nextId := nextId w |}.

Definition withCache (w : World) (c : gmap (list ascii) (Cached * Z)) : World :=
  {| invites := invites w; cache := c; locks := locks w; now := now w;
     redisFails := redisFails w; randomBytes := randomBytes w;
     drawn := drawn w; nextId := nextId w |}.

Definition withLocks (w : World) (l : gmap (list ascii) (string * Z)) : World :=
  {| invites := invites w; cache := cache w; locks := l; now := now w;
     redisFails := redisFails w; randomBytes := randomBytes w;
     drawn := drawn w; nextId := nextId w |}.

Definition withDrawn (w : World) (n : nat) : World :=
  {| invites := invites w; cache := cache w; locks := locks w; now := now w;
     redisFails := redisFails w; randomBytes := randomBytes w;
     drawn := n; nextId := nextId w |}.

Definition withNextId (w : World) (n : nat) : World :=
  {| invites := invites w; cache := cache w; locks := locks w; now := now w;
     redisFails := redisFails w; randomBytes := randomBytes w;
     drawn := drawn w; nextId := n |}.

Definition withRedisFails (w : World) (f : RedisCmd -> bool) : World :=
  {| invites := invites w; cache := cache w; locks := locks w; now := now w;
     redisFails := f; randomBytes := randomBytes w;
     drawn := drawn w; nextId := nextId w |}.

(** A Redis key is readable until its expiry time. *)
Definition live {V} (m : gmap (list ascii) (V * Z)) (k : list ascii) (t : Z) : option V :=
  match m !! k with
  | Some (v, expiry) => if t <? expiry then Some v else None
  | None => None
  end.

(** *** Queries and updates on the collection *)

(** [Invite.findOne({ code })] *)
Definition findOneByCode (l : list Invite) (c : list ascii) : option Invite :=
  List.find (fun inv => bool_decide (code inv = c)) l.

(** [Invite.findOne({ code, isActive: true })] *)
Definition findOneActive (l : list Invite) (c : list ascii) : option Invite :=
  List.find (fun inv => bool_decide (code inv = c) && isActive inv) l.

(** [Invite.findOne({ 'usedBy.email': userEmail })]: the filter is cast to
    the path, so the stored addresses are compared with the lower-cased,
    trimmed argument. *)
Definition findOneUsedBy (l : list Invite) (userEmail : string) : option Invite :=
  List.find (fun inv => existsb (fun u => bool_decide (email u = normalizeEmail userEmail))
                                (usedBy inv)) l.

(** [Invite.find({ referrerEmail })], the filter cast likewise. *)
Definition findByReferrer (l : list Invite) (r : string) : list Invite :=
  List.filter (fun inv => bool_decide (referrerEmail inv = normalizeEmail r)) l.

(** The update document of [useInvite]: [$inc], [$push] and [$set]. *)
Definition applyUse (inv : Invite) (u : UsedBy) (active : bool) : Invite := {|
  _id := _id inv;
  code := code inv;
  maxUses := maxUses inv;
  currentUses := currentUses inv + 1;
  referrerEmail := referrerEmail inv;
  usedBy := usedBy inv ++ [u];
  isActive := active;
  expiresAt := expiresAt inv
|}.

(** [Invite.findByIdAndUpdate(id, update, { new: true })]: the first
    document with this [_id] is updated and returned; [null] when there is
    none. *)
Fixpoint findByIdAndUpdate (l : list Invite) (id : nat) (u : UsedBy) (active : bool)
  : list Invite * option Invite :=
  match l with
  | [] => ([], None)
  | inv :: r =>
      if bool_decide (_id inv = id) then
        let inv' := applyUse inv u active in (inv' :: r, Some inv')
      else
        let '(r', res) := findByIdAndUpdate r id u active in (inv :: r', res)
  end.

(** What [invite.save()] checks of the document that [new Invite(...)]
    has built: [code] and [referrerEmail] (after its setters) are required,
    that is, not the empty string; [maxUses] has [min: 1]; and the cast of
    [expiresAt] fails on an invalid date. *)
Definition schemaValid (inv : Invite) : bool :=
  negb (bool_decide (code inv = [])) &&
  negb (bool_decide (referrerEmail inv = EmptyString)) &&
  (1 <=? maxUses inv) &&
  Js.validTime (expiresAt inv).

(** ** InviteService *)

Section Service.

Variable alphabet : list ascii.
Variable salt : list ascii.

(** [generateCode]: one call of [generate], which takes one buffer from
    [crypto.randomBytes]. *)
Definition generateCode (w : World) : list ascii * World :=
  (generate alphabet salt (randomBytes w (drawn w)), withDrawn w (S (drawn w))).

Definition isValidFormat (c : list ascii) : bool := validate alphabet salt c.

Definition maxAttempts : nat := 10.

(** The [while (attempts < maxAttempts)] loop of [createInvite];
    [remaining] is [maxAttempts - attempts].  It returns the last value of
    [code] and the final value of [attempts]. *)
Fixpoint uniqueCodeLoop (remaining : nat) (attempts : nat) (c : option (list ascii))
         (w : World) : option (list ascii) * nat * World :=
  match remaining with
  | O => (c, attempts, w)
  | S remaining' =>
      let '(c', w') := generateCode w in
      match findOneByCode (invites w') c' with
      | None => (Some c', attempts, w')
      | Some _ => uniqueCodeLoop remaining' (S attempts) (Some c') w'
      end
  end.

(** [createInvite(referrerEmail, maxUses, expiresInDays)].  The document
    is inserted when the transaction commits.  Every failure inside the
    [try] block, the rejected cache write after the commit included, goes
    through the [catch] block, which aborts the transaction and throws; the
    model reports the error that the [catch] block received.  The document
    holds the referrer as its setters leave it, and an expiry outside the
    range of [Date] is an invalid date, which [save] rejects. *)
Definition createInvite (w : World) (referrer : string) (maxU expiresInDays : Z)
  : Result Invite * World :=
  let '(c, attempts, w) := uniqueCodeLoop maxAttempts 0 None w in
  if (attempts =? maxAttempts)%nat then (Err CodeSpaceExhausted, w)
  else
    let invite := {|
      _id := nextId w;
      code := match c with Some c => c | None => [] end;
      maxUses := maxU;
      currentUses := 0;
      referrerEmail := normalizeEmail referrer;
      usedBy := [];
      isActive := true;
      expiresAt := now w + expiresInDays * 24 * 60 * 60 * 1000
    |} in
    let w := withNextId w (S (nextId w)) in
    if negb (schemaValid invite) then (Err ValidationFailed, w)
    else
      let w := withInvites w (invites w ++ [invite]) in
      if redisFails w SETEX then (Err (RedisFailure SETEX), w)
      else
        let entry := (toCached invite, now w + 86400 * 1000) in
        (Ok invite, withCache w (<[code invite := entry]> (cache w))).

(** [getFromCache(code)]: a failing [GET] is logged and read as a miss. *)
Definition getFromCache (w : World) (c : list ascii) : option Cached :=
  if redisFails w GET then None else live (cache w) c (now w).

(** Lines 229-236: the cache first, then the active documents. *)
Definition loadInvite (w : World) (c : list ascii) : option Cached :=
  match getFromCache w c with
  | Some cached => Some cached
  | None => option_map toCached (findOneActive (invites w) c)
  end.

(** The [finally] block: the lock is deleted when it still holds this
    request's identifier; a failing [EVAL] is logged only. *)
Definition releaseLock (w : World) (c : list ascii) (lockId : string) : World :=
  if redisFails w EVAL then w
  else
    match live (locks w) c (now w) with
    | Some holder =>
        if bool_decide (holder = lockId) then withLocks w (delete c (locks w)) else w
    | None => w
    end.

(** The body of the [try] block once the lock is held.  The pushed
    [usedBy] entry is cast to the schema, which lower-cases and trims its
    address. *)
Definition redeemLocked (w : World) (c : list ascii) (userEmail ip : string)
  : Result (option Invite) * World :=
  match loadInvite w c with
  | None => (Err NotFound, w)
  | Some invite =>
      if c_currentUses invite >=? c_maxUses invite then (Err MaxUsesReached, w)
      else if now w >? c_expiresAt invite then (Err Expired, w)
      else
        match findOneUsedBy (invites w) userEmail with
        | Some _ => (Err IdentityAlreadyRedeemed, w)
        | None =>
            let entry :=
              {| email := normalizeEmail userEmail; usedAt := now w; ipAddress := ip |} in
            let active := c_currentUses invite + 1 <? c_maxUses invite in
            let '(l, updatedInvite) :=
              findByIdAndUpdate (invites w) (c_id invite) entry active in
            let w := withInvites w l in
            if redisFails w DEL then (Err (RedisFailure DEL), w)
            else (Ok updatedInvite, withCache w (delete c (cache w)))
        end
  end.

(** [useInvite(code, userEmail, ipAddress)]; [lockId] is the value of
    [crypto.randomUUID()]. *)
Definition useInvite (w : World) (c : list ascii) (userEmail ip lockId : string)
  : Result (option Invite) * World :=
  let c := Js.toUpperCase c in
  if negb (isValidFormat c) then (Err InvalidFormat, w)
  else
    let '(r, w) :=
      if redisFails w SET then (Err (RedisFailure SET), w)
      else
        match live (locks w) c (now w) with
        | Some _ => (Err Contended, w)
        | None =>
            let w := withLocks w (<[c := (lockId, now w + 5000)]> (locks w)) in
            redeemLocked w c userEmail ip
        end
    in
    (r, releaseLock w c lockId).

(** [getInviteStats(referrerEmail)].  [averageUsageRate] is computed by
    the source in double precision and rendered with [toFixed(2)]; the
    model keeps the exact rational that this approximates, and [None]
    where the source's value is not finite (a ratio with [maxUses = 0] is
    [Infinity] or [NaN]). *)
Record Stats := {
  totalInvites : nat;
  totalUses : Z;
  activeInvites : nat;
  expiredInvites : nat;
  fullyUsedInvites : nat;
  averageUsageRate : option Q
}.

Definition getInviteStats (w : World) (referrer : string) : Stats :=
  let l := findByReferrer (invites w) referrer in
  let t := now w in
  {| totalInvites := length l;
     totalUses := fold_left (fun sum inv => sum + currentUses inv) l 0;
     activeInvites :=
       length (List.filter (fun inv => isActive inv && (expiresAt inv >? t)) l);
     expiredInvites :=
       length (List.filter (fun inv => expiresAt inv <=? t) l);
     fullyUsedInvites :=
       length (List.filter (fun inv => currentUses inv >=? maxUses inv) l);
     averageUsageRate :=
       if (0 <? length l)%nat then
         if existsb (fun inv => maxUses inv =? 0) l then None
         else
           Some (fold_left
                   (fun sum inv => sum + inject_Z (currentUses inv) / inject_Z (maxUses inv))
                   l 0
                 / inject_Z (Z.of_nat (length l)) * inject_Z 100)%Q
       else Some 0%Q |}.

End Service.

(** ** Concurrent redemptions

    A call of [useInvite] runs on the event loop up to its next [await]; the
    awaited command is then served by Redis or by the database at a time of
    its own, between the commands of other calls.  A request in flight is the
    point of the function it waits at; a step serves the awaited command and
    runs the request up to its next [await]. *)

Inductive Pc :=
| AtAcquire                               (* redisClient.set(lockKey, lockId, 'PX', lockTTL, 'NX') *)
| AtCacheGet                              (* this.getFromCache(code) *)
| AtFindActive                            (* Invite.findOne({ code, isActive: true }) *)
| AtFindUsedBy (invite : Cached)          (* Invite.findOne({ 'usedBy.email': userEmail }) *)
| AtUpdate (invite : Cached)              (* Invite.findByIdAndUpdate(...) *)
| AtCacheDel (updatedInvite : option Invite) (* redisClient.del(`invite:${code}`) *)
| AtRelease (r : Result (option Invite))  (* finally: redisClient.eval(script, ...) *)
| Finished (r : Result (option Invite)).  (* returned or thrown *)

Record Request := {
  rq_code : list ascii;      (* the code, already upper-cased *)
  rq_email : string;
  rq_ip : string;
  rq_lockId : string;
  rq_pc : Pc
}.

Definition at_ (rq : Request) (pc : Pc) : Request :=
  {| rq_code := rq_code rq; rq_email := rq_email rq; rq_ip := rq_ip rq;
     rq_lockId := rq_lockId rq; rq_pc := pc |}.

Section Concurrent.

Variable alphabet : list ascii.
Variable salt : list ascii.

(** The call itself: the synchronous prefix of [useInvite], up to the
    first [await]. *)
Definition start (c : list ascii) (userEmail ip lockId : string) : Request :=
  let c := Js.toUpperCase c in
  {| rq_code := c; rq_email := userEmail; rq_ip := ip; rq_lockId := lockId;
     rq_pc := if negb (isValidFormat alphabet salt c)
              then Finished (Err InvalidFormat) else AtAcquire |}.

(** Lines 239-245, which run as soon as a record is loaded. *)
Definition checkLoaded (w : World) (invite : Cached) : Pc :=
  if c_currentUses invite >=? c_maxUses invite then AtRelease (Err MaxUsesReached)
  else if now w >? c_expiresAt invite then AtRelease (Err Expired)
  else AtFindUsedBy invite.

Definition step (w : World) (rq : Request) : World * Request :=
  let c := rq_code rq in
  match rq_pc rq with
  | AtAcquire =>
      if redisFails w SET then (w, at_ rq (AtRelease (Err (RedisFailure SET))))
      else
        match live (locks w) c (now w) with
        | Some _ => (w, at_ rq (AtRelease (Err Contended)))
        | None =>
            (withLocks w (<[c := (rq_lockId rq, now w + 5000)]> (locks w)),
             at_ rq AtCacheGet)
        end
  | AtCacheGet =>
      match getFromCache w c with
      | Some invite => (w, at_ rq (checkLoaded w invite))
      | None => (w, at_ rq AtFindActive)
      end
  | AtFindActive =>
      match findOneActive (invites w) c with
      | Some doc => (w, at_ rq (checkLoaded w (toCached doc)))
      | None => (w, at_ rq (AtRelease (Err NotFound)))
      end
  | AtFindUsedBy invite =>
      match findOneUsedBy (invites w) (rq_email rq) with
      | Some _ => (w, at_ rq (AtRelease (Err IdentityAlreadyRedeemed)))
      | None => (w, at_ rq (AtUpdate invite))
      end
  | AtUpdate invite =>
      let entry :=
        {| email := normalizeEmail (rq_email rq); usedAt := now w;
           ipAddress := rq_ip rq |} in
      let active := c_currentUses invite + 1 <? c_maxUses invite in
      let '(l, updatedInvite) :=
        findByIdAndUpdate (invites w) (c_id invite) entry active in
      (withInvites w l, at_ rq (AtCacheDel updatedInvite))
  | AtCacheDel updatedInvite =>
      if redisFails w DEL then (w, at_ rq (AtRelease (Err (RedisFailure DEL))))
      else (withCache w (delete c (cache w)), at_ rq (AtRelease (Ok updatedInvite)))
  | AtRelease r => (releaseLock w c (rq_lockId rq), at_ rq (Finished r))
  | Finished _ => (w, rq)
  end.

(** The requests in flight, and a schedule: the order in which their
    awaited commands are served. *)
Definition stepAt (i : nat) (st : World * list Request) : World * list Request :=
  match snd st !! i with
  | Some rq => let '(w', rq') := step (fst st) rq in (w', <[i := rq']> (snd st))
  | None => st
  end.

Definition run (schedule : list nat) (st : World * list Request) : World * list Request :=
  fold_left (fun st i => stepAt i st) schedule st.

(** A request that is served alone, from its call to its end: at most
    seven commands. *)
Definition serve (st : World * Request) : World * Request :=
  step (fst st) (snd st).

Definition runAlone (w : World) (rq : Request) : World * Request :=
  Nat.iter 7 serve (w, rq).

End Concurrent.

(** * Part II: vocabulary of the statements, and the scenarios *)

(** A symbol the code format can carry: an ASCII character that
    [toUpperCase] leaves alone and that is not the separator. *)
Definition symbolOk (c : ascii) : bool :=
  (nat_of_ascii c <? 128)%nat && Ascii.eqb (Js.upper c) c && negb (Ascii.eqb c "-"%char).

(** A usable alphabet: not empty, made of such symbols. *)
Definition alphabetOk (alphabet : list ascii) : bool :=
  negb (length alphabet =? 0)%nat && forallb symbolOk alphabet.

(** No symbol occurs twice. *)
Fixpoint distinct (s : list ascii) : bool :=
  match s with
  | [] => true
  | c :: r => negb (Js.includes r c) && distinct r
  end.

(** The contribution of the salt: the sum of its character codes. *)
Definition saltSum (salt : list ascii) : Z := saltLoop salt 0.

(** The eight symbols [validate] reads from a code: upper-cased, first
    separator removed. *)
Definition cleanOf (code : list ascii) : list ascii :=
  Js.removeFirst "-"%char (Js.toUpperCase code).

(** The codes obtained from [clean] by putting a different alphabet symbol
    at position [i]. *)
Definition substitutions (alphabet clean : list ascii) (i : nat) : list (list ascii) :=
  map (fun c => <[i:=c]> clean)
      (List.filter (fun c => negb (Js.strictEq (nth_error clean i) (Some c))) alphabet).

Section Candidates.

Variable alphabet : list ascii.
Variable salt : list ascii.

(** The code that the [j]-th call of [generateCode] of a request started
    in [w] produces. *)
Definition candidate (w : World) (j : nat) : list ascii :=
  generate alphabet salt (randomBytes w (drawn w + j)).

(** The candidate is already the code of a stored record. *)
Definition collides (w : World) (j : nat) : Prop :=
  In (candidate w j) (map code (invites w)).

End Candidates.

(** A Redis client that rejects exactly the command [c]. *)
Definition rejects (c : RedisCmd) : RedisCmd -> bool :=
  fun c' =>
    match c, c' with
    | SET, SET | SETEX, SETEX | GET, GET | DEL, DEL | EVAL, EVAL => true
    | _, _ => false
    end.


(** The sum of the usage ratios, record by record. *)
Fixpoint ratioSum (l : list Invite) : Q :=
  match l with
  | [] => 0%Q
  | inv :: r => (inject_Z (currentUses inv) / inject_Z (maxUses inv) + ratioSum r)%Q
  end.



(** ** The scenarios of the test suite *)

(** A fresh deployment at time [t]: empty collection, empty Redis, healthy
    Redis client, and a random source whose [k]-th buffer is [bytes k]. *)
Definition freshWorld (t : Z) (bytes : nat -> nat -> byte) : World := {|
  invites := [];
  cache := ∅;
  locks := ∅;
  now := t;
  redisFails := fun _ => false;
  randomBytes := bytes;
  drawn := 0;
  nextId := 0
|}.

(** The world of the scenarios: the clock reads 1 700 000 000 000 ms and
    every random byte is zero, so the first generated code is KKK5-KKKK. *)
Definition world0 : World := freshWorld 1700000000000 (fun _ => constBytes x00).

Definition issue (w : World) (referrer : string) (maxU days : Z) : Result Invite * World :=
  createInvite testAlphabet testSalt w referrer maxU days.

Definition redeem (w : World) (c : list ascii) (userEmail lockId : string)
  : Result (option Invite) * World :=
  useInvite testAlphabet testSalt w c userEmail "127.0.0.1" lockId.

(** A record of the cache with the given counters and expiry. *)
Definition cachedRecord (uses maxU expiry : Z) : Cached := {|
  c_id := 0; c_code := Js.str "KKK5-KKKK"; c_referrerEmail := "admin@test.com";
  c_maxUses := maxU; c_currentUses := uses; c_isActive := true; c_expiresAt := expiry
|}.

(** A world whose cache holds, for KKK5-KKKK, a record that is at its
    maximum and has expired. *)
Definition worldUsedAndExpired : World :=
  withCache world0
    (<[Js.str "KKK5-KKKK" := (cachedRecord 1 1 1600000000000, 1700086400000)]> ∅).


(** The concurrency test: five redemptions of a code with two uses. *)

Definition testCode : list ascii := Js.str "KKK5-KKKK".

(** The world after [createInvite('admin@test.com', 2)]. *)
Definition worldTwoUses : World := snd (issue world0 "admin@test.com" 2 30).

(** The same world after user@test.com has redeemed the code once. *)
Definition worldRedeemedOnce : World :=
  snd (redeem worldTwoUses testCode "user@test.com" "uuid-1").

(** A random source whose first two buffers are equal and whose later
    buffers all differ, and a world in which the code of the first buffer has
    been issued: the next call of [createInvite] draws that code again before
    it draws a free one. *)
Definition repeatingBytes : nat -> nat -> byte :=
  fun k =>
    match k with
    | O | S O => constBytes x00
    | _ => fun j => match Byte.of_N (N.of_nat (j + k)) with Some b => b | None => x00 end
    end.

Definition worldOneCollision : World :=
  snd (createInvite testAlphabet testSalt (freshWorld 1700000000000 repeatingBytes)
                    "admin@test.com" 1 30).


(** The five calls of the test 'should handle concurrent requests', each
    with its own identity and lock identifier. *)
Definition fiveRequests : list Request :=
  [ start testAlphabet testSalt testCode "user0@test.com" "127.0.0.1" "uuid-0";
    start testAlphabet testSalt testCode "user1@test.com" "127.0.0.1" "uuid-1";
    start testAlphabet testSalt testCode "user2@test.com" "127.0.0.1" "uuid-2";
    start testAlphabet testSalt testCode "user3@test.com" "127.0.0.1" "uuid-3";
    start testAlphabet testSalt testCode "user4@test.com" "127.0.0.1" "uuid-4" ].

(** The five calls are made in one turn of the event loop, so Redis receives
    the five [SET ... NX] before anything else; then each request is served
    to its end. *)
Definition allAcquireFirst : list nat :=
  ([0; 1; 2; 3; 4] ++ repeat 0 6 ++ [1; 2; 3; 4])%nat.

(** How a request ended: [Some true] returned, [Some false] thrown, [None]
    still in flight. *)
Definition outcome (rq : Request) : option bool :=
  match rq_pc rq with
  | Finished r => Some (isOk r)
  | _ => None
  end.

Definition failure (rq : Request) : option Error :=
  match rq_pc rq with
  | Finished (Err e) => Some e
  | _ => None
  end.

(** * Part II, continued: vocabulary of the further properties *)

(** The byte that holds [z], for [0 <= z <= 255]. *)
Definition byteOf (z : Z) : byte :=
  match Byte.of_N (Z.to_N z) with
  | Some b => b
  | None => x00
  end.

(** The code with the symbols at positions [i] and [j] exchanged. *)
Definition swapAt (s : list ascii) (i j : nat) : list ascii :=
  match nth_error s i, nth_error s j with
  | Some x, Some y => <[i:=y]> (<[j:=x]> s)
  | _, _ => s
  end.

(** The pairs of positions of the eight symbols that hold neighbouring
    random characters: the checksum at position 3 sits between the third and
    the fourth. *)
Definition adjacentPairs : list (nat * nat) :=
  [(0, 1); (1, 2); (2, 4); (4, 5); (5, 6); (6, 7)]%nat.

(** The positions whose symbol enters the checksum with weight 1, and those
    with weight 2. *)
Definition weightOnePositions : list nat := [0; 2; 5; 7]%nat.
Definition weightTwoPositions : list nat := [1; 4; 6]%nat.

(** A random buffer whose [j]-th byte is [j]. *)
Definition countingBytes : nat -> byte := fun j => byteOf (Z.of_nat j).

(** An alphabet of 32 symbols. *)
Definition base32Alphabet : list ascii := Js.str "ABCDEFGHJKLMNPQRSTUVWXYZ23456789".

(** * Part I, continued: the rest of the service *)

(** The answers of [validateInvite]: [{ valid: false, reason }] with one of
    its five reasons, or [{ valid: true, remainingUses, expiresAt }]. *)
Inductive Reason :=
| BadFormat       (* 'Invalid format or checksum' *)
| CodeNotFound    (* 'Code not found' *)
| CodeInactive    (* 'Code is inactive' *)
| MaximumReached  (* 'Maximum uses reached' *)
| CodeExpired.    (* 'Code has expired' *)

Inductive Validation :=
| NotValid (reason : Reason)
| IsValid (remainingUses : Z) (validUntil : Z).

Section ServiceQueries.

Variable alphabet : list ascii.
Variable salt : list ascii.

(** [validateInvite(code)]: the cache first, then any document with this
    code, active or not. *)
Definition validateInvite (w : World) (c : list ascii) : Validation :=
  let c := Js.toUpperCase c in
  if negb (isValidFormat alphabet salt c) then NotValid BadFormat
  else
    let invite :=
      match getFromCache w c with
      | Some cached => Some cached
      | None => option_map toCached (findOneByCode (invites w) c)
      end in
    match invite with
    | None => NotValid CodeNotFound
    | Some invite =>
        if negb (c_isActive invite) then NotValid CodeInactive
        else if c_currentUses invite >=? c_maxUses invite then NotValid MaximumReached
        else if c_expiresAt invite <=? now w then NotValid CodeExpired
        else IsValid (c_maxUses invite - c_currentUses invite) (c_expiresAt invite)
    end.

End ServiceQueries.

(** The clock moves. *)
Definition withNow (w : World) (t : Z) : World :=
  {| invites := invites w; cache := cache w; locks := locks w; now := t;
     redisFails := redisFails w; randomBytes := randomBytes w;
     drawn := drawn w; nextId := nextId w |}.

(** * Part II, continued: consistency of the store *)

(** What the design expects of the collection and of the cache:
    codes and identifiers are unique; every counter lies between 0 and its
    maximum, counts the redemption entries, and decides the active flag; no
    identity has redeemed twice, in the whole collection; and every cache
    entry is the image of the stored record of its code. *)
Record Consistent (w : World) : Prop := {
  cons_codes : List.NoDup (map code (invites w));
  cons_ids : List.NoDup (map _id (invites w));
  cons_fresh : Forall (fun d => (_id d < nextId w)%nat) (invites w);
  cons_counts :
    Forall (fun d => 0 <= currentUses d <= maxUses d /\
                     isActive d = (currentUses d <? maxUses d) /\
                     Z.of_nat (length (usedBy d)) = currentUses d) (invites w);
  cons_identities :
    List.NoDup (concat (map (fun d => map email (usedBy d)) (invites w)));
  cons_cache :
    forall c cached t, cache w !! c = Some (cached, t) ->
      exists d, In d (invites w) /\ code d = c /\ toCached d = cached
}.

(** What happens to a deployment: invites are issued and redeemed, time
    passes, the Redis client goes through good and bad phases. *)
Inductive Event :=
| Issued (referrer : string) (maxU expiresInDays : Z)
| Redeemed (c : list ascii) (userEmail ip lockId : string)
| ClockReads (t : Z)
| RedisBehaves (fails : RedisCmd -> bool).

Section History.

Variable alphabet : list ascii.
Variable salt : list ascii.

Definition happen (w : World) (e : Event) : World :=
  match e with
  | Issued referrer maxU days => snd (createInvite alphabet salt w referrer maxU days)
  | Redeemed c userEmail ip lockId => snd (useInvite alphabet salt w c userEmail ip lockId)
  | ClockReads t => withNow w t
  | RedisBehaves fails => withRedisFails w fails
  end.

Definition history (w : World) (events : list Event) : World :=
  fold_left happen events w.

(** The cache invalidation is never rejected in this history. *)
Definition invalidationWorks (e : Event) : Prop :=
  match e with
  | RedisBehaves fails => fails DEL = false
  | _ => True
  end.

End History.

(** The single-use record of the scenarios, once redeemed. *)
Definition usedUpRecord : Invite := {|
  _id := 0; code := Js.str "KKK5-KKKK"; maxUses := 1; currentUses := 1;
  referrerEmail := "admin@test.com";
  usedBy := [{| email := "user@test.com"; usedAt := 1700000000000;
                ipAddress := "127.0.0.1" |}];
  isActive := false; expiresAt := 1702592000000
|}.

(** The world after an invite with one use has been issued and redeemed
    while the cache invalidation was rejected, the client having recovered
    since: the stored record is used up, the cache still says it is not. *)
Definition worldStaleCache : World :=
  withRedisFails
    (snd (redeem (withRedisFails (snd (issue world0 "admin@test.com" 1 30)) (rejects DEL))
            testCode "user@test.com" "uuid-1"))
    (fun _ => false).

(** * Part I, continued: the rate limiter

    [createRateLimiter] of the rate-limit middleware: a sliding window kept
    in a Redis sorted set per client.  A member of the set is the string
    [`${now}-${Math.random()}`], here the pair of the time and of the random
    number; its score is the time.  The Redis server and [Date.now()] read
    the same clock. *)

Definition Member : Type := (Z * N)%type.

(** A sorted-set key: its members with their scores, and the time at which
    the key expires, if one is set. *)
Record KeyState := {
  members : list (Member * Z);
  expiry : option Z
}.

Inductive ZCmd := ZREMRANGEBYSCORE | ZCARD | ZADD | EXPIRE.

Record Limits := {
  windowMs : Z;
  maxRequests : Z;
  keyPrefix : string
}.

(** [createRateLimiter(options)] with the defaults of the destructuring. *)
Definition createRateLimiter (window maxR : option Z) (prefix : option string) : Limits := {|
  windowMs := match window with Some x => x | None => 60000 end;
  maxRequests := match maxR with Some x => x | None => 100 end;
  keyPrefix := match prefix with Some p => p | None => "rl"%string end
|}.

(** The three limiters the module exports. *)
Definition defaultLimiter : Limits := createRateLimiter None (Some 100) None.
Definition strictLimiter : Limits := createRateLimiter None (Some 5) None.
Definition authLimiter : Limits := createRateLimiter (Some 300000) (Some 10) None.

(** What the middleware reads of the request. *)
Record Client := {
  req_ip : option string;             (* req.ip *)
  req_forwardedFor : option string    (* req.headers['x-forwarded-for'] *)
}.

(** A string operand of [||]: [undefined] and the empty string are falsy. *)
Definition truthy (s : option string) : option string :=
  match s with
  | Some EmptyString => None
  | other => other
  end.

(** [req.ip || req.headers['x-forwarded-for'] || 'unknown'] *)
Definition identifier (req : Client) : string :=
  match truthy (req_ip req) with
  | Some s => s
  | None =>
      match truthy (req_forwardedFor req) with
      | Some s => s
      | None => "unknown"%string
      end
  end.

(** [Math.ceil(x / 1000)] *)
Definition ceilSeconds (x : Z) : Z := - ((- x) / 1000).

Section SortedSets.

Variable r : gmap string KeyState.
Variable key : string.
Variable t : Z.    (* the time of the command *)

(** The members of a key that exists at time [t]; the empty list for a key
    that does not exist or has expired. *)
Definition liveMembers : list (Member * Z) :=
  match r !! key with
  | Some ks =>
      match expiry ks with
      | Some e => if t <? e then members ks else []
      | None => members ks
      end
  | None => []
  end.

Definition liveExpiry : option Z :=
  match r !! key with
  | Some ks =>
      match expiry ks with
      | Some e => if t <? e then Some e else None
      | None => None
      end
  | None => None
  end.

(** Writing back the members of the key: a sorted set without members is
    no key; the key keeps its time to live. *)
Definition writeMembers (ms : list (Member * Z)) : gmap string KeyState :=
  match ms with
  | [] => delete key r
  | _ => <[key := {| members := ms; expiry := liveExpiry |}]> r
  end.

(** [ZREMRANGEBYSCORE key -inf hi] *)
Definition zremrangebyscore (hi : Z) : gmap string KeyState :=
  writeMembers (List.filter (fun e => negb (snd e <=? hi)) liveMembers).

(** [ZCARD key] *)
Definition zcard : Z := Z.of_nat (length liveMembers).

(** [ZADD key score member]: a member that exists gets the new score. *)
Definition zadd (score : Z) (m : Member) : gmap string KeyState :=
  writeMembers
    (if existsb (fun e => bool_decide (fst e = m)) liveMembers
     then map (fun e => if bool_decide (fst e = m) then (m, score) else e) liveMembers
     else liveMembers ++ [(m, score)]).

(** [EXPIRE key seconds]: nothing for a key that does not exist. *)
Definition expire (seconds : Z) : gmap string KeyState :=
  match liveMembers with
  | [] => r
  | ms => <[key := {| members := ms; expiry := Some (t + seconds * 1000) |}]> r
  end.

End SortedSets.

(** What the middleware does with the request: it answers 429, or calls
    [next()], with the three rate-limit headers (limit, remaining, reset
    time) unless a Redis command failed. *)
Inductive Response :=
| TooManyRequests (retryAfter : Z)
| Next (headers : option (Z * Z * Z)).

(** The middleware that [createRateLimiter] returns; [now] is [Date.now()]
    and [rnd] the value of [Math.random()]; [zfails] tells which commands the
    Redis client rejects. *)
Definition rateLimiter (o : Limits) (zfails : ZCmd -> bool) (r : gmap string KeyState)
           (req : Client) (now : Z) (rnd : N) : Response * gmap string KeyState :=
  let key := (keyPrefix o ++ ":" ++ identifier req)%string in
  let window := now - windowMs o in
  if zfails ZREMRANGEBYSCORE then (Next None, r)
  else
    let r := zremrangebyscore r key now window in
    if zfails ZCARD then (Next None, r)
    else
      let count := zcard r key now in
      if count >=? maxRequests o
      then (TooManyRequests (ceilSeconds (windowMs o)), r)
      else
        if zfails ZADD then (Next None, r)
        else
          let r := zadd r key now now (now, rnd) in
          if zfails EXPIRE then (Next None, r)
          else
            let r := expire r key now (ceilSeconds (windowMs o)) in
            (Next (Some (maxRequests o, maxRequests o - count - 1, now + windowMs o)), r).

(** A client's requests, served one after the other by a limiter whose
    Redis is healthy: each arrival is the time and the random number of the
    request; the log pairs each arrival with the response. *)
Definition healthy : ZCmd -> bool := fun _ => false.

Definition serveOne (o : Limits) (req : Client)
           (st : gmap string KeyState * list (Member * Response)) (a : Member)
  : gmap string KeyState * list (Member * Response) :=
  let '(resp, r') := rateLimiter o healthy (fst st) req (fst a) (snd a) in
  (r', snd st ++ [(a, resp)]).

Definition serveAll (o : Limits) (req : Client) (r : gmap string KeyState)
           (arrivals : list Member) : gmap string KeyState * list (Member * Response) :=
  fold_left (serveOne o req) arrivals (r, []).

(** The arrivals of a log that were let through with the limiter's headers. *)
Definition admitted (log : list (Member * Response)) : list Member :=
  map fst (List.filter (fun e => match snd e with Next (Some _) => true | _ => false end) log).

(** How many of them arrived after time [lo]. *)
Definition admittedAfter (lo : Z) (log : list (Member * Response)) : Z :=
  Z.of_nat (length (List.filter (fun a => lo <? fst a) (admitted log))).

(** * Part II, continued: the limiter's view of a client *)

(** The key of a client's sorted set. *)
Definition limiterKey (o : Limits) (req : Client) : string :=
  (keyPrefix o ++ ":" ++ identifier req)%string.

(** The members kept under a key, expired or not. *)
Definition stored (r : gmap string KeyState) (key : string) : list (Member * Z) :=
  match r !! key with
  | Some ks => members ks
  | None => []
  end.

(** An arrival as the member the limiter adds for it. *)
Definition scored (a : Member) : Member * Z := (a, fst a).

(** The response to a request at time [now] when [n] requests are counted
    in the window. *)
Definition decision (o : Limits) (n now : Z) : Response :=
  if n >=? maxRequests o
  then TooManyRequests (ceilSeconds (windowMs o))
  else Next (Some (maxRequests o, maxRequests o - n - 1, now + windowMs o)).

(** What holds of the store and of the log after the requests up to time
    [tlast] were served. *)
Record LimiterInv (o : Limits) (req : Client)
       (st : gmap string KeyState * list (Member * Response)) (tlast : Z) : Prop := {
  inv_times : forall a, In a (map fst (snd st)) -> fst a <= tlast;
  inv_members :
    stored (fst st) (limiterKey o req)
    = map scored (List.filter (fun a => tlast - windowMs o <? fst a) (admitted (snd st)));
  inv_expiry :
    forall ks, fst st !! limiterKey o req = Some ks ->
               exists e, expiry ks = Some e
                         /\ forall x, In x (members ks) -> snd x + windowMs o <= e;
  inv_log :
    forall pre a resp post,
      snd st = pre ++ (a, resp) :: post ->
      resp = decision o (admittedAfter (fst a - windowMs o) pre) (fst a)
}.

(** A client, and seven requests of it within seven milliseconds. *)
Definition clientA : Client :=
  {| req_ip := Some "10.0.0.1"%string; req_forwardedFor := None |}.

Definition clientB : Client :=
  {| req_ip := None; req_forwardedFor := Some "10.0.0.2"%string |}.

Definition burst : list Member :=
  [(1000, 0%N); (1001, 0%N); (1002, 0%N); (1003, 0%N); (1004, 0%N); (1005, 0%N); (1006, 0%N)].

(** * Part I, continued: the controller's validation endpoint

    [inviteController.validateInvite] does not go through the service: it
    reads the collection itself, with the code as it stands in the URL. *)

Module InviteController.

(** The answer: 400 'Invalid invite code', or 200 with
    [{ valid, remainingUses, expiresAt }]. *)
Inductive Answer :=
| BadRequest
| Validated (valid : bool) (remainingUses : Z) (validUntil : Z).

Definition validateInvite (w : World) (c : list ascii) : Answer :=
  match findOneActive (invites w) c with
  | None => BadRequest
  | Some invite =>
      let isValid := (currentUses invite <? maxUses invite) && (now w <? expiresAt invite) in
      Validated isValid (maxUses invite - currentUses invite) (expiresAt invite)
  end.

End InviteController.

(** * Part III: properties *)

(** With every random byte zero the seven symbols are K, and the checksum
    of KKKKKKK under the test salt is 5. *)
Example generate_zero :
  generate testAlphabet testSalt (constBytes x00) = Js.str "KKK5-KKKK".
Proof. vm_compute. reflexivity. Qed.

(** ** Facts about the string primitives *)

Section JsFacts.

Lemma includes_In (s : list ascii) (c : ascii) :
  Js.includes s c = true <-> In c s.
Proof.
  unfold Js.includes. rewrite existsb_exists. split.
  - intros (x & Hx & He). apply Ascii.eqb_eq in He. now subst.
  - intros H. exists c. split; [exact H | apply Ascii.eqb_refl].
Qed.

Lemma indexOfFrom_In (s : list ascii) (c : ascii) (i : Z) :
  In c s ->
  i <= Js.indexOfFrom i s c < i + Z.of_nat (length s) /\
  nth_error s (Z.to_nat (Js.indexOfFrom i s c - i)) = Some c.
Proof.
  revert i. induction s as [|x r IH]; intros i Hin; [destruct Hin|].
  cbn [Js.indexOfFrom length]. destruct (Ascii.eqb x c) eqn:E.
  - apply Ascii.eqb_eq in E. subst x. rewrite Z.sub_diag. cbn. split; [lia | reflexivity].
  - destruct Hin as [->|Hin]; [rewrite Ascii.eqb_refl in E; discriminate|].
    destruct (IH (i + 1) Hin) as [Hb Hn]. split; [lia|].
    replace (Z.to_nat (Js.indexOfFrom (i + 1) r c - i))
      with (S (Z.to_nat (Js.indexOfFrom (i + 1) r c - (i + 1)))) by lia.
    exact Hn.
Qed.

Lemma indexOf_In (s : list ascii) (c : ascii) :
  In c s ->
  0 <= Js.indexOf s c < Z.of_nat (length s) /\
  nth_error s (Z.to_nat (Js.indexOf s c)) = Some c.
Proof.
  intros Hin. unfold Js.indexOf.
  destruct (indexOfFrom_In s c 0 Hin) as [Hb Hn].
  rewrite Z.sub_0_r in Hn. split; [lia | exact Hn].
Qed.

Lemma charCode_nonneg (c : ascii) : 0 <= Js.charCode c.
Proof. unfold Js.charCode. lia. Qed.

(** Indexing with a remainder of a non-negative sum by a positive length
    always hits the string. *)
Lemma at_rem_Some (s : list ascii) (a : Z) :
  0 <= a -> s <> [] ->
  exists c, Js.at_ s (Js.rem a (Z.of_nat (length s))) = Some c /\ In c s /\
            nth_error s (Z.to_nat (a mod Z.of_nat (length s))) = Some c.
Proof.
  intros Ha Hs.
  assert (Hlen : 0 < Z.of_nat (length s)) by (destruct s; [congruence | cbn; lia]).
  unfold Js.rem, Js.at_.
  destruct (Z.eqb_spec (Z.of_nat (length s)) 0) as [E|_]; [lia|].
  rewrite Z.rem_mod_nonneg by lia.
  pose proof (Z.mod_pos_bound a _ Hlen) as Hb.
  destruct (Z.ltb_spec (a mod Z.of_nat (length s)) 0) as [?|_]; [lia|].
  destruct (nth_error s (Z.to_nat (a mod Z.of_nat (length s)))) as [c|] eqn:E.
  - exists c. split; [reflexivity|]. split; [|reflexivity].
    eapply nth_error_In; eauto.
  - apply nth_error_None in E. lia.
Qed.

End JsFacts.

(** ** Facts about the generator *)

Section GeneratorFacts.

Variable alphabet : list ascii.
Variable salt : list ascii.

Abbreviation over := (Forall (fun c => In c alphabet)).

Lemma alphabetOk_nonempty : alphabetOk alphabet = true -> alphabet <> [].
Proof.
  unfold alphabetOk. intros H Hnil. subst. discriminate H.
Qed.

Lemma alphabetOk_symbol (c : ascii) :
  alphabetOk alphabet = true -> In c alphabet ->
  Js.upper c = c /\ Ascii.eqb c "-"%char = false.
Proof.
  unfold alphabetOk. intros H Hin.
  apply andb_prop in H as [_ H]. rewrite forallb_forall in H.
  specialize (H c Hin). unfold symbolOk in H.
  apply andb_prop in H as [H H2]. apply andb_prop in H as [_ H1].
  apply Ascii.eqb_eq in H1. apply negb_true_iff in H2. now split.
Qed.

Lemma randomCharsLoop_spec (bytes : nat -> byte) (n i : nat) (result : list ascii) :
  alphabet <> [] ->
  exists l, randomCharsLoop alphabet bytes n i result = result ++ l /\
            length l = n /\ over l.
Proof.
  intros Hne. revert i result. induction n as [|n IH]; intros i result.
  - exists []. cbn. rewrite app_nil_r. repeat split. constructor.
  - cbn [randomCharsLoop]. unfold base.
    destruct (at_rem_Some alphabet (Z.of_N (Byte.to_N (bytes i)))) as (c & Hc & Hin & _);
      [lia | exact Hne |].
    rewrite Hc. cbn [Js.show].
    destruct (IH (S i) (result ++ [c])) as (l & Hl & Hlen & Hall).
    exists (c :: l). rewrite Hl, <- app_assoc. cbn. repeat split.
    + now rewrite Hlen.
    + now constructor.
Qed.

Lemma weightedLoop_nonneg (s : list ascii) (i : nat) (sum : Z) :
  over s -> 0 <= sum -> 0 <= weightedLoop alphabet s i sum.
Proof.
  intros Hs. revert i sum. induction Hs as [|c r Hc _ IH]; intros i sum Hsum; cbn.
  - exact Hsum.
  - apply IH. destruct (indexOf_In alphabet c Hc) as [Hb _].
    assert (0 <= Z.of_nat (i mod 2)) by lia. nia.
Qed.

Lemma saltLoop_nonneg (s : list ascii) (sum : Z) :
  0 <= sum -> 0 <= saltLoop s sum.
Proof.
  revert sum. induction s as [|c r IH]; intros sum Hsum; cbn; [exact Hsum|].
  apply IH. pose proof (charCode_nonneg c). lia.
Qed.

Lemma calculateChecksum_Some (s : list ascii) :
  alphabet <> [] -> over s ->
  exists k, calculateChecksum alphabet salt s = Some k /\ In k alphabet.
Proof.
  intros Hne Hs. unfold calculateChecksum, base.
  destruct (at_rem_Some alphabet (saltLoop salt (weightedLoop alphabet s 0 0)))
    as (k & Hk & Hin & _); [|exact Hne|eauto].
  apply saltLoop_nonneg, weightedLoop_nonneg; [exact Hs | lia].
Qed.

End GeneratorFacts.

(** C3, as stated, fails: the configured alphabet is any non-empty string,
    and [validate] reads its input in upper case.  With the README alphabet
    in lower case, the generated code kkk5-kkkk is upper-cased to KKK5-KKKK,
    whose symbols are not in the alphabet, and is rejected. *)
Lemma lowercase_alphabet_counterexample :
  ~ (forall (alphabet salt : list ascii) (bytes : nat -> byte),
        alphabet <> [] ->
        validate alphabet salt (generate alphabet salt bytes) = true).
Proof.
  intros H.
  specialize (H lowerAlphabet testSalt (constBytes x00) ltac:(discriminate)).
  vm_compute in H. discriminate H.
Qed.

(** C3, amended.  With an alphabet that is not empty and whose symbols are
    ASCII characters that [toUpperCase] leaves unchanged, none of them the
    separator, every code that [generate] can produce is accepted by
    [validate]: whatever bytes the random source returns, and for any salt,
    [validate (generate bytes)] is [true]. *)
Theorem validate_generate (alphabet salt : list ascii) (bytes : nat -> byte) :
  alphabetOk alphabet = true ->
  validate alphabet salt (generate alphabet salt bytes) = true.
Proof.
  intros Hok.
  pose proof (alphabetOk_nonempty alphabet Hok) as Hne.
  unfold generate, generateRandomChars.
  destruct (randomCharsLoop_spec alphabet bytes 7 0 [] Hne) as (l & -> & Hlen & Hall).
  cbn [app].
  destruct (calculateChecksum_Some alphabet salt l Hne Hall) as (k & Hk & Hkin).
  rewrite Hk.
  do 8 (destruct l as [|? l]; try discriminate Hlen). clear Hlen.
  repeat match goal with
         | H : Forall _ (_ :: _) |- _ => inversion H; subst; clear H
         end.
  repeat match goal with
         | H : In ?c alphabet |- _ =>
             let Hu := fresh "Hu" in let Hd := fresh "Hd" in
             destruct (alphabetOk_symbol alphabet c Hok H) as [Hu Hd];
             apply includes_In in H
         end.
  unfold validate. cbn [firstn skipn app Js.show Js.str list_ascii_of_string
                        Js.toUpperCase map].
  repeat match goal with H : Js.upper _ = _ |- _ => rewrite !H; clear H end.
  change (Js.upper "-"%char) with "-"%char.
  cbn [Js.removeFirst].
  repeat match goal with H : Ascii.eqb _ "-"%char = false |- _ => rewrite !H; clear H end.
  cbn [Js.removeFirst Ascii.eqb Bool.eqb length Nat.eqb negb forallb].
  repeat match goal with H : Js.includes alphabet _ = true |- _ => rewrite !H; clear H end.
  cbn [andb negb nth_error firstn skipn app]. rewrite Hk.
  cbn [Js.strictEq]. apply Ascii.eqb_refl.
Qed.

(** The README alphabet is usable, so every code it generates validates. *)
Lemma validate_generate_witness :
  alphabetOk testAlphabet = true /\
  validate testAlphabet testSalt (generate testAlphabet testSalt (constBytes x00)) = true.
Proof.
  split; [reflexivity | apply (validate_generate testAlphabet testSalt (constBytes x00)); reflexivity].
Defined.

(** ** The checksum as arithmetic modulo the alphabet size *)

Section ChecksumArith.

Variable alphabet : list ascii.

Abbreviation B := (base alphabet).
Abbreviation over := (Forall (fun c => In c alphabet)).

Lemma distinct_NoDup (s : list ascii) : distinct s = true -> List.NoDup s.
Proof.
  induction s as [|c r IH]; cbn; intros H; [constructor|].
  apply andb_prop in H as [H1 H2]. constructor; [|auto].
  intros Hin. apply includes_In in Hin. rewrite Hin in H1. discriminate.
Qed.

Lemma forallb_over (s : list ascii) :
  forallb (Js.includes alphabet) s = true <-> over s.
Proof.
  rewrite forallb_forall, List.Forall_forall.
  split; intros H c Hc; apply includes_In; auto.
Qed.

Lemma saltLoop_acc (salt : list ascii) (sum : Z) :
  saltLoop salt sum = sum + saltSum salt.
Proof.
  unfold saltSum. revert sum. induction salt as [|c r IH]; intros sum; cbn; [lia|].
  rewrite IH, (IH (0 + Js.charCode c)). lia.
Qed.

Lemma saltSum_nonneg (salt : list ascii) : 0 <= saltSum salt.
Proof. unfold saltSum. apply saltLoop_nonneg. lia. Qed.

(** On strings over the alphabet the checksum is the symbol at index
    (weighted sum + salt sum) mod B. *)
Lemma calculateChecksum_mod (salt s : list ascii) :
  alphabet <> [] -> over s ->
  calculateChecksum alphabet salt s =
    nth_error alphabet
      (Z.to_nat ((weightedLoop alphabet s 0 0 + saltSum salt) mod B)).
Proof.
  intros Hne Hs. unfold calculateChecksum. rewrite saltLoop_acc.
  pose proof (weightedLoop_nonneg alphabet s 0 0 Hs ltac:(lia)) as Hw.
  pose proof (saltSum_nonneg salt) as Hsalt.
  destruct (at_rem_Some alphabet (weightedLoop alphabet s 0 0 + saltSum salt))
    as (c & Hc & _ & Hn); [lia | exact Hne |].
  unfold base. rewrite Hc, Hn. reflexivity.
Qed.

Lemma base_pos : alphabet <> [] -> 0 < B.
Proof. unfold base. destruct alphabet; [congruence | cbn; lia]. Qed.

(** With distinct symbols, two indices below B name the same symbol only
    if they are equal. *)
Lemma nth_error_alphabet_inj (x y : Z) :
  distinct alphabet = true -> 0 <= x < B -> 0 <= y < B ->
  nth_error alphabet (Z.to_nat x) = nth_error alphabet (Z.to_nat y) -> x = y.
Proof.
  intros Hd Hx Hy E. unfold base in *.
  pose proof (distinct_NoDup _ Hd) as Hnd.
  rewrite List.NoDup_nth_error in Hnd.
  assert (Z.to_nat x = Z.to_nat y) by (apply Hnd; [lia | exact E]). lia.
Qed.

Lemma checksum_eq_iff (salt1 salt2 s1 s2 : list ascii) :
  alphabet <> [] -> distinct alphabet = true -> over s1 -> over s2 ->
  calculateChecksum alphabet salt1 s1 = calculateChecksum alphabet salt2 s2 <->
  (weightedLoop alphabet s1 0 0 + saltSum salt1) mod B =
  (weightedLoop alphabet s2 0 0 + saltSum salt2) mod B.
Proof.
  intros Hne Hd H1 H2. rewrite !calculateChecksum_mod by assumption.
  pose proof (base_pos Hne) as HB.
  split.
  - apply nth_error_alphabet_inj; [exact Hd | apply Z.mod_pos_bound; lia ..].
  - intros ->. reflexivity.
Qed.

End ChecksumArith.

(** C6, as stated, fails: two distinct salts with the same character-code
    sum ("ab" and "ba") give the same checksum, here for the 7-symbol string
    KKKKKKK over the README alphabet. *)
Lemma salt_change_counterexample :
  ~ (forall (salt1 salt2 s : list ascii),
        salt1 <> salt2 -> length s = 7%nat ->
        forallb (Js.includes testAlphabet) s = true ->
        calculateChecksum testAlphabet salt1 s <> calculateChecksum testAlphabet salt2 s).
Proof.
  intros H.
  apply (H (Js.str "ab") (Js.str "ba") (Js.str "KKKKKKK")); try reflexivity.
  discriminate.
Qed.

(** C6, amended. The checksum is a function of (symbols, alphabet, salt), and
    it depends on the salt only through the sum of the salt's character codes
    modulo B: over a non-empty alphabet of distinct symbols, two salts give
    the same checksum for a string over the alphabet exactly when their
    character-code sums are congruent modulo B; so a change of salt changes
    every checksum exactly when it changes that sum modulo B. *)
Theorem checksum_salt_dependence (alphabet salt1 salt2 s : list ascii) :
  alphabet <> [] -> distinct alphabet = true ->
  forallb (Js.includes alphabet) s = true ->
  (calculateChecksum alphabet salt1 s = calculateChecksum alphabet salt2 s <->
   saltSum salt1 mod base alphabet = saltSum salt2 mod base alphabet).
Proof.
  intros Hne Hd Hs.
  apply forallb_over in Hs.
  rewrite (checksum_eq_iff alphabet salt1 salt2 s s Hne Hd Hs Hs).
  pose proof (base_pos alphabet Hne) as HB.
  set (w := weightedLoop alphabet s 0 0).
  rewrite (Z.add_mod w (saltSum salt1)), (Z.add_mod w (saltSum salt2)) by lia.
  split.
  - intros E.
    pose proof (Z.mod_pos_bound (saltSum salt1) _ HB) as H1.
    pose proof (Z.mod_pos_bound (saltSum salt2) _ HB) as H2.
    pose proof (Z.mod_pos_bound w _ HB) as H3.
    set (a := saltSum salt1 mod base alphabet) in *.
    set (b := saltSum salt2 mod base alphabet) in *.
    set (c := w mod base alphabet) in *.
    assert (Ha : (c + a) mod base alphabet = (c + b) mod base alphabet) by exact E.
    rewrite (Z.mod_eq (c + a)), (Z.mod_eq (c + b)) in Ha by lia.
    assert (Hq : (c + a) / base alphabet = (c + b) / base alphabet \/
                 (c + a) / base alphabet = (c + b) / base alphabet + 1 \/
                 (c + a) / base alphabet + 1 = (c + b) / base alphabet).
    { assert (0 <= (c + a) / base alphabet <= 1).
      { split; [apply Z.div_pos; lia|].
        apply Z.lt_succ_r. apply Z.div_lt_upper_bound; lia. }
      assert (0 <= (c + b) / base alphabet <= 1).
      { split; [apply Z.div_pos; lia|].
        apply Z.lt_succ_r. apply Z.div_lt_upper_bound; lia. }
      lia. }
    destruct Hq as [Hq|[Hq|Hq]]; nia.
  - intros ->. reflexivity.
Qed.

Lemma checksum_salt_dependence_witness :
  testAlphabet <> [] /\ distinct testAlphabet = true /\
  forallb (Js.includes testAlphabet) (Js.str "K7Q2N5X") = true /\
  (calculateChecksum testAlphabet testSalt (Js.str "K7Q2N5X") =
     calculateChecksum testAlphabet (Js.str "DifferentSalt") (Js.str "K7Q2N5X") <->
   saltSum testSalt mod base testAlphabet =
     saltSum (Js.str "DifferentSalt") mod base testAlphabet).
Proof.
  split; [discriminate|]. split; [reflexivity|]. split; [reflexivity|].
  apply (checksum_salt_dependence testAlphabet testSalt (Js.str "DifferentSalt")
           (Js.str "K7Q2N5X")); [discriminate | reflexivity | reflexivity].
Defined.

(** ** Single-symbol mutations *)

Section Mutation.

Variable alphabet : list ascii.
Variable salt : list ascii.
Hypothesis Hok : alphabetOk alphabet = true.

Abbreviation over := (Forall (fun c => In c alphabet)).

Lemma toUpperCase_over (s : list ascii) : over s -> Js.toUpperCase s = s.
Proof.
  unfold Js.toUpperCase.
  induction 1 as [|c r Hc _ IH]; cbn [map]; [reflexivity|].
  destruct (alphabetOk_symbol alphabet c Hok Hc) as [-> _]. now rewrite IH.
Qed.

Lemma removeFirst_over (s : list ascii) : over s -> Js.removeFirst "-"%char s = s.
Proof.
  induction 1 as [|c r Hc _ IH]; cbn; [reflexivity|].
  destruct (alphabetOk_symbol alphabet c Hok Hc) as [_ ->]. now rewrite IH.
Qed.

(** On a string over the alphabet, [validate] is the length test and the
    checksum comparison. *)
Lemma validate_over (s : list ascii) :
  over s ->
  validate alphabet salt s =
    (length s =? 8)%nat &&
    Js.strictEq (nth_error s 3)
      (calculateChecksum alphabet salt (firstn 3 s ++ skipn 4 s)).
Proof.
  intros Hs. unfold validate.
  rewrite (toUpperCase_over s Hs), (removeFirst_over s Hs).
  apply forallb_over in Hs. rewrite Hs.
  destruct (length s =? 8)%nat; reflexivity.
Qed.

(** Rendering eight symbols with the separator does not change the
    verdict. *)
Lemma validate_format (s : list ascii) :
  over s -> length s = 8%nat ->
  validate alphabet salt (format s) = validate alphabet salt s.
Proof.
  intros Hs Hlen. unfold format.
  rewrite (removeFirst_over s Hs), (toUpperCase_over s Hs), Hlen.
  cbn [Nat.eqb negb].
  do 9 (destruct s as [|? s]; try discriminate Hlen). clear Hlen.
  unfold validate at 1.
  assert (E : Js.removeFirst "-"%char
                (Js.toUpperCase
                   (firstn 4 [a; a0; a1; a2; a3; a4; a5; a6] ++
                    Js.str "-" ++ skipn 4 [a; a0; a1; a2; a3; a4; a5; a6])) =
              Js.removeFirst "-"%char (Js.toUpperCase [a; a0; a1; a2; a3; a4; a5; a6])).
  { rewrite (toUpperCase_over _ Hs), (removeFirst_over _ Hs).
    cbn [firstn skipn app Js.str list_ascii_of_string Js.toUpperCase map].
    repeat match goal with
           | H : Forall _ (_ :: _) |- _ => inversion H; subst; clear H
           end.
    repeat match goal with
           | H : In ?c alphabet |- _ =>
               let Hu := fresh "Hu" in let Hd := fresh "Hd" in
               destruct (alphabetOk_symbol alphabet c Hok H) as [Hu Hd]; clear H
           end.
    repeat match goal with H : Js.upper _ = _ |- _ => rewrite !H; clear H end.
    cbn [Js.removeFirst].
    repeat match goal with H : Ascii.eqb _ "-"%char = false |- _ => rewrite !H; clear H end.
    reflexivity. }
  rewrite E. reflexivity.
Qed.

End Mutation.

(** Adding a non-zero shift of size below B, or twice such a shift, moves a
    sum to another residue when B is odd. *)
Lemma shifted_mod_ne (A d delta B : Z) :
  0 < B -> Z.odd B = true -> delta <> 0 -> - B < delta < B ->
  d = delta \/ d = 2 * delta ->
  (A + d) mod B <> A mod B.
Proof.
  intros HB Hodd Hd0 Hdb Hd E.
  rewrite (Z.mod_eq (A + d)), (Z.mod_eq A) in E by lia.
  set (q1 := (A + d) / B) in *. set (q2 := A / B) in *.
  assert (Hq : d = B * (q1 - q2)) by lia.
  rewrite Z.odd_spec in Hodd by idtac. destruct Hodd as [m Hm].
  assert (Hr : q1 - q2 = -1 \/ q1 - q2 = 0 \/ q1 - q2 = 1) by nia.
  destruct Hr as [Hr|[Hr|Hr]]; rewrite Hr in Hq; destruct Hd; lia.
Qed.

Section MutationDetected.

Variable alphabet : list ascii.
Variable salt : list ascii.
Hypothesis Hok : alphabetOk alphabet = true.
Hypothesis Hdistinct : distinct alphabet = true.
Hypothesis Hodd : Z.odd (base alphabet) = true.

Abbreviation over := (Forall (fun c => In c alphabet)).

Lemma indexOf_diff (c x : ascii) :
  In c alphabet -> In x alphabet -> c <> x ->
  Js.indexOf alphabet c - Js.indexOf alphabet x <> 0 /\
  - base alphabet < Js.indexOf alphabet c - Js.indexOf alphabet x < base alphabet.
Proof.
  intros Hc Hx Hne.
  destruct (indexOf_In alphabet c Hc) as [Hcb Hcn].
  destruct (indexOf_In alphabet x Hx) as [Hxb Hxn].
  unfold base. split; [|lia].
  intros E. assert (E' : Js.indexOf alphabet c = Js.indexOf alphabet x) by lia.
  rewrite E' in Hcn. congruence.
Qed.

Lemma checksum_shift (s s' : list ascii) (c x : ascii) :
  over s -> over s' -> In c alphabet -> In x alphabet -> c <> x ->
  weightedLoop alphabet s' 0 0 - weightedLoop alphabet s 0 0 =
    Js.indexOf alphabet c - Js.indexOf alphabet x \/
  weightedLoop alphabet s' 0 0 - weightedLoop alphabet s 0 0 =
    2 * (Js.indexOf alphabet c - Js.indexOf alphabet x) ->
  calculateChecksum alphabet salt s' <> calculateChecksum alphabet salt s.
Proof.
  intros Hs Hs' Hc Hx Hne Hd E.
  pose proof (alphabetOk_nonempty alphabet Hok) as Hnil.
  apply (checksum_eq_iff alphabet salt salt s' s Hnil Hdistinct Hs' Hs) in E.
  destruct (indexOf_diff c x Hc Hx Hne) as [H0 Hb].
  replace (weightedLoop alphabet s' 0 0 + saltSum salt)
    with (weightedLoop alphabet s 0 0 + saltSum salt +
          (weightedLoop alphabet s' 0 0 - weightedLoop alphabet s 0 0)) in E by lia.
  revert E. eapply shifted_mod_ne; eauto using base_pos.
Qed.

Lemma insert_over (s : list ascii) (i : nat) (c : ascii) :
  over s -> In c alphabet -> over (<[i:=c]> s).
Proof.
  intros Hall Hc. apply List.Forall_forall. intros y Hy.
  apply list_elem_of_In, list_elem_of_lookup in Hy as [j Hj].
  destruct (decide (i = j)) as [->|Hij].
  - destruct (decide (j < length s)%nat) as [Hlt|Hge].
    + rewrite list_lookup_insert_eq in Hj by exact Hlt.
      injection Hj as <-. exact Hc.
    + rewrite list_insert_ge in Hj by lia.
      rewrite List.Forall_forall in Hall. apply Hall.
      apply list_elem_of_In, list_elem_of_lookup. eauto.
  - rewrite list_lookup_insert_ne in Hj by exact Hij.
    rewrite List.Forall_forall in Hall. apply Hall.
    apply list_elem_of_In, list_elem_of_lookup. eauto.
Qed.

(** The core of the argument, on the eight symbols of an accepted code. *)
Lemma mutation_rejected_clean (clean : list ascii) (i : nat) (c : ascii) :
  over clean -> length clean = 8%nat ->
  validate alphabet salt clean = true ->
  (i < 8)%nat -> i <> 3%nat ->
  In c alphabet -> nth_error clean i <> Some c ->
  validate alphabet salt (<[i:=c]> clean) = false.
Proof.
  intros Hall Hlen Hval Hi Hi3 Hc Hdiff.
  rewrite (validate_over alphabet salt Hok clean Hall), Hlen in Hval.
  cbn [Nat.eqb andb] in Hval.
  do 9 (destruct clean as [|? clean]; try discriminate Hlen). clear Hlen.
  cbn [nth_error firstn skipn app] in Hval.
  destruct (calculateChecksum alphabet salt [a; a0; a1; a3; a4; a5; a6]) as [k|] eqn:Hk;
    [|discriminate Hval].
  cbn [Js.strictEq] in Hval. apply Ascii.eqb_eq in Hval. subst k.
  pose proof (insert_over _ i c Hall Hc) as Hm.
  rewrite (validate_over alphabet salt Hok _ Hm), length_insert.
  cbn [length Nat.eqb andb].
  repeat match goal with
         | H : Forall _ (_ :: _) |- _ => inversion H; subst; clear H
         end.
  assert (Hsame : forall s',
             over s' ->
             calculateChecksum alphabet salt s' <>
               calculateChecksum alphabet salt [a; a0; a1; a3; a4; a5; a6] ->
             Js.strictEq (Some a2) (calculateChecksum alphabet salt s') = false).
  { intros s' Hs' Hne. rewrite Hk in Hne.
    destruct (calculateChecksum alphabet salt s') as [k'|]; [|reflexivity].
    cbn. destruct (Ascii.eqb_spec a2 k'); [congruence | reflexivity]. }
  assert (Horig : over [a; a0; a1; a3; a4; a5; a6]) by (repeat constructor; assumption).
  destruct i as [|[|[|[|[|[|[|[|i]]]]]]]]; try lia; try congruence;
    cbn [list_insert insert nth_error firstn skipn app] in *;
    (apply Hsame; [repeat constructor; assumption|]);
    match goal with
    | Hd : Some ?x <> Some c |- _ =>
        apply (checksum_shift _ _ c x);
        [ exact Horig | repeat constructor; assumption | exact Hc | assumption
        | congruence | cbn; lia ]
    end.
Qed.

End MutationDetected.

(** C7, as stated, fails: for the accepted code KKK5KKKK (README alphabet,
    salt TestSalt2024) and position 0, all 28 substitutions of a different
    alphabet symbol are rejected, so the rejected fraction is 28/28 and not
    (B-1)/B = 28/29. *)
Lemma mutation_rate_counterexample :
  let clean := Js.str "KKK5KKKK" in
  let muts := substitutions testAlphabet clean 0 in
  let rejected := List.filter (fun m => negb (validate testAlphabet testSalt m)) muts in
  validate testAlphabet testSalt clean = true /\
  length muts = 28%nat /\
  length rejected = 28%nat /\
  Z.of_nat (length rejected) * base testAlphabet <>
    (base testAlphabet - 1) * Z.of_nat (length muts).
Proof.
  vm_compute. repeat split; discriminate.
Qed.

(** C7, amended. With an alphabet of 29 distinct symbols, each an ASCII
    character that [toUpperCase] leaves unchanged and none the separator, and
    any fixed salt, for every code accepted by [validate], replacing the
    symbol at a non-checksum position (0, 1, 2, 4, 5, 6 or 7 of its eight
    symbols) by a different alphabet symbol always makes [validate] false,
    with or without the separator: there is no checksum collision, the
    rejection is certain and not merely of probability (B-1)/B. *)
Theorem mutation_always_rejected (alphabet salt code : list ascii) (i : nat) (c : ascii) :
  alphabetOk alphabet = true -> distinct alphabet = true ->
  length alphabet = 29%nat ->
  validate alphabet salt code = true ->
  (i < 8)%nat -> i <> 3%nat ->
  Js.includes alphabet c = true ->
  nth_error (cleanOf code) i <> Some c ->
  validate alphabet salt (<[i:=c]> (cleanOf code)) = false /\
  validate alphabet salt (format (<[i:=c]> (cleanOf code))) = false.
Proof.
  intros Hok Hd Hlen Hval Hi Hi3 Hc Hne.
  assert (Hodd : Z.odd (base alphabet) = true) by (unfold base; rewrite Hlen; reflexivity).
  apply includes_In in Hc.
  assert (Hclean : Forall (fun x => In x alphabet) (cleanOf code) /\
                   length (cleanOf code) = 8%nat /\
                   validate alphabet salt (cleanOf code) = true).
  { unfold validate in Hval. fold (cleanOf code) in Hval.
    destruct (length (cleanOf code) =? 8)%nat eqn:E8; [|discriminate Hval].
    destruct (forallb (Js.includes alphabet) (cleanOf code)) eqn:Eall; [|discriminate Hval].
    cbn [negb] in Hval. apply Nat.eqb_eq in E8.
    pose proof (proj1 (forallb_over alphabet _) Eall) as Hover.
    repeat split; [exact Hover | exact E8 |].
    rewrite (validate_over alphabet salt Hok _ Hover), E8. exact Hval. }
  destruct Hclean as (Hover & H8 & Hv).
  assert (Hrej : validate alphabet salt (<[i:=c]> (cleanOf code)) = false)
    by (apply mutation_rejected_clean; assumption).
  split; [exact Hrej|].
  rewrite validate_format; [exact Hrej | exact Hok | | ].
  - apply insert_over; assumption.
  - rewrite length_insert. exact H8.
Qed.

Lemma mutation_always_rejected_witness :
  validate testAlphabet testSalt (<[0%nat:="7"%char]> (cleanOf (Js.str "kkk5-kkkk"))) = false /\
  validate testAlphabet testSalt
    (format (<[0%nat:="7"%char]> (cleanOf (Js.str "kkk5-kkkk")))) = false.
Proof.
  apply (mutation_always_rejected testAlphabet testSalt (Js.str "kkk5-kkkk") 0 "7"%char);
    try reflexivity; try lia; vm_compute; congruence.
Defined.

(** ** Redemption: which failure is reported, and what a failure leaves behind *)

Section Redemption.

Variable alphabet : list ascii.
Variable salt : list ascii.

Lemma releaseLock_invites (w : World) (c : list ascii) (lockId : string) :
  invites (releaseLock w c lockId) = invites w.
Proof.
  unfold releaseLock.
  destruct (redisFails w EVAL); [reflexivity|].
  destruct (live (locks w) c (now w)); [|reflexivity].
  destruct (bool_decide _); reflexivity.
Qed.

Lemma findOneUsedBy_Some (l : list Invite) (userEmail : string) :
  (exists inv, In inv l /\ In (normalizeEmail userEmail) (map email (usedBy inv))) ->
  exists inv, findOneUsedBy l userEmail = Some inv.
Proof.
  intros (inv & Hin & Hu). unfold findOneUsedBy.
  destruct (List.find _ l) as [found|] eqn:E; [eauto|].
  exfalso. pose proof (find_none _ _ E inv Hin) as Hnone. cbn beta in Hnone.
  apply in_map_iff in Hu as (u & Hu & Hin').
  assert (Ht : existsb (fun u0 => bool_decide (email u0 = normalizeEmail userEmail))
                       (usedBy inv) = true).
  { apply existsb_exists. exists u. split; [exact Hin'|]. now apply bool_decide_eq_true. }
  congruence.
Qed.

(** What [useInvite] returns once the format is valid and the lock is
    free: the verdict of the locked body. *)
Lemma useInvite_locked (w : World) (c : list ascii) (userEmail ip lockId : string) :
  isValidFormat alphabet salt (Js.toUpperCase c) = true ->
  redisFails w SET = false ->
  live (locks w) (Js.toUpperCase c) (now w) = None ->
  fst (useInvite alphabet salt w c userEmail ip lockId) =
  fst (redeemLocked
         (withLocks w (<[Js.toUpperCase c := (lockId, now w + 5000)]> (locks w)))
         (Js.toUpperCase c) userEmail ip).
Proof.
  intros Hv Hset Hfree. unfold useInvite. rewrite Hv, Hset, Hfree. cbn [negb].
  destruct (redeemLocked _ _ _ _). reflexivity.
Qed.

End Redemption.

(** C4. The rules are checked in the order uses, expiry, identity, and the
    first failing one is reported: for a valid code whose lock is free and
    whose record is loaded (from the cache, else from the active documents),
    a record at its maximum fails with [MaxUsesReached] whatever its expiry
    and the identity; below the maximum, an expired record fails with
    [Expired] whatever the identity; and only below the maximum and not
    expired does an identity that already appears in some record's
    redemption list fail with [IdentityAlreadyRedeemed].  The identity is
    the address as the schema stores it, lower-cased and trimmed. *)
Theorem rule_order (alphabet salt : list ascii) (w : World) (c : list ascii)
        (userEmail ip lockId : string) (invite : Cached) :
  isValidFormat alphabet salt (Js.toUpperCase c) = true ->
  redisFails w SET = false ->
  live (locks w) (Js.toUpperCase c) (now w) = None ->
  loadInvite w (Js.toUpperCase c) = Some invite ->
  let r := fst (useInvite alphabet salt w c userEmail ip lockId) in
  (c_currentUses invite >= c_maxUses invite -> r = Err MaxUsesReached) /\
  (c_currentUses invite < c_maxUses invite -> now w > c_expiresAt invite ->
   r = Err Expired) /\
  (c_currentUses invite < c_maxUses invite -> now w <= c_expiresAt invite ->
   (exists inv, In inv (invites w) /\
                In (normalizeEmail userEmail) (map email (usedBy inv))) ->
   r = Err IdentityAlreadyRedeemed).
Proof.
  intros Hv Hset Hfree Hload r. subst r.
  rewrite (useInvite_locked alphabet salt w c userEmail ip lockId Hv Hset Hfree).
  unfold redeemLocked.
  change (loadInvite (withLocks w _) (Js.toUpperCase c))
    with (loadInvite w (Js.toUpperCase c)).
  rewrite Hload. cbn [invites now withLocks].
  repeat split.
  - intros Huses.
    destruct (Z.geb_spec (c_currentUses invite) (c_maxUses invite)); [reflexivity | lia].
  - intros Huses Hexp.
    destruct (Z.geb_spec (c_currentUses invite) (c_maxUses invite)); [lia|].
    destruct (Z.gtb_spec (now w) (c_expiresAt invite)); [reflexivity | lia].
  - intros Huses Hexp Hused.
    destruct (Z.geb_spec (c_currentUses invite) (c_maxUses invite)); [lia|].
    destruct (Z.gtb_spec (now w) (c_expiresAt invite)); [lia|].
    destruct (findOneUsedBy_Some (invites w) userEmail Hused) as [inv ->].
    reflexivity.
Qed.

Lemma rule_order_witness :
  fst (redeem worldUsedAndExpired (Js.str "kkk5-kkkk") "user@test.com" "uuid-1")
    = Err MaxUsesReached.
Proof.
  apply (rule_order testAlphabet testSalt worldUsedAndExpired (Js.str "kkk5-kkkk")
           "user@test.com" "127.0.0.1" "uuid-1" (cachedRecord 1 1 1600000000000));
    try reflexivity.
  vm_compute. discriminate.
Defined.




(** ** The single-use scenario *)

(** After a redemption has used up a code, its cache entry is gone and its
    document is inactive; the next attempt then finds nothing to load. *)
Lemma redeem_used_up_NotFound (alphabet salt : list ascii) (w : World) (c : list ascii)
      (userEmail ip lockId : string) :
  isValidFormat alphabet salt (Js.toUpperCase c) = true ->
  redisFails w SET = false ->
  live (locks w) (Js.toUpperCase c) (now w) = None ->
  live (cache w) (Js.toUpperCase c) (now w) = None ->
  (forall inv, In inv (invites w) -> code inv = Js.toUpperCase c -> isActive inv = false) ->
  fst (useInvite alphabet salt w c userEmail ip lockId) = Err NotFound.
Proof.
  intros Hv Hset Hfree Hmiss Hinactive.
  rewrite (useInvite_locked alphabet salt w c userEmail ip lockId Hv Hset Hfree).
  unfold redeemLocked, loadInvite, getFromCache.
  cbn [invites now withLocks cache redisFails].
  rewrite Hmiss.
  assert (Hnone : findOneActive (invites w) (Js.toUpperCase c) = None).
  { unfold findOneActive.
    destruct (List.find _ (invites w)) as [inv|] eqn:E; [|reflexivity].
    apply find_some in E as [Hin Hp].
    apply andb_prop in Hp as [Hc Ha]. apply bool_decide_eq_true in Hc.
    rewrite (Hinactive inv Hin Hc) in Ha. discriminate. }
  destruct (redisFails w GET); rewrite Hnone; reflexivity.
Qed.

(** C1, on the code.  The scenario of the test 'should reject max used
    invite': an invite issued with [maxUses = 1] is redeemed once
    ([currentUses = 1], inactive); the second redemption, by another
    identity, fails with [NotFound] ('Invalid invite code'), not with
    [MaxUsesReached]: the lookup that follows the cache miss is restricted to
    active documents. *)
Theorem second_redemption_reports_NotFound :
  let r1 := issue world0 "admin@test.com" 1 30 in
  let c := Js.str "KKK5-KKKK" in
  let r2 := redeem (snd r1) c "user@test.com" "uuid-1" in
  let r3 := redeem (snd r2) c "other@test.com" "uuid-2" in
  (exists inv, fst r1 = Ok inv /\ code inv = c /\ maxUses inv = 1) /\
  (exists used, fst r2 = Ok (Some used) /\ currentUses used = 1 /\ isActive used = false) /\
  fst r3 = Err NotFound /\
  fst r3 <> Err MaxUsesReached.
Proof.
  vm_compute. split; [|split; [|split]].
  - eexists. split; [reflexivity|]. split; reflexivity.
  - eexists. split; [reflexivity|]. split; reflexivity.
  - reflexivity.
  - discriminate.
Qed.

(** ** Issuing: the bounded search for a free code *)

Section Issue.

Variable alphabet : list ascii.
Variable salt : list ascii.

Lemma generate_nonempty (bytes : nat -> byte) : generate alphabet salt bytes <> [].
Proof.
  unfold generate. intros E.
  apply app_eq_nil in E as [_ E]. discriminate E.
Qed.

(** The probe [Invite.findOne({ code })] finds a document exactly when the
    code is the code of a stored record. *)
Lemma findOneByCode_In (l : list Invite) (c : list ascii) :
  findOneByCode l c <> None <-> In c (map code l).
Proof.
  unfold findOneByCode. split.
  - destruct (List.find _ l) as [d|] eqn:E; [intros _|congruence].
    apply find_some in E as [Hin Hc]. apply bool_decide_eq_true in Hc.
    rewrite <- Hc. now apply in_map.
  - intros Hin E. apply in_map_iff in Hin as (d & Hc & Hin).
    pose proof (find_none _ _ E d Hin) as Hd. cbn beta in Hd.
    now rewrite bool_decide_eq_true_2 in Hd.
Qed.

(** The loop stops at the first free candidate, or after [remaining]
    colliding ones; it touches nothing but the random source. *)
Lemma uniqueCodeLoop_spec (remaining attempts : nat) (c : option (list ascii)) (w : World) :
  let '(c', attempts', w') := uniqueCodeLoop alphabet salt remaining attempts c w in
  w' = withDrawn w (drawn w') /\
  ((exists k, (k < remaining)%nat /\
              (forall j, (j < k)%nat -> collides alphabet salt w j) /\
              ~ collides alphabet salt w k /\
              c' = Some (candidate alphabet salt w k) /\
              attempts' = (attempts + k)%nat /\
              drawn w' = (drawn w + k + 1)%nat) \/
   ((forall j, (j < remaining)%nat -> collides alphabet salt w j) /\
    attempts' = (attempts + remaining)%nat /\
    drawn w' = (drawn w + remaining)%nat)).
Proof.
  revert attempts c w. induction remaining as [|n IH]; intros attempts c w.
  - cbn. split; [now destruct w|]. right. repeat split; [intros j Hj; lia | lia | lia].
  - cbn [uniqueCodeLoop generateCode].
    change (invites (withDrawn w (S (drawn w)))) with (invites w).
    destruct (findOneByCode (invites w) (generate alphabet salt (randomBytes w (drawn w))))
      as [hit|] eqn:E.
    + specialize (IH (S attempts)
                     (Some (generate alphabet salt (randomBytes w (drawn w))))
                     (withDrawn w (S (drawn w)))).
      destruct (uniqueCodeLoop alphabet salt n _ _ _) as [[c' attempts'] w'].
      destruct IH as [Hw IH]. split; [rewrite Hw; reflexivity|].
      assert (Hshift : forall j, candidate alphabet salt (withDrawn w (S (drawn w))) j = candidate alphabet salt w (S j)).
      { intros j. unfold candidate. cbn [randomBytes drawn withDrawn].
        do 2 f_equal. lia. }
      assert (H0 : collides alphabet salt w 0).
      { apply findOneByCode_In. unfold candidate. rewrite Nat.add_0_r, E. discriminate. }
      destruct IH as [(k & Hk & Hbefore & Hfree & Hc & Ha & Hd)|(Hall & Ha & Hd)].
      * left. exists (S k). cbn [drawn withDrawn] in Hd.
        repeat split; try lia.
        -- intros [|j] Hj; [exact H0|].
           specialize (Hbefore j ltac:(lia)). unfold collides in *.
           cbn [invites withDrawn] in Hbefore. now rewrite <- Hshift.
        -- unfold collides in *. cbn [invites withDrawn] in Hfree.
           now rewrite <- Hshift.
        -- now rewrite <- Hshift.
      * right. cbn [drawn withDrawn] in Hd. repeat split; try lia.
        intros [|j] Hj; [exact H0|].
        specialize (Hall j ltac:(lia)). unfold collides in *.
        cbn [invites withDrawn] in Hall. now rewrite <- Hshift.
    + split; [reflexivity|]. left. exists 0%nat.
      cbn [drawn withDrawn]. repeat split; try lia.
      * intros Hc. apply findOneByCode_In in Hc. unfold candidate in Hc.
        rewrite Nat.add_0_r, E in Hc. now apply Hc.
      * unfold candidate. now rewrite Nat.add_0_r.
Qed.

End Issue.

(** What the schema accepts, on the fields of the document. *)
Lemma schemaValid_iff (inv : Invite) :
  code inv <> [] ->
  schemaValid inv = true <->
  referrerEmail inv <> EmptyString /\ 1 <= maxUses inv /\
  Js.validTime (expiresAt inv) = true.
Proof.
  intros Hc. unfold schemaValid.
  rewrite (bool_decide_eq_false_2 (code inv = [])) by exact Hc. cbn [negb andb].
  rewrite !andb_true_iff, negb_true_iff, bool_decide_eq_false, Z.leb_le. tauto.
Qed.

(** C8, as stated, fails: a call can end in neither of the two ways.  In
    the fresh world the first candidate is free, yet [createInvite] with
    [maxUses = 0] persists nothing, and the failure is the schema's, not
    [CodeSpaceExhausted]. *)
Lemma issue_dichotomy_counterexample :
  ~ (forall (w : World) (referrer : string) (maxU days : Z),
        let r := issue w referrer maxU days in
        (exists k inv, ~ collides testAlphabet testSalt w k /\
                       invites (snd r) = invites w ++ [inv] /\
                       code inv = candidate testAlphabet testSalt w k) \/
        (fst r = Err CodeSpaceExhausted /\ invites (snd r) = invites w)).
Proof.
  intros H. specialize (H world0 "admin@test.com"%string 0 30).
  destruct H as [(k & inv & _ & Hins & _)|[Hr _]].
  - vm_compute in Hins. discriminate Hins.
  - vm_compute in Hr. discriminate Hr.
Qed.

(** C8, amended.  [createInvite] searches for a free code in a loop
    bounded by a counter: every call draws at most 10 codes.  If each of the
    10 candidates is the code of a stored record, the call fails with
    [CodeSpaceExhausted] and the collection is unchanged.  Otherwise the call
    draws exactly the candidates up to the first one that is not the code of
    a stored record, and builds the document with that code, the referrer
    (an ASCII string) lower-cased and trimmed, the given [maxUses], no uses,
    active, expiring [expiresInDays] days from now.  If the referrer is not
    blank, [maxUses >= 1] and the expiry is a valid date, exactly this
    document is appended to the collection, and the call returns it unless
    the cache write is rejected; if not, the call fails with the schema's
    error and the collection is unchanged. *)
Theorem createInvite_bounded (alphabet salt : list ascii) (w : World)
        (referrer : string) (maxU expiresInDays : Z) :
  isAsciiString referrer = true ->
  let r := createInvite alphabet salt w referrer maxU expiresInDays in
  (drawn (snd r) <= drawn w + 10)%nat /\
  (((forall j, (j < 10)%nat -> collides alphabet salt w j) /\
    drawn (snd r) = (drawn w + 10)%nat /\
    fst r = Err CodeSpaceExhausted /\
    invites (snd r) = invites w) \/
   (exists k, (k < 10)%nat /\
      (forall j, (j < k)%nat -> collides alphabet salt w j) /\
      ~ collides alphabet salt w k /\
      drawn (snd r) = (drawn w + k + 1)%nat /\
      let doc := {| _id := nextId w; code := candidate alphabet salt w k;
                    maxUses := maxU; currentUses := 0;
                    referrerEmail := normalizeEmail referrer; usedBy := [];
                    isActive := true;
                    expiresAt := now w + expiresInDays * 24 * 60 * 60 * 1000 |} in
      ((normalizeEmail referrer <> EmptyString /\ 1 <= maxU /\
        Js.validTime (expiresAt doc) = true) /\
       invites (snd r) = invites w ++ [doc] /\
       fst r = if redisFails w SETEX then Err (RedisFailure SETEX) else Ok doc) \/
      (~ (normalizeEmail referrer <> EmptyString /\ 1 <= maxU /\
          Js.validTime (expiresAt doc) = true) /\
       invites (snd r) = invites w /\
       fst r = Err ValidationFailed))).
Proof.
  intros _ r. subst r. unfold createInvite.
  pose proof (uniqueCodeLoop_spec alphabet salt maxAttempts 0 None w) as Hloop.
  destruct (uniqueCodeLoop alphabet salt maxAttempts 0 None w) as [[c attempts] w'].
  destruct Hloop as [Hw Hloop]. unfold maxAttempts in *.
  destruct Hloop as [(k & Hk & Hbefore & Hfree & Hc & Ha & Hd)|(Hall & Ha & Hd)].
  - destruct (Nat.eqb_spec attempts 10) as [E|_]; [lia|].
    subst c.
    assert (Hinv : invites w' = invites w) by (rewrite Hw; reflexivity).
    assert (Hid : nextId w' = nextId w) by (rewrite Hw; reflexivity).
    assert (Hnow : now w' = now w) by (rewrite Hw; reflexivity).
    assert (Hred : redisFails w' = redisFails w) by (rewrite Hw; reflexivity).
    rewrite Hid, Hnow.
    set (doc := {| _id := nextId w; code := candidate alphabet salt w k; maxUses := maxU;
                   currentUses := 0; referrerEmail := normalizeEmail referrer;
                   usedBy := []; isActive := true;
                   expiresAt := now w + expiresInDays * 24 * 60 * 60 * 1000 |}).
    pose proof (schemaValid_iff doc (generate_nonempty alphabet salt _)) as Hschema.
    cbn [referrerEmail maxUses] in Hschema.
    destruct (schemaValid doc) eqn:Ev; cbn [negb].
    + cbn [redisFails withInvites withNextId]. rewrite Hred.
      destruct (redisFails w SETEX);
        cbn [fst snd drawn invites withInvites withNextId withCache];
        (split; [lia|]); right; exists k;
        (repeat split; try assumption); left;
        (split; [now apply Hschema|]); rewrite Hinv; split; reflexivity.
    + cbn [fst snd drawn invites withInvites withNextId withCache].
      split; [lia|]. right. exists k. repeat split; try assumption.
      right. split; [|split; [exact Hinv|reflexivity]].
      intros Hacc. apply Hschema in Hacc. discriminate Hacc.
  - destruct (Nat.eqb_spec attempts 10) as [_|E]; [|lia].
    cbn [fst snd]. split; [lia|]. left. repeat split; try assumption.
    rewrite Hw. reflexivity.
Qed.

(** With one collision: the first candidate is the code already issued,
    the second is free; two codes are drawn and one record is added, under
    the second candidate, for the referrer in lower case and trimmed. *)
Lemma createInvite_bounded_witness :
  let r := createInvite testAlphabet testSalt worldOneCollision " Admin@Test.com " 3 7 in
  collides testAlphabet testSalt worldOneCollision 0 /\
  drawn (snd r) = (drawn worldOneCollision + 2)%nat /\
  exists doc, invites (snd r) = invites worldOneCollision ++ [doc] /\
              code doc = candidate testAlphabet testSalt worldOneCollision 1 /\
              referrerEmail doc = "admin@test.com"%string.
Proof.
  intros r.
  assert (H0 : collides testAlphabet testSalt worldOneCollision 0)
    by (vm_compute; left; reflexivity).
  assert (H1 : ~ collides testAlphabet testSalt worldOneCollision 1)
    by (vm_compute; intros [E|[]]; discriminate E).
  split; [exact H0|].
  destruct (createInvite_bounded testAlphabet testSalt worldOneCollision
              " Admin@Test.com " 3 7 eq_refl)
    as [_ [(Hall & _)|(k & Hk & Hbefore & Hfree & Hd & Hdoc)]].
  - exfalso. apply H1, Hall. lia.
  - assert (Ek : k = 1%nat).
    { destruct k as [|[|k]]; [contradiction|reflexivity|].
      exfalso. apply H1, Hbefore. lia. }
    subst k. split; [exact Hd|].
    destruct Hdoc as [(_ & Hins & _)|(Hrej & _)].
    + eexists. split; [exact Hins|]. split; reflexivity.
    + exfalso. apply Hrej. repeat split; [discriminate|lia].
Defined.

(** And with ten: in the scenario world every buffer gives the code that
    is already stored, so the call gives up after ten draws. *)
Example createInvite_exhausted :
  let r := issue worldTwoUses "other@test.com" 1 30 in
  fst r = Err CodeSpaceExhausted /\
  drawn (snd r) = (drawn worldTwoUses + 10)%nat /\
  invites (snd r) = invites worldTwoUses.
Proof. vm_compute. repeat split. Qed.

(** ** Faults of the cache *)

Section CacheFaults.

Variable alphabet : list ascii.
Variable salt : list ascii.

(** While the cache write is rejected, [createInvite] cannot succeed. *)
Lemma createInvite_setex_fault (w : World) (referrer : string) (maxU days : Z) :
  redisFails w SETEX = true ->
  isOk (fst (createInvite alphabet salt w referrer maxU days)) = false.
Proof.
  intros Hf. unfold createInvite.
  pose proof (uniqueCodeLoop_spec alphabet salt maxAttempts 0 None w) as Hloop.
  destruct (uniqueCodeLoop alphabet salt maxAttempts 0 None w) as [[c attempts] w'].
  destruct Hloop as [Hw _].
  destruct (attempts =? maxAttempts)%nat; [reflexivity|].
  destruct (negb (schemaValid _)); [reflexivity|].
  cbn [redisFails withInvites withNextId].
  rewrite Hw. cbn [redisFails withDrawn]. rewrite Hf. reflexivity.
Qed.

(** While the cache invalidation is rejected, [useInvite] cannot succeed. *)
Lemma useInvite_del_fault (w : World) (c : list ascii) (userEmail ip lockId : string) :
  redisFails w DEL = true ->
  isOk (fst (useInvite alphabet salt w c userEmail ip lockId)) = false.
Proof.
  intros Hf. unfold useInvite.
  destruct (negb (isValidFormat alphabet salt (Js.toUpperCase c))); [reflexivity|].
  destruct (redisFails w SET); [reflexivity|].
  destruct (live (locks w) (Js.toUpperCase c) (now w)); [reflexivity|].
  unfold redeemLocked.
  destruct (loadInvite _ _) as [invite|]; [|reflexivity].
  destruct (c_currentUses invite >=? c_maxUses invite); [reflexivity|].
  destruct (now _ >? c_expiresAt invite); [reflexivity|].
  destruct (findOneUsedBy _ _); [reflexivity|].
  destruct (findByIdAndUpdate _ _ _ _) as [l updated].
  cbn [redisFails withInvites withLocks]. rewrite Hf. reflexivity.
Qed.

End CacheFaults.

(** C5, on the code.  With the cache write rejected, [createInvite] inserts
    the record and then fails; with the cache invalidation rejected,
    [useInvite] commits the redemption ([currentUses = 1]) and then fails.
    Neither error is swallowed. *)
Theorem cache_fault_fails_the_operation :
  let c := Js.str "KKK5-KKKK" in
  let r1 := issue (withRedisFails world0 (rejects SETEX)) "admin@test.com" 1 30 in
  let w1 := snd (issue world0 "admin@test.com" 1 30) in
  let r2 := redeem (withRedisFails w1 (rejects DEL)) c "user@test.com" "uuid-1" in
  (isOk (fst r1) = false /\ map code (invites (snd r1)) = [c]) /\
  (isOk (fst r2) = false /\ map currentUses (invites (snd r2)) = [1]).
Proof.
  vm_compute. repeat split.
Qed.

(** ** Statistics *)

Section StatsFacts.


Lemma fold_ratio (l : list Invite) (acc : Q) :
  (fold_left (fun sum inv => sum + inject_Z (currentUses inv) / inject_Z (maxUses inv)) l acc
   == acc + ratioSum l)%Q.
Proof.
  revert acc. induction l as [|inv r IH]; intros acc; cbn [fold_left ratioSum].
  - ring.
  - rewrite IH. ring.
Qed.


End StatsFacts.




(** ** Requests served alone *)

Section ServedAlone.

Variable alphabet : list ascii.
Variable salt : list ascii.

Lemma iter_serve_finished (n : nat) (w : World) (rq : Request) (r : Result (option Invite)) :
  rq_pc rq = Finished r -> Nat.iter n serve (w, rq) = (w, rq).
Proof.
  intros H. induction n as [|n IH]; [reflexivity|].
  rewrite Nat.iter_succ, IH. unfold serve, step. cbn [fst snd]. now rewrite H.
Qed.

Lemma iter_serve_release (n : nat) (w : World) (c : list ascii) (e i l : string)
      (r : Result (option Invite)) :
  Nat.iter (S n) serve
    (w, {| rq_code := c; rq_email := e; rq_ip := i; rq_lockId := l;
           rq_pc := AtRelease r |}) =
  (releaseLock w c l,
   {| rq_code := c; rq_email := e; rq_ip := i; rq_lockId := l; rq_pc := Finished r |}).
Proof.
  rewrite Nat.iter_succ_r. unfold serve at 2. cbn [fst snd]. unfold step, at_.
  cbn [rq_pc rq_code rq_lockId rq_email rq_ip].
  now rewrite (iter_serve_finished n _ _ r).
Qed.

Ltac serve_one :=
  unfold at_; cbn [rq_pc rq_code rq_lockId rq_email rq_ip];
  rewrite Nat.iter_succ_r; unfold serve at 2; cbn [fst snd]; unfold step;
  cbn [rq_pc rq_code rq_lockId rq_email rq_ip].

Ltac released :=
  unfold at_; cbn [rq_pc rq_code rq_lockId rq_email rq_ip];
  rewrite iter_serve_release; reflexivity.

(** Served without interleaving, a request is a call of [useInvite]. *)
Lemma runAlone_useInvite (w : World) (c : list ascii) (userEmail ip lockId : string) :
  let r := useInvite alphabet salt w c userEmail ip lockId in
  runAlone w (start alphabet salt c userEmail ip lockId) =
  (snd r, at_ (start alphabet salt c userEmail ip lockId) (Finished (fst r))).
Proof.
  unfold runAlone, useInvite, start, redeemLocked, loadInvite.
  destruct (negb (isValidFormat alphabet salt (Js.toUpperCase c))).
  { rewrite (iter_serve_finished 7 _ _ (Err InvalidFormat)) by reflexivity.
    reflexivity. }
  serve_one.
  destruct (redisFails w SET) eqn:Eset; [released|].
  destruct (live (locks w) (Js.toUpperCase c) (now w)) eqn:Elock; [released|].
  set (w1 := withLocks w _).
  serve_one.
  destruct (getFromCache w1 (Js.toUpperCase c)) as [invite|] eqn:Ecache.
  - unfold checkLoaded.
    destruct (c_currentUses invite >=? c_maxUses invite); [released|].
    destruct (now w1 >? c_expiresAt invite); [released|].
    serve_one.
    destruct (findOneUsedBy (invites w1) userEmail); [released|].
    serve_one.
    destruct (findByIdAndUpdate _ _ _ _) as [l updated].
    serve_one. cbn [redisFails withInvites].
    destruct (redisFails w1 DEL); released.
  - serve_one.
    destruct (findOneActive (invites w1) (Js.toUpperCase c)) as [doc|];
      cbn [option_map]; [|released].
    unfold checkLoaded.
    destruct (c_currentUses (toCached doc) >=? c_maxUses (toCached doc)); [released|].
    destruct (now w1 >? c_expiresAt (toCached doc)); [released|].
    serve_one.
    destruct (findOneUsedBy (invites w1) userEmail); [released|].
    serve_one.
    destruct (findByIdAndUpdate _ _ _ _) as [l updated].
    serve_one. cbn [redisFails withInvites].
    destruct (redisFails w1 DEL); released.
Qed.

End ServedAlone.

(** ** Contention

    Why concurrent requests fail: a request whose [SET ... NX] is served
    while another request holds the lock of the same code does not wait; it
    goes to its [finally] block with [Contended], whatever the state of the
    record. *)

Lemma acquire_while_held (w : World) (rq1 rq2 : Request) :
  rq_pc rq1 = AtAcquire -> rq_pc rq2 = AtAcquire ->
  rq_code rq1 = rq_code rq2 ->
  redisFails w SET = false ->
  live (locks w) (rq_code rq1) (now w) = None ->
  let '(w1, rq1') := step w rq1 in
  let '(w2, rq2') := step w1 rq2 in
  rq_pc rq1' = AtCacheGet /\ rq_pc rq2' = AtRelease (Err Contended) /\
  invites w2 = invites w.
Proof.
  intros H1 H2 Hc Hset Hfree. unfold step at 1. rewrite H1, Hset, Hfree.
  unfold step. rewrite H2. cbn [redisFails withLocks locks now]. rewrite Hset.
  unfold live. rewrite <- Hc, lookup_insert_eq.
  destruct (Z.ltb_spec (now w) (now w + 5000)) as [_|?]; [|lia].
  repeat split.
Qed.

(** C2, on the code.  A code with [maxUses = 2] and five concurrent
    redemptions with pairwise distinct identities, served in the order in
    which one event-loop turn issues them: the first request takes the lock,
    the other four find it held and fail with [Contended]; one redemption
    succeeds, four fail, and the record ends with [currentUses = 1], not 2
    successes, 3 failures and [currentUses = 2]. *)
Theorem concurrent_redemptions_contend :
  let st := run allAcquireFirst (worldTwoUses, fiveRequests) in
  map maxUses (invites worldTwoUses) = [2] /\
  map outcome (snd st) = [Some true; Some false; Some false; Some false; Some false] /\
  map failure (snd st) = [None; Some Contended; Some Contended; Some Contended; Some Contended] /\
  map currentUses (invites (fst st)) = [1] /\
  length (List.filter (fun rq => bool_decide (outcome rq = Some true)) (snd st)) <> 2%nat.
Proof.
  vm_compute. repeat split. discriminate.
Qed.

(** Served one after the other, the same five requests do use the code up:
    two succeed and three fail. *)
Example sequential_redemptions :
  let st := run (repeat 0%nat 7 ++ repeat 1%nat 7 ++ repeat 2%nat 7 ++
                 repeat 3%nat 7 ++ repeat 4%nat 7) (worldTwoUses, fiveRequests) in
  map outcome (snd st) = [Some true; Some true; Some false; Some false; Some false] /\
  map currentUses (invites (fst st)) = [2].
Proof.
  vm_compute. split; reflexivity.
Qed.

(** * Part IV: further properties of the code *)

(** ** The shape of generated codes *)

Section GeneratedShape.

Variable alphabet : list ascii.
Variable salt : list ascii.

(** The [j]-th character drawn is the alphabet symbol at index
    [bytes[j] % base]. *)
Lemma randomCharsLoop_nth (bytes : nat -> byte) (n i : nat) (result : list ascii) :
  alphabet <> [] ->
  exists l, randomCharsLoop alphabet bytes n i result = result ++ l /\
            length l = n /\
            forall j, (j < n)%nat ->
              nth_error l j =
              nth_error alphabet
                (Z.to_nat (Z.of_N (Byte.to_N (bytes (i + j)%nat)) mod base alphabet)).
Proof.
  intros Hne. revert i result. induction n as [|n IH]; intros i result.
  - exists []. cbn. rewrite app_nil_r. repeat split. intros j Hj. lia.
  - cbn [randomCharsLoop]. unfold base.
    destruct (at_rem_Some alphabet (Z.of_N (Byte.to_N (bytes i)))) as (c & Hc & _ & Hn);
      [lia | exact Hne |].
    rewrite Hc. cbn [Js.show].
    destruct (IH (S i) (result ++ [c])) as (l & Hl & Hlen & Hnth).
    exists (c :: l). rewrite Hl, <- app_assoc. cbn [app length]. repeat split.
    + now rewrite Hlen.
    + intros [|j] Hj.
      * cbn [nth_error]. rewrite Nat.add_0_r. now rewrite Hn.
      * cbn [nth_error]. rewrite (Hnth j) by lia.
        replace (S i + j)%nat with (i + S j)%nat by lia. reflexivity.
Qed.

(** Over the alphabet, a valid eight-symbol string is accepted. *)
Lemma validate_clean_intro (a b c k d e f g : ascii) :
  alphabetOk alphabet = true ->
  Forall (fun x => In x alphabet) [a; b; c; k; d; e; f; g] ->
  calculateChecksum alphabet salt [a; b; c; d; e; f; g] = Some k ->
  validate alphabet salt [a; b; c; k; d; e; f; g] = true.
Proof.
  intros Hok Hall Hk.
  rewrite (validate_over alphabet salt Hok _ Hall).
  cbn [length Nat.eqb andb nth_error firstn skipn app]. rewrite Hk.
  cbn [Js.strictEq]. apply Ascii.eqb_refl.
Qed.

End GeneratedShape.

(** What [generate] builds from the random buffer. *)
Lemma generate_spec (alphabet salt : list ascii) (bytes : nat -> byte) :
  alphabet <> [] ->
  exists a b c k d e f g,
    generate alphabet salt bytes = [a; b; c; k; "-"%char; d; e; f; g] /\
    Forall (fun x => In x alphabet) [a; b; c; k; d; e; f; g] /\
    calculateChecksum alphabet salt [a; b; c; d; e; f; g] = Some k /\
    forall j, (j < 7)%nat ->
      nth_error [a; b; c; d; e; f; g] j =
      nth_error alphabet (Z.to_nat (Z.of_N (Byte.to_N (bytes j)) mod base alphabet)).
Proof.
  intros Hne. unfold generate, generateRandomChars.
  destruct (randomCharsLoop_nth alphabet bytes 7 0 [] Hne) as (l & -> & Hlen & Hnth).
  cbn [app].
  assert (Hall : Forall (fun x => In x alphabet) l).
  { apply List.Forall_forall. intros x Hx.
    apply In_nth_error in Hx as [j Hj].
    assert (Hlt : (j < 7)%nat).
    { rewrite <- Hlen. apply nth_error_Some. congruence. }
    rewrite (Hnth j Hlt) in Hj. cbn [Nat.add] in Hj.
    eapply nth_error_In; eauto. }
  destruct (calculateChecksum_Some alphabet salt l Hne Hall) as (k & Hk & Hkin).
  rewrite Hk.
  do 8 (destruct l as [|? l]; try discriminate Hlen). clear Hlen.
  exists a, a0, a1, k, a2, a3, a4, a5.
  cbn [firstn skipn app Js.show Js.str list_ascii_of_string].
  split; [reflexivity|]. split.
  - repeat match goal with
           | H : Forall _ (_ :: _) |- _ => inversion H; subst; clear H
           end.
    repeat constructor; assumption.
  - split; [exact Hk|]. intros j Hj. exact (Hnth j Hj).
Qed.

(** X1. With a non-empty alphabet, [generate] returns nine characters: four
    alphabet symbols, the separator, four alphabet symbols; the symbol at
    index 3 is the checksum of the other seven, which are the seven random
    characters in their order, the [j]-th being the alphabet symbol at index
    [bytes[j] % base]. *)
Theorem generate_shape (alphabet salt : list ascii) (bytes : nat -> byte) :
  alphabet <> [] ->
  exists a b c k d e f g,
    generate alphabet salt bytes = [a; b; c; k; "-"%char; d; e; f; g] /\
    Forall (fun x => In x alphabet) [a; b; c; k; d; e; f; g] /\
    calculateChecksum alphabet salt [a; b; c; d; e; f; g] = Some k /\
    forall j, (j < 7)%nat ->
      nth_error [a; b; c; d; e; f; g] j =
      nth_error alphabet (Z.to_nat (Z.of_N (Byte.to_N (bytes j)) mod base alphabet)).
Proof.
  intros Hne. exact (generate_spec alphabet salt bytes Hne).
Qed.

Lemma generate_shape_witness :
  exists a b c k d e f g,
    generate testAlphabet testSalt (constBytes x00) = [a; b; c; k; "-"%char; d; e; f; g] /\
    Forall (fun x => In x testAlphabet) [a; b; c; k; d; e; f; g] /\
    calculateChecksum testAlphabet testSalt [a; b; c; d; e; f; g] = Some k /\
    forall j, (j < 7)%nat ->
      nth_error [a; b; c; d; e; f; g] j =
      nth_error testAlphabet
        (Z.to_nat (Z.of_N (Byte.to_N (constBytes x00 j)) mod base testAlphabet)).
Proof.
  apply (generate_shape testAlphabet testSalt (constBytes x00)). discriminate.
Defined.

(** ** Accepted codes *)

(** What [validate] has checked when it answers [true]. *)
Lemma validate_true_inv (alphabet salt code : list ascii) :
  validate alphabet salt code = true ->
  exists a b c k d e f g,
    cleanOf code = [a; b; c; k; d; e; f; g] /\
    Forall (fun x => In x alphabet) [a; b; c; k; d; e; f; g] /\
    calculateChecksum alphabet salt [a; b; c; d; e; f; g] = Some k.
Proof.
  unfold validate. fold (cleanOf code). intros Hval.
  destruct (length (cleanOf code) =? 8)%nat eqn:E8; [|discriminate Hval].
  destruct (forallb (Js.includes alphabet) (cleanOf code)) eqn:Eall; [|discriminate Hval].
  cbn [negb] in Hval. apply Nat.eqb_eq in E8.
  apply forallb_over in Eall.
  destruct (cleanOf code) as [|a [|b [|c [|k [|d [|e [|f [|g [|? ?]]]]]]]]];
    try discriminate E8.
  exists a, b, c, k, d, e, f, g. split; [reflexivity|]. split; [exact Eall|].
  cbn [nth_error firstn skipn app] in Hval.
  destruct (calculateChecksum alphabet salt [a; b; c; d; e; f; g]) as [k'|];
    [|discriminate Hval].
  cbn [Js.strictEq] in Hval. apply Ascii.eqb_eq in Hval. now subst.
Qed.

Lemma byteOf_value (z : Z) : 0 <= z <= 255 -> Z.of_N (Byte.to_N (byteOf z)) = z.
Proof.
  intros Hz. unfold byteOf.
  destruct (Byte.of_N (Z.to_N z)) as [b|] eqn:E.
  - apply Byte.to_of_N in E. rewrite E. lia.
  - apply Byte.of_N_None_iff in E. lia.
Qed.

Lemma format_clean (alphabet : list ascii) (a b c k d e f g : ascii) :
  alphabetOk alphabet = true ->
  Forall (fun x => In x alphabet) [a; b; c; k; d; e; f; g] ->
  format [a; b; c; k; d; e; f; g] = [a; b; c; k; "-"%char; d; e; f; g].
Proof.
  intros Hok Hall. unfold format.
  rewrite (removeFirst_over alphabet Hok _ Hall), (toUpperCase_over alphabet Hok _ Hall).
  reflexivity.
Qed.

(** X2. With a usable alphabet of at most 256 symbols, every ASCII string
    that [validate] accepts is, once normalised and rendered by [format], a
    code that [generate] produces for some content of the random buffer:
    together with the acceptance of generated codes, [validate] accepts,
    among the ASCII strings, exactly the codes [generate] can produce, up to
    case and separator. *)
Theorem accepted_is_generated (alphabet salt code : list ascii) :
  alphabetOk alphabet = true -> (length alphabet <= 256)%nat ->
  Js.isAscii code = true ->
  validate alphabet salt code = true ->
  exists bytes, generate alphabet salt bytes = format (cleanOf code).
Proof.
  intros Hok Hsize _ Hval.
  pose proof (alphabetOk_nonempty alphabet Hok) as Hne.
  destruct (validate_true_inv alphabet salt code Hval)
    as (a & b & c & k & d & e & f & g & Hclean & Hall & Hk).
  rewrite Hclean, (format_clean alphabet a b c k d e f g Hok Hall).
  set (orig := [a; b; c; d; e; f; g]).
  exists (fun j => byteOf (Js.indexOf alphabet (nth j orig "-"%char))).
  destruct (generate_spec alphabet salt
              (fun j => byteOf (Js.indexOf alphabet (nth j orig "-"%char))) Hne)
    as (a' & b' & c' & k' & d' & e' & f' & g' & Hgen & _ & Hk' & Hnth).
  assert (Hsym : forall j x, (j < 7)%nat -> nth_error orig j = Some x ->
                             nth_error [a'; b'; c'; d'; e'; f'; g'] j = Some x).
  { intros j x Hj Hx. rewrite (Hnth j Hj).
    assert (Hin : In x alphabet).
    { assert (Hin' : In x orig) by (eapply nth_error_In; eauto).
      rewrite List.Forall_forall in Hall. apply Hall.
      subst orig. cbn in Hin'. cbn. tauto. }
    replace (nth j orig "-"%char) with x
      by (symmetry; apply nth_error_nth; exact Hx).
    destruct (indexOf_In alphabet x Hin) as [Hb Hn].
    rewrite byteOf_value by lia.
    unfold base. rewrite Z.mod_small by lia. exact Hn. }
  assert (Ha : Some a' = Some a) by (apply (Hsym 0%nat a); [lia | reflexivity]).
  assert (Hb : Some b' = Some b) by (apply (Hsym 1%nat b); [lia | reflexivity]).
  assert (Hc : Some c' = Some c) by (apply (Hsym 2%nat c); [lia | reflexivity]).
  assert (Hd : Some d' = Some d) by (apply (Hsym 3%nat d); [lia | reflexivity]).
  assert (He : Some e' = Some e) by (apply (Hsym 4%nat e); [lia | reflexivity]).
  assert (Hf : Some f' = Some f) by (apply (Hsym 5%nat f); [lia | reflexivity]).
  assert (Hg : Some g' = Some g) by (apply (Hsym 6%nat g); [lia | reflexivity]).
  injection Ha as ->. injection Hb as ->. injection Hc as ->. injection Hd as ->.
  injection He as ->. injection Hf as ->. injection Hg as ->.
  fold orig in Hk'. fold orig in Hk. rewrite Hk in Hk'. injection Hk' as <-.
  exact Hgen.
Qed.

Lemma accepted_is_generated_witness :
  exists bytes, generate testAlphabet testSalt bytes = format (cleanOf (Js.str "kkk5kkkk")).
Proof.
  apply (accepted_is_generated testAlphabet testSalt (Js.str "kkk5kkkk"));
    [reflexivity | vm_compute; lia | reflexivity | reflexivity].
Defined.

(** X3. A wrong checksum symbol is always detected: for a usable alphabet
    of any size, replacing the checksum symbol (position 3) of an accepted
    code by any other alphabet symbol makes [validate] false. *)
Theorem checksum_symbol_mutation_rejected (alphabet salt code : list ascii) (x : ascii) :
  alphabetOk alphabet = true ->
  validate alphabet salt code = true ->
  Js.includes alphabet x = true ->
  nth_error (cleanOf code) 3 <> Some x ->
  validate alphabet salt (<[3%nat:=x]> (cleanOf code)) = false.
Proof.
  intros Hok Hval Hx Hne. apply includes_In in Hx.
  destruct (validate_true_inv alphabet salt code Hval)
    as (a & b & c & k & d & e & f & g & Hclean & Hall & Hk).
  rewrite Hclean in *. cbn [nth_error] in Hne.
  assert (Hm : Forall (fun y => In y alphabet) (<[3%nat:=x]> [a; b; c; k; d; e; f; g]))
    by (apply insert_over; assumption).
  rewrite (validate_over alphabet salt Hok _ Hm).
  cbn [list_insert insert length Nat.eqb andb nth_error firstn skipn app].
  rewrite Hk. cbn [Js.strictEq].
  destruct (Ascii.eqb_spec x k); [congruence | reflexivity].
Qed.

Lemma checksum_symbol_mutation_rejected_witness :
  validate testAlphabet testSalt (<[3%nat:="X"%char]> (cleanOf (Js.str "KKK5-KKKK"))) = false.
Proof.
  apply (checksum_symbol_mutation_rejected testAlphabet testSalt (Js.str "KKK5-KKKK") "X"%char);
    try reflexivity.
  vm_compute. congruence.
Defined.

(** ** What the checksum catches, and what it does not *)

(** A non-zero shift smaller than B moves a sum to another residue. *)
Lemma shifted_mod_ne1 (A d B : Z) :
  0 < B -> d <> 0 -> - B < d < B -> (A + d) mod B <> A mod B.
Proof.
  intros HB Hd0 Hdb E.
  rewrite (Z.mod_eq (A + d)), (Z.mod_eq A) in E by lia.
  set (q1 := (A + d) / B) in *. set (q2 := A / B) in *.
  assert (Hq : d = B * (q1 - q2)) by lia.
  assert (Hr : q1 - q2 = 0) by nia.
  rewrite Hr in Hq. lia.
Qed.

Section ChecksumCatches.

Variable alphabet : list ascii.
Variable salt : list ascii.
Hypothesis Hok : alphabetOk alphabet = true.
Hypothesis Hdistinct : distinct alphabet = true.

Abbreviation over := (Forall (fun c => In c alphabet)).

Lemma indexOf_apart (c x : ascii) :
  In c alphabet -> In x alphabet -> c <> x ->
  Js.indexOf alphabet c - Js.indexOf alphabet x <> 0 /\
  - base alphabet < Js.indexOf alphabet c - Js.indexOf alphabet x < base alphabet.
Proof.
  intros Hc Hx Hne.
  destruct (indexOf_In alphabet c Hc) as [Hcb Hcn].
  destruct (indexOf_In alphabet x Hx) as [Hxb Hxn].
  unfold base. split; [|lia].
  intros E. assert (E' : Js.indexOf alphabet c = Js.indexOf alphabet x) by lia.
  rewrite E' in Hcn. congruence.
Qed.

(** Two strings whose weighted sums differ by the distance of two different
    symbols have different checksums. *)
Lemma checksum_differs (s s' : list ascii) (c x : ascii) :
  over s -> over s' -> In c alphabet -> In x alphabet -> c <> x ->
  weightedLoop alphabet s' 0 0 - weightedLoop alphabet s 0 0 =
    Js.indexOf alphabet c - Js.indexOf alphabet x \/
  weightedLoop alphabet s' 0 0 - weightedLoop alphabet s 0 0 =
    - (Js.indexOf alphabet c - Js.indexOf alphabet x) ->
  calculateChecksum alphabet salt s' <> calculateChecksum alphabet salt s.
Proof.
  intros Hs Hs' Hc Hx Hne Hd E.
  pose proof (alphabetOk_nonempty alphabet Hok) as Hnil.
  apply (checksum_eq_iff alphabet salt salt s' s Hnil Hdistinct Hs' Hs) in E.
  destruct (indexOf_apart c x Hc Hx Hne) as [H0 Hb].
  replace (weightedLoop alphabet s' 0 0 + saltSum salt)
    with (weightedLoop alphabet s 0 0 + saltSum salt +
          (weightedLoop alphabet s' 0 0 - weightedLoop alphabet s 0 0)) in E by lia.
  revert E. apply shifted_mod_ne1; [apply base_pos; exact Hnil | lia | lia].
Qed.

(** With the checksum symbol in place, a different checksum of the other
    seven means rejection. *)
Lemma rejected_by_checksum (a b c k d e f g : ascii) (orig : list ascii) :
  over [a; b; c; k; d; e; f; g] ->
  calculateChecksum alphabet salt orig = Some k ->
  calculateChecksum alphabet salt [a; b; c; d; e; f; g] <>
    calculateChecksum alphabet salt orig ->
  validate alphabet salt [a; b; c; k; d; e; f; g] = false.
Proof.
  intros Hall Hk Hne.
  rewrite (validate_over alphabet salt Hok _ Hall).
  cbn [length Nat.eqb andb nth_error firstn skipn app].
  rewrite Hk in Hne.
  destruct (calculateChecksum alphabet salt [a; b; c; d; e; f; g]) as [k'|]; [|reflexivity].
  cbn [Js.strictEq]. destruct (Ascii.eqb_spec k k'); [congruence | reflexivity].
Qed.

Lemma transposition_rejected_clean (a b c k d e f g : ascii) (i j : nat) :
  over [a; b; c; k; d; e; f; g] ->
  calculateChecksum alphabet salt [a; b; c; d; e; f; g] = Some k ->
  In (i, j) adjacentPairs ->
  nth_error [a; b; c; k; d; e; f; g] i <> nth_error [a; b; c; k; d; e; f; g] j ->
  validate alphabet salt (swapAt [a; b; c; k; d; e; f; g] i j) = false.
Proof.
  intros Hall Hk Hin Hne.
  repeat match goal with
         | H : Forall _ (_ :: _) |- _ => inversion H; subst; clear H
         end.
  assert (Horig : over [a; b; c; d; e; f; g]) by (repeat constructor; assumption).
  unfold adjacentPairs in Hin. cbn [In] in Hin.
  repeat (destruct Hin as [Hin|Hin]; [injection Hin as <- <-|]); [..|destruct Hin];
    cbn [swapAt nth_error list_insert insert] in *;
    (eapply rejected_by_checksum;
     [ repeat constructor; assumption | exact Hk | ]);
    match goal with
    | Hd : Some ?x <> Some ?y |- _ =>
        apply (checksum_differs _ _ x y);
        [ exact Horig | repeat constructor; assumption | assumption | assumption
        | congruence | cbn; lia ]
    end.
Qed.

Lemma weight_one_rejected_clean (a b c k d e f g : ascii) (i : nat) (x : ascii) :
  over [a; b; c; k; d; e; f; g] ->
  calculateChecksum alphabet salt [a; b; c; d; e; f; g] = Some k ->
  In i weightOnePositions -> In x alphabet ->
  nth_error [a; b; c; k; d; e; f; g] i <> Some x ->
  validate alphabet salt (<[i:=x]> [a; b; c; k; d; e; f; g]) = false.
Proof.
  intros Hall Hk Hin Hx Hne.
  repeat match goal with
         | H : Forall _ (_ :: _) |- _ => inversion H; subst; clear H
         end.
  assert (Horig : over [a; b; c; d; e; f; g]) by (repeat constructor; assumption).
  unfold weightOnePositions in Hin. cbn [In] in Hin.
  repeat (destruct Hin as [Hin|Hin]; [subst i|]); [..|destruct Hin];
    cbn [nth_error list_insert insert] in *;
    (eapply rejected_by_checksum;
     [ repeat constructor; assumption | exact Hk | ]);
    match goal with
    | Hd : Some ?y <> Some x |- _ =>
        apply (checksum_differs _ _ x y);
        [ exact Horig | repeat constructor; assumption | assumption | assumption
        | congruence | cbn; lia ]
    end.
Qed.

End ChecksumCatches.

(** X4. The exchange of two neighbouring random characters is always
    detected: for a usable alphabet of distinct symbols, of any size, and an
    accepted code, exchanging two different symbols at neighbouring positions
    of the seven random characters (positions 0-1, 1-2, 2-4, 4-5, 5-6, 6-7 of
    the eight symbols) makes [validate] false. *)
Theorem transposition_rejected (alphabet salt code : list ascii) (i j : nat) :
  alphabetOk alphabet = true -> distinct alphabet = true ->
  validate alphabet salt code = true ->
  In (i, j) adjacentPairs ->
  nth_error (cleanOf code) i <> nth_error (cleanOf code) j ->
  validate alphabet salt (swapAt (cleanOf code) i j) = false.
Proof.
  intros Hok Hd Hval Hin Hne.
  destruct (validate_true_inv alphabet salt code Hval)
    as (a & b & c & k & d & e & f & g & Hclean & Hall & Hk).
  rewrite Hclean in *.
  apply transposition_rejected_clean; assumption.
Qed.

Lemma transposition_rejected_witness :
  validate testAlphabet testSalt
    (swapAt (cleanOf (generate testAlphabet testSalt countingBytes)) 0 1) = false.
Proof.
  apply (transposition_rejected testAlphabet testSalt
           (generate testAlphabet testSalt countingBytes) 0 1);
    [reflexivity | reflexivity | reflexivity | simpl; auto | vm_compute; congruence].
Defined.

(** X5. Whatever the size of the alphabet (usable, distinct symbols), a
    substitution at a position of weight 1 (positions 0, 2, 5, 7 of the
    eight symbols) by a different alphabet symbol is always detected. *)
Theorem weight_one_mutation_rejected (alphabet salt code : list ascii) (i : nat) (x : ascii) :
  alphabetOk alphabet = true -> distinct alphabet = true ->
  validate alphabet salt code = true ->
  In i weightOnePositions ->
  Js.includes alphabet x = true ->
  nth_error (cleanOf code) i <> Some x ->
  validate alphabet salt (<[i:=x]> (cleanOf code)) = false.
Proof.
  intros Hok Hd Hval Hin Hx Hne. apply includes_In in Hx.
  destruct (validate_true_inv alphabet salt code Hval)
    as (a & b & c & k & d & e & f & g & Hclean & Hall & Hk).
  rewrite Hclean in *.
  apply weight_one_rejected_clean; assumption.
Qed.

Lemma weight_one_mutation_rejected_witness :
  validate base32Alphabet testSalt
    (<[0%nat:="B"%char]> (cleanOf (generate base32Alphabet testSalt (constBytes x00)))) = false.
Proof.
  apply (weight_one_mutation_rejected base32Alphabet testSalt
           (generate base32Alphabet testSalt (constBytes x00)) 0 "B"%char);
    [reflexivity | reflexivity | reflexivity | simpl; auto | reflexivity
    | vm_compute; congruence].
Defined.

Section EvenAlphabet.

Variable alphabet : list ascii.
Variable salt : list ascii.
Hypothesis Hok : alphabetOk alphabet = true.
Hypothesis Hdistinct : distinct alphabet = true.
Hypothesis Heven : Z.even (base alphabet) = true.

Abbreviation over := (Forall (fun c => In c alphabet)).

Lemma indexOf_nth_error (n : nat) (x : ascii) :
  nth_error alphabet n = Some x -> Js.indexOf alphabet x = Z.of_nat n.
Proof.
  intros Hn.
  assert (Hin : In x alphabet) by (eapply nth_error_In; eauto).
  assert (Hlt : (n < length alphabet)%nat) by (apply nth_error_Some; congruence).
  destruct (indexOf_In alphabet x Hin) as [Hb Hx].
  apply (nth_error_alphabet_inj alphabet); unfold base; try lia; try assumption.
  rewrite Nat2Z.id. congruence.
Qed.

(** Half a turn of the alphabet away from a symbol there is another one. *)
Lemma half_turn (y : ascii) :
  In y alphabet ->
  exists x, In x alphabet /\ x <> y /\
            (2 * (Js.indexOf alphabet x - Js.indexOf alphabet y) = base alphabet \/
             2 * (Js.indexOf alphabet x - Js.indexOf alphabet y) = - base alphabet).
Proof.
  intros Hy.
  pose proof (base_pos alphabet (alphabetOk_nonempty alphabet Hok)) as HB.
  pose proof (proj1 (Z.even_spec _) Heven) as [h Hh].
  destruct (indexOf_In alphabet y Hy) as [Hb _].
  fold (base alphabet) in Hb.
  set (j := Js.indexOf alphabet y) in *.
  set (j' := if j <? h then j + h else j - h).
  assert (Hj' : 0 <= j' < base alphabet)
    by (subst j'; destruct (Z.ltb_spec j h); lia).
  destruct (nth_error alphabet (Z.to_nat j')) as [x|] eqn:Ex.
  2:{ apply nth_error_None in Ex. unfold base in Hj'. lia. }
  exists x. pose proof (indexOf_nth_error _ _ Ex) as Hix.
  rewrite Z2Nat.id in Hix by lia.
  split; [eapply nth_error_In; eauto|]. split.
  - intros ->. fold j in Hix. subst j'. destruct (Z.ltb_spec j h); lia.
  - rewrite Hix. fold j. subst j'. destruct (Z.ltb_spec j h); lia.
Qed.

Lemma same_checksum_after_turn (s s' : list ascii) :
  over s -> over s' ->
  weightedLoop alphabet s' 0 0 - weightedLoop alphabet s 0 0 = base alphabet \/
  weightedLoop alphabet s' 0 0 - weightedLoop alphabet s 0 0 = - base alphabet ->
  calculateChecksum alphabet salt s' = calculateChecksum alphabet salt s.
Proof.
  intros Hs Hs' Hd.
  pose proof (alphabetOk_nonempty alphabet Hok) as Hnil.
  apply (checksum_eq_iff alphabet salt salt s' s Hnil Hdistinct Hs' Hs).
  destruct Hd as [Hd|Hd].
  - replace (weightedLoop alphabet s' 0 0 + saltSum salt)
      with (weightedLoop alphabet s 0 0 + saltSum salt + 1 * base alphabet) by lia.
    apply Z_mod_plus_full.
  - replace (weightedLoop alphabet s' 0 0 + saltSum salt)
      with (weightedLoop alphabet s 0 0 + saltSum salt + (-1) * base alphabet) by lia.
    apply Z_mod_plus_full.
Qed.

Lemma weight_two_collision_clean (a b c k d e f g : ascii) (i : nat) :
  over [a; b; c; k; d; e; f; g] ->
  calculateChecksum alphabet salt [a; b; c; d; e; f; g] = Some k ->
  In i weightTwoPositions ->
  exists x, In x alphabet /\
            nth_error [a; b; c; k; d; e; f; g] i <> Some x /\
            validate alphabet salt (<[i:=x]> [a; b; c; k; d; e; f; g]) = true.
Proof.
  intros Hall Hk Hin.
  repeat match goal with
         | H : Forall _ (_ :: _) |- _ => inversion H; subst; clear H
         end.
  assert (Horig : over [a; b; c; d; e; f; g]) by (repeat constructor; assumption).
  unfold weightTwoPositions in Hin. cbn [In] in Hin.
  repeat (destruct Hin as [Hin|Hin]; [subst i|]); [..|destruct Hin];
    cbn [nth_error list_insert insert];
    match goal with
    | |- exists x, _ /\ Some ?y <> Some x /\ _ =>
        destruct (half_turn y ltac:(assumption)) as (x & Hx & Hxy & Hturn);
        exists x; split; [exact Hx|]; split; [congruence|];
        apply (validate_clean_intro alphabet salt); [exact Hok | repeat constructor; assumption |];
        rewrite <- Hk; apply same_checksum_after_turn;
        [exact Horig | repeat constructor; assumption | cbn; lia]
    end.
Qed.

End EvenAlphabet.

(** X6. With an alphabet of even size (usable, distinct symbols) the
    checksum has blind spots: for every accepted code and every position of
    weight 2 (positions 1, 4, 6 of the eight symbols) there is a different
    alphabet symbol, half the alphabet away, whose substitution at that
    position is still accepted. *)
Theorem even_alphabet_collision (alphabet salt code : list ascii) (i : nat) :
  alphabetOk alphabet = true -> distinct alphabet = true ->
  Z.even (base alphabet) = true ->
  validate alphabet salt code = true ->
  In i weightTwoPositions ->
  exists x, Js.includes alphabet x = true /\
            nth_error (cleanOf code) i <> Some x /\
            validate alphabet salt (<[i:=x]> (cleanOf code)) = true.
Proof.
  intros Hok Hd Heven Hval Hin.
  destruct (validate_true_inv alphabet salt code Hval)
    as (a & b & c & k & d & e & f & g & Hclean & Hall & Hk).
  rewrite Hclean.
  destruct (weight_two_collision_clean alphabet salt Hok Hd Heven a b c k d e f g i Hall Hk Hin)
    as (x & Hx & Hne & Hv).
  exists x. split; [now apply includes_In|]. split; assumption.
Qed.

Lemma even_alphabet_collision_witness :
  exists x, Js.includes base32Alphabet x = true /\
            nth_error (cleanOf (generate base32Alphabet testSalt (constBytes x00))) 1 <> Some x /\
            validate base32Alphabet testSalt
              (<[1%nat:=x]> (cleanOf (generate base32Alphabet testSalt (constBytes x00)))) = true.
Proof.
  apply (even_alphabet_collision base32Alphabet testSalt
           (generate base32Alphabet testSalt (constBytes x00)) 1);
    [reflexivity | reflexivity | reflexivity | reflexivity | simpl; auto].
Defined.

(** ** Normalisation and [format] *)

Section Normalisation.

Lemma upper_idempotent (c : ascii) : Js.upper (Js.upper c) = Js.upper c.
Proof.
  destruct c as [[] [] [] [] [] [] [] []]; reflexivity.
Qed.

Lemma upper_is_dash (c : ascii) : Ascii.eqb (Js.upper c) "-"%char = Ascii.eqb c "-"%char.
Proof.
  destruct c as [[] [] [] [] [] [] [] []]; reflexivity.
Qed.

Lemma toUpperCase_idempotent (s : list ascii) :
  Js.toUpperCase (Js.toUpperCase s) = Js.toUpperCase s.
Proof.
  unfold Js.toUpperCase. rewrite map_map. apply map_ext. apply upper_idempotent.
Qed.

(** Removing the first separator and upper-casing commute. *)
Lemma removeFirst_toUpperCase (s : list ascii) :
  Js.removeFirst "-"%char (Js.toUpperCase s) = Js.toUpperCase (Js.removeFirst "-"%char s).
Proof.
  unfold Js.toUpperCase. induction s as [|x r IH]; [reflexivity|].
  cbn [map Js.removeFirst]. rewrite upper_is_dash.
  destruct (Ascii.eqb x "-"%char); [reflexivity|]. cbn [map]. now rewrite IH.
Qed.

Lemma cleanOf_upper (code : list ascii) :
  Js.toUpperCase (cleanOf code) = cleanOf code.
Proof.
  unfold cleanOf. rewrite removeFirst_toUpperCase. apply toUpperCase_idempotent.
Qed.

Lemma removeFirst_no_dash (s : list ascii) :
  Js.includes s "-"%char = false -> Js.removeFirst "-"%char s = s.
Proof.
  induction s as [|x r IH]; [reflexivity|].
  unfold Js.includes. cbn [existsb Js.removeFirst]. intros H.
  apply orb_false_iff in H as [Hx Hr].
  rewrite Ascii.eqb_sym in Hx. rewrite Hx. f_equal. apply IH. exact Hr.
Qed.

Lemma removeFirst_inserted (p q : list ascii) :
  Js.includes p "-"%char = false ->
  Js.removeFirst "-"%char (p ++ Js.str "-" ++ q) = p ++ q.
Proof.
  induction p as [|x r IH]; [reflexivity|].
  unfold Js.includes. cbn [existsb Js.removeFirst app]. intros H.
  apply orb_false_iff in H as [Hx Hr].
  rewrite Ascii.eqb_sym in Hx. rewrite Hx. f_equal. apply IH. exact Hr.
Qed.

Lemma includes_app (p q : list ascii) (c : ascii) :
  Js.includes (p ++ q) c = Js.includes p c || Js.includes q c.
Proof. unfold Js.includes. apply existsb_app. Qed.

End Normalisation.

(** [validate] looks at a code only through its normal form. *)
Lemma validate_cleanOf (alphabet salt code code' : list ascii) :
  cleanOf code = cleanOf code' ->
  validate alphabet salt code = validate alphabet salt code'.
Proof.
  intros E. unfold validate. fold (cleanOf code). fold (cleanOf code'). now rewrite E.
Qed.

(** A normal form that still holds a separator is rejected when the
    separator is no alphabet symbol. *)
Lemma validate_dash_in_clean (alphabet salt code : list ascii) :
  Js.includes alphabet "-"%char = false ->
  Js.includes (cleanOf code) "-"%char = true ->
  validate alphabet salt code = false.
Proof.
  intros Hno Hdash. unfold validate. fold (cleanOf code).
  destruct (negb (length (cleanOf code) =? 8)%nat); [reflexivity|].
  destruct (forallb (Js.includes alphabet) (cleanOf code)) eqn:E; [|reflexivity].
  exfalso. rewrite forallb_forall in E.
  apply includes_In in Hdash. specialize (E _ Hdash). congruence.
Qed.

(** X7. [format] never changes the verdict of [validate]: when the
    separator is not an alphabet symbol, [validate (format code)] equals
    [validate code] for every ASCII string [code], whatever its length, case
    and separators. *)
Theorem validate_after_format (alphabet salt code : list ascii) :
  Js.includes alphabet "-"%char = false ->
  Js.isAscii code = true ->
  validate alphabet salt (format code) = validate alphabet salt code.
Proof.
  intros Hno _. unfold format. rewrite <- removeFirst_toUpperCase. fold (cleanOf code).
  destruct (length (cleanOf code) =? 8)%nat eqn:E8; cbn [negb]; [|reflexivity].
  set (u := cleanOf code) in *.
  assert (Hclean : cleanOf (firstn 4 u ++ Js.str "-" ++ skipn 4 u) =
                   Js.removeFirst "-"%char (firstn 4 u ++ Js.str "-" ++ skipn 4 u)).
  { unfold cleanOf. f_equal. unfold Js.toUpperCase. rewrite !map_app.
    fold (Js.toUpperCase (firstn 4 u)). fold (Js.toUpperCase (skipn 4 u)).
    unfold Js.toUpperCase. rewrite <- firstn_map, <- skipn_map.
    fold (Js.toUpperCase u). subst u. rewrite cleanOf_upper. reflexivity. }
  destruct (Js.includes (firstn 4 u) "-"%char) eqn:Ehead.
  - (* a separator among the first four symbols: both are rejected *)
    rewrite (validate_dash_in_clean alphabet salt code Hno).
    + apply validate_dash_in_clean; [exact Hno|].
      rewrite Hclean.
      apply includes_In. apply includes_In in Ehead.
      clear - Ehead. set (p := firstn 4 u) in *. set (q := skipn 4 u).
      induction p as [|x r IH]; [destruct Ehead|].
      cbn [app Js.removeFirst]. destruct (Ascii.eqb x "-"%char) eqn:Ex.
      * apply in_or_app. right. left. reflexivity.
      * destruct Ehead as [->|Hin]; [discriminate Ex|]. right. apply IH. exact Hin.
    + fold u. rewrite <- (firstn_skipn 4 u), includes_app, Ehead. reflexivity.
  - apply validate_cleanOf. rewrite Hclean, (removeFirst_inserted _ _ Ehead).
    rewrite firstn_skipn. reflexivity.
Qed.

Lemma validate_after_format_witness :
  validate testAlphabet testSalt (format (Js.str "kkk5kkkk")) =
  validate testAlphabet testSalt (Js.str "kkk5kkkk").
Proof.
  apply (validate_after_format testAlphabet testSalt (Js.str "kkk5kkkk")); reflexivity.
Defined.

Lemma includes_toUpperCase_dash (s : list ascii) :
  Js.includes (Js.toUpperCase s) "-"%char = Js.includes s "-"%char.
Proof.
  unfold Js.includes, Js.toUpperCase. induction s as [|x r IH]; [reflexivity|].
  cbn [map existsb]. rewrite IH. f_equal.
  rewrite (Ascii.eqb_sym "-"%char (Js.upper x)), (Ascii.eqb_sym "-"%char x).
  apply upper_is_dash.
Qed.

Lemma includes_firstn_dash (n : nat) (s : list ascii) :
  Js.includes s "-"%char = false -> Js.includes (firstn n s) "-"%char = false.
Proof.
  intros H. rewrite <- (firstn_skipn n s), includes_app in H.
  now apply orb_false_iff in H as [H _].
Qed.

(** X8. [format] is idempotent on every ASCII string that holds at most one
    separator: [format (format code) = format code].  (With two or more
    separators the second application can move the separator again.) *)
Theorem format_idempotent (code : list ascii) :
  Js.isAscii code = true ->
  Js.includes (Js.removeFirst "-"%char code) "-"%char = false ->
  format (format code) = format code.
Proof.
  intros _ Hone. unfold format at 2.
  set (u := Js.toUpperCase (Js.removeFirst "-"%char code)).
  assert (Hu : Js.includes u "-"%char = false)
    by (subst u; now rewrite includes_toUpperCase_dash).
  destruct (length u =? 8)%nat eqn:E8; cbn [negb]; [|reflexivity].
  unfold format.
  rewrite (removeFirst_inserted _ _ (includes_firstn_dash 4 u Hu)), firstn_skipn.
  subst u. rewrite toUpperCase_idempotent.
  fold (Js.toUpperCase (Js.removeFirst "-"%char code)).
  rewrite E8. reflexivity.
Qed.

Lemma format_idempotent_witness :
  format (format (Js.str "k7q2-n5xr")) = format (Js.str "k7q2-n5xr").
Proof.
  apply (format_idempotent (Js.str "k7q2-n5xr")); reflexivity.
Defined.

(** Two separators: the second application of [format] moves the
    separator once more. *)
Example format_not_idempotent :
  format (format (Js.str "--k7q2n5x")) <> format (Js.str "--k7q2n5x").
Proof. vm_compute. discriminate. Qed.

(** ** Redemption: locks, cache and the touched record *)

Section RedemptionFacts.

Variable alphabet : list ascii.
Variable salt : list ascii.

(** The locked body leaves the locks, the clock and the client alone. *)
Lemma redeemLocked_frame (w : World) (c : list ascii) (userEmail ip : string) :
  let w' := snd (redeemLocked w c userEmail ip) in
  locks w' = locks w /\ now w' = now w /\ redisFails w' = redisFails w /\
  nextId w' = nextId w.
Proof.
  unfold redeemLocked.
  destruct (loadInvite w c) as [invite|]; [|cbn; auto].
  destruct (c_currentUses invite >=? c_maxUses invite); [cbn; auto|].
  destruct (now w >? c_expiresAt invite); [cbn; auto|].
  destruct (findOneUsedBy (invites w) userEmail); [cbn; auto|].
  destruct (findByIdAndUpdate _ _ _ _) as [l updated].
  destruct (redisFails (withInvites w l) DEL); cbn; auto.
Qed.

Lemma live_insert_same {V} (m : gmap (list ascii) (V * Z)) (k : list ascii) (v : V) (t e : Z) :
  t < e -> live (<[k := (v, e)]> m) k t = Some v.
Proof.
  intros Ht. unfold live. rewrite lookup_insert_eq.
  destruct (Z.ltb_spec t e); [reflexivity | lia].
Qed.

Lemma live_insert_other {V} (m : gmap (list ascii) (V * Z)) (k k' : list ascii) (v : V) (t e : Z) :
  k <> k' -> live (<[k := (v, e)]> m) k' t = live m k' t.
Proof. intros Hk. unfold live. now rewrite lookup_insert_ne. Qed.

Lemma live_delete_same {V} (m : gmap (list ascii) (V * Z)) (k : list ascii) (t : Z) :
  live (delete k m) k t = None.
Proof. unfold live. now rewrite lookup_delete_eq. Qed.

Lemma live_delete_other {V} (m : gmap (list ascii) (V * Z)) (k k' : list ascii) (t : Z) :
  k <> k' -> live (delete k m) k' t = live m k' t.
Proof. intros Hk. unfold live. now rewrite lookup_delete_ne. Qed.

(** What [findByIdAndUpdate] does to the collection. *)
Lemma findByIdAndUpdate_spec (l : list Invite) (id : nat) (u : UsedBy) (active : bool) :
  match findByIdAndUpdate l id u active with
  | (l', Some r) =>
      exists l1 old l2, l = l1 ++ old :: l2 /\ l' = l1 ++ r :: l2 /\
                        r = applyUse old u active /\ _id old = id /\
                        Forall (fun d => _id d <> id) l1
  | (l', None) => l' = l /\ Forall (fun d => _id d <> id) l
  end.
Proof.
  induction l as [|d r IH]; cbn [findByIdAndUpdate].
  - split; [reflexivity | constructor].
  - destruct (bool_decide (_id d = id)) eqn:E.
    + apply bool_decide_eq_true in E.
      exists [], d, r. repeat split; [exact E | constructor].
    + apply bool_decide_eq_false in E.
      destruct (findByIdAndUpdate r id u active) as [r' [res|]].
      * destruct IH as (l1 & old & l2 & -> & -> & Hr & Hid & Hl1).
        exists (d :: l1), old, l2. repeat split; try assumption.
        constructor; assumption.
      * destruct IH as [-> Hall]. split; [reflexivity | constructor; assumption].
  Qed.

End RedemptionFacts.

(** X9. The [finally] block gives the lock back: when the format is valid,
    the lock of the code is free and the client accepts [SET] and [EVAL], the
    lock of the code is free again after [useInvite], whether the redemption
    succeeded or failed, and the clock has not been touched. *)
Theorem lock_released (alphabet salt : list ascii) (w : World) (c : list ascii)
        (userEmail ip lockId : string) :
  isValidFormat alphabet salt (Js.toUpperCase c) = true ->
  redisFails w SET = false -> redisFails w EVAL = false ->
  live (locks w) (Js.toUpperCase c) (now w) = None ->
  let w' := snd (useInvite alphabet salt w c userEmail ip lockId) in
  live (locks w') (Js.toUpperCase c) (now w') = None /\ now w' = now w.
Proof.
  intros Hv Hset Heval Hfree. unfold useInvite. rewrite Hv, Hset, Hfree. cbn [negb].
  set (w1 := withLocks w _).
  destruct (redeemLocked_frame w1 (Js.toUpperCase c) userEmail ip)
    as (Hl & Hn & Hf & _).
  destruct (redeemLocked w1 (Js.toUpperCase c) userEmail ip) as [r w2].
  cbn [snd] in *. unfold releaseLock.
  rewrite Hf, Hl, Hn. cbn [redisFails locks now withLocks w1]. rewrite Heval.
  rewrite live_insert_same by lia.
  rewrite bool_decide_eq_true_2 by reflexivity.
  cbn [locks now withLocks]. rewrite Hn. cbn [now withLocks w1 locks].
  split; [apply live_delete_same | reflexivity].
Qed.

Lemma lock_released_witness :
  let w1 := snd (issue world0 "admin@test.com" 1 30) in
  let w' := snd (useInvite testAlphabet testSalt w1 testCode "user@test.com" "127.0.0.1" "uuid-1") in
  live (locks w') (Js.toUpperCase testCode) (now w') = None /\ now w' = now w1.
Proof.
  apply (lock_released testAlphabet testSalt (snd (issue world0 "admin@test.com" 1 30))
           testCode "user@test.com" "127.0.0.1" "uuid-1"); reflexivity.
Defined.

(** X10. [useInvite] never touches the lock of another holder: a lock that
    is held (for any code, the requested one included) under an identifier
    other than this request's is still held, by the same holder, after the
    call. *)
Theorem foreign_locks_untouched (alphabet salt : list ascii) (w : World) (c : list ascii)
        (userEmail ip lockId : string) (k : list ascii) (holder : string) :
  live (locks w) k (now w) = Some holder -> holder <> lockId ->
  let w' := snd (useInvite alphabet salt w c userEmail ip lockId) in
  live (locks w') k (now w') = Some holder.
Proof.
  intros Hheld Hother.
  assert (Hrel : forall w0, locks w0 = locks w -> now w0 = now w ->
             live (locks (releaseLock w0 (Js.toUpperCase c) lockId)) k
                  (now (releaseLock w0 (Js.toUpperCase c) lockId)) = Some holder).
  { intros w0 Hl Hn. unfold releaseLock.
    destruct (redisFails w0 EVAL); [now rewrite Hl, Hn|].
    destruct (live (locks w0) (Js.toUpperCase c) (now w0)) as [h|] eqn:Eh;
      [|now rewrite Hl, Hn].
    destruct (bool_decide (h = lockId)) eqn:Ed; [|now rewrite Hl, Hn].
    apply bool_decide_eq_true in Ed. subst h.
    cbn [locks now withLocks]. rewrite Hl, Hn in *.
    destruct (decide (Js.toUpperCase c = k)) as [E|Hk];
      [rewrite E in Eh; congruence|].
    now rewrite live_delete_other. }
  unfold useInvite.
  destruct (negb (isValidFormat alphabet salt (Js.toUpperCase c))); [exact Hheld|].
  destruct (redisFails w SET); [cbn [snd]; now apply Hrel|].
  destruct (live (locks w) (Js.toUpperCase c) (now w)) as [h|] eqn:Eh;
    [cbn [snd]; now apply Hrel|].
  set (w1 := withLocks w _).
  destruct (redeemLocked_frame w1 (Js.toUpperCase c) userEmail ip)
    as (Hl & Hn & Hf & _).
  destruct (redeemLocked w1 (Js.toUpperCase c) userEmail ip) as [r w2].
  cbn [snd] in *.
  assert (Hk : Js.toUpperCase c <> k) by congruence.
  unfold releaseLock.
  destruct (redisFails w2 EVAL).
  { rewrite Hl, Hn. cbn [locks now withLocks w1]. now rewrite live_insert_other. }
  destruct (live (locks w2) (Js.toUpperCase c) (now w2)) as [h|].
  2:{ rewrite Hl, Hn. cbn [locks now withLocks w1]. now rewrite live_insert_other. }
  destruct (bool_decide (h = lockId)).
  - cbn [locks now withLocks]. rewrite Hl, Hn. cbn [locks now withLocks w1].
    rewrite live_delete_other by exact Hk. now rewrite live_insert_other.
  - rewrite Hl, Hn. cbn [locks now withLocks w1]. now rewrite live_insert_other.
Qed.

(** A world in which another request holds the lock of the test code. *)
Lemma foreign_locks_untouched_witness :
  let w := withLocks world0 (<[testCode := ("uuid-9"%string, 1700000004000)]> ∅) in
  let w' := snd (useInvite testAlphabet testSalt w testCode
                   "user@test.com" "127.0.0.1" "uuid-1") in
  live (locks w') testCode (now w') = Some "uuid-9"%string.
Proof.
  apply (foreign_locks_untouched testAlphabet testSalt
           (withLocks world0 (<[testCode := ("uuid-9"%string, 1700000004000)]> ∅))
           testCode "user@test.com" "127.0.0.1" "uuid-1" testCode "uuid-9");
    [reflexivity | discriminate].
Defined.

Section RedemptionOutcome.

Variable alphabet : list ascii.
Variable salt : list ascii.

Lemma releaseLock_frame (w : World) (c : list ascii) (lockId : string) :
  let w' := releaseLock w c lockId in
  invites w' = invites w /\ cache w' = cache w /\ now w' = now w /\
  redisFails w' = redisFails w /\ nextId w' = nextId w.
Proof.
  unfold releaseLock.
  destruct (redisFails w EVAL); [cbn; auto 6|].
  destruct (live (locks w) c (now w)); [|cbn; auto 6].
  destruct (bool_decide _); cbn; auto 6.
Qed.

(** Every call of [useInvite] either leaves the collection and the cache as
    they were and fails, or has passed all checks on the loaded record and
    has applied the update; the update is then followed by the cache
    invalidation, whose rejection fails the call. *)
Lemma useInvite_outcome (w : World) (c : list ascii) (userEmail ip lockId : string) :
  let r := fst (useInvite alphabet salt w c userEmail ip lockId) in
  let w' := snd (useInvite alphabet salt w c userEmail ip lockId) in
  let C := Js.toUpperCase c in
  (now w' = now w /\ redisFails w' = redisFails w /\ nextId w' = nextId w) /\
  ((invites w' = invites w /\ cache w' = cache w /\ isOk r = false) \/
   (exists invite l' upd,
       isValidFormat alphabet salt C = true /\
       loadInvite w C = Some invite /\
       c_currentUses invite < c_maxUses invite /\
       now w <= c_expiresAt invite /\
       findOneUsedBy (invites w) userEmail = None /\
       findByIdAndUpdate (invites w) (c_id invite)
         {| email := normalizeEmail userEmail; usedAt := now w; ipAddress := ip |}
         (c_currentUses invite + 1 <? c_maxUses invite) = (l', upd) /\
       invites w' = l' /\
       ((redisFails w DEL = false /\ r = Ok upd /\ cache w' = delete C (cache w)) \/
        (redisFails w DEL = true /\ r = Err (RedisFailure DEL) /\ cache w' = cache w)))).
Proof.
  cbn zeta. unfold useInvite.
  destruct (negb (isValidFormat alphabet salt (Js.toUpperCase c))) eqn:Ev.
  { cbn [fst snd]. split; [auto|]. left. auto. }
  apply negb_false_iff in Ev.
  destruct (redisFails w SET).
  { cbn [fst snd].
    destruct (releaseLock_frame w (Js.toUpperCase c) lockId) as (Hi & Hc & Hn & Hf & Hx).
    split; [auto|]. left. auto. }
  destruct (live (locks w) (Js.toUpperCase c) (now w)).
  { cbn [fst snd].
    destruct (releaseLock_frame w (Js.toUpperCase c) lockId) as (Hi & Hc & Hn & Hf & Hx).
    split; [auto|]. left. auto. }
  set (w1 := withLocks w _).
  unfold redeemLocked.
  change (loadInvite w1 (Js.toUpperCase c)) with (loadInvite w (Js.toUpperCase c)).
  cbn [invites now w1 withLocks].
  destruct (loadInvite w (Js.toUpperCase c)) as [invite|] eqn:Eload.
  2:{ cbn [fst snd].
      destruct (releaseLock_frame w1 (Js.toUpperCase c) lockId) as (Hi & Hc & Hn & Hf & Hx).
      split; [auto|]. left. auto. }
  destruct (Z.geb_spec (c_currentUses invite) (c_maxUses invite)) as [?|Huses].
  { cbn [fst snd].
    destruct (releaseLock_frame w1 (Js.toUpperCase c) lockId) as (Hi & Hc & Hn & Hf & Hx).
    split; [auto|]. left. auto. }
  destruct (Z.gtb_spec (now w) (c_expiresAt invite)) as [?|Hexp].
  { cbn [fst snd].
    destruct (releaseLock_frame w1 (Js.toUpperCase c) lockId) as (Hi & Hc & Hn & Hf & Hx).
    split; [auto|]. left. auto. }
  destruct (findOneUsedBy (invites w) userEmail) eqn:Eused.
  { cbn [fst snd].
    destruct (releaseLock_frame w1 (Js.toUpperCase c) lockId) as (Hi & Hc & Hn & Hf & Hx).
    split; [auto|]. left. auto. }
  destruct (findByIdAndUpdate _ _ _ _) as [l' upd] eqn:Eupd.
  cbn [redisFails withInvites w1 withLocks].
  destruct (redisFails w DEL) eqn:Edel; cbn [fst snd].
  - destruct (releaseLock_frame (withInvites w1 l') (Js.toUpperCase c) lockId)
      as (Hi & Hc & Hn & Hf & Hx).
    split; [auto|]. right. exists invite, l', upd.
    repeat split; try assumption; try lia. right. auto.
  - destruct (releaseLock_frame
                (withCache (withInvites w1 l') (delete (Js.toUpperCase c) (cache w)))
                (Js.toUpperCase c) lockId) as (Hi & Hc & Hn & Hf & Hx).
    split; [auto|]. right. exists invite, l', upd.
    repeat split; try assumption; try lia. left. auto.
Qed.

(** The record that [loadInvite] returns stands for a stored record of the
    code, or is a cache entry. *)
Lemma findOneActive_Some (l : list Invite) (c : list ascii) (d : Invite) :
  findOneActive l c = Some d -> In d l /\ code d = c /\ isActive d = true.
Proof.
  unfold findOneActive. intros H. apply find_some in H as [Hin Hp].
  apply andb_prop in Hp as [Hc Ha]. apply bool_decide_eq_true in Hc. auto.
Qed.

Lemma findOneByCode_Some (l : list Invite) (c : list ascii) (d : Invite) :
  findOneByCode l c = Some d -> In d l /\ code d = c.
Proof.
  unfold findOneByCode. intros H. apply find_some in H as [Hin Hp].
  apply bool_decide_eq_true in Hp. auto.
Qed.

Lemma findOneActive_of_code (l : list Invite) (c : list ascii) (d : Invite) :
  findOneByCode l c = Some d -> isActive d = true -> findOneActive l c = Some d.
Proof.
  unfold findOneByCode, findOneActive. induction l as [|x r IH]; [discriminate|].
  cbn [List.find]. destruct (bool_decide (code x = c)); cbn [andb].
  - intros [= ->] Ha. now rewrite Ha.
  - exact IH.
Qed.

Lemma findOneUsedBy_None (l : list Invite) (userEmail : string) (d : Invite) :
  findOneUsedBy l userEmail = None -> In d l ->
  ~ In (normalizeEmail userEmail) (map email (usedBy d)).
Proof.
  intros Hnone Hin Hu.
  destruct (findOneUsedBy_Some l userEmail) as [x Hx]; [eauto|]. congruence.
Qed.

End RedemptionOutcome.

(** The record that a successful call returns, and the collection after it. *)
Lemma redeemed_record (alphabet salt : list ascii) (w : World)
        (c : list ascii) (userEmail ip lockId : string) (updated : option Invite) :
  fst (useInvite alphabet salt w c userEmail ip lockId) = Ok updated ->
  let w' := snd (useInvite alphabet salt w c userEmail ip lockId) in
  match updated with
  | Some u =>
      exists l1 old l2,
        invites w = l1 ++ old :: l2 /\ invites w' = l1 ++ u :: l2 /\
        _id u = _id old /\ code u = code old /\ maxUses u = maxUses old /\
        referrerEmail u = referrerEmail old /\ expiresAt u = expiresAt old /\
        currentUses u = currentUses old + 1 /\
        usedBy u = usedBy old ++
                   [{| email := normalizeEmail userEmail; usedAt := now w; ipAddress := ip |}]
  | None => invites w' = invites w
  end.
Proof.
  intros Hok w'. subst w'.
  destruct (useInvite_outcome alphabet salt w c userEmail ip lockId)
    as [_ [(_ & _ & Hfail)|(invite & l' & upd & _ & _ & _ & _ & _ & Hupd & Hinv & Hres)]].
  { rewrite Hok in Hfail. discriminate. }
  destruct Hres as [(_ & Hr & _)|(_ & Hr & _)]; [|congruence].
  rewrite Hok in Hr. injection Hr as <-.
  pose proof (findByIdAndUpdate_spec (invites w) (c_id invite)
                {| email := normalizeEmail userEmail; usedAt := now w; ipAddress := ip |}
                (c_currentUses invite + 1 <? c_maxUses invite)) as Hspec.
  rewrite Hupd in Hspec. destruct updated as [u|].
  - destruct Hspec as (l1 & old & l2 & Hl & Hl' & Hu & _ & _).
    exists l1, old, l2. rewrite Hinv. subst u. repeat split; assumption.
  - destruct Hspec as [Hl' _]. now rewrite Hinv.
Qed.

(** X11. A successful redemption (of an ASCII code, by an ASCII address)
    changes exactly one record and nothing else in the collection: the record
    keeps its identifier, code, maximum, creator and expiry, its
    [currentUses] grows by exactly one and its [usedBy] list gets one more
    entry, with the redeeming address lower-cased and trimmed, the current
    time and the caller's IP address; when the update finds no record
    ([null] is returned) the collection is unchanged. *)
Theorem redemption_changes_one_record (alphabet salt : list ascii) (w : World)
        (c : list ascii) (userEmail ip lockId : string) (updated : option Invite) :
  Js.isAscii c = true -> isAsciiString userEmail = true ->
  fst (useInvite alphabet salt w c userEmail ip lockId) = Ok updated ->
  let w' := snd (useInvite alphabet salt w c userEmail ip lockId) in
  match updated with
  | Some u =>
      exists l1 old l2,
        invites w = l1 ++ old :: l2 /\ invites w' = l1 ++ u :: l2 /\
        _id u = _id old /\ code u = code old /\ maxUses u = maxUses old /\
        referrerEmail u = referrerEmail old /\ expiresAt u = expiresAt old /\
        currentUses u = currentUses old + 1 /\
        usedBy u = usedBy old ++
                   [{| email := normalizeEmail userEmail; usedAt := now w; ipAddress := ip |}]
  | None => invites w' = invites w
  end.
Proof.
  intros _ _ Hok. exact (redeemed_record alphabet salt w c userEmail ip lockId updated Hok).
Qed.

Lemma redemption_changes_one_record_witness :
  let w1 := snd (issue world0 "admin@test.com" 1 30) in
  let r := useInvite testAlphabet testSalt w1 testCode " User@Test.com " "127.0.0.1" "uuid-1" in
  exists u l1 old l2,
    fst r = Ok (Some u) /\
    invites w1 = l1 ++ old :: l2 /\ invites (snd r) = l1 ++ u :: l2 /\
    currentUses u = currentUses old + 1 /\
    usedBy u = usedBy old ++
               [{| email := "user@test.com"; usedAt := now w1; ipAddress := "127.0.0.1" |}].
Proof.
  eexists.
  pose proof (redemption_changes_one_record testAlphabet testSalt
                (snd (issue world0 "admin@test.com" 1 30))
                testCode " User@Test.com " "127.0.0.1" "uuid-1" _
                eq_refl eq_refl eq_refl) as H.
  cbn zeta in H. destruct H as (l1 & old & l2 & H1 & H2 & _ & _ & _ & _ & _ & H3 & H4).
  exists l1, old, l2. split; [reflexivity|]. split; [exact H1|]. split; [exact H2|].
  split; [exact H3 | exact H4].
Defined.

(** X12. After a successful redemption no cache entry is left for the
    code: the next reader of this code goes to the collection. *)
Theorem success_invalidates_cache (alphabet salt : list ascii) (w : World)
        (c : list ascii) (userEmail ip lockId : string) :
  isOk (fst (useInvite alphabet salt w c userEmail ip lockId)) = true ->
  let w' := snd (useInvite alphabet salt w c userEmail ip lockId) in
  cache w' !! Js.toUpperCase c = None /\
  getFromCache w' (Js.toUpperCase c) = None.
Proof.
  intros Hok w'. subst w'.
  destruct (useInvite_outcome alphabet salt w c userEmail ip lockId)
    as [_ [(_ & _ & Hfail)|(invite & l' & upd & _ & _ & _ & _ & _ & _ & _ & Hres)]].
  { congruence. }
  destruct Hres as [(_ & _ & Hc)|(_ & Hr & _)].
  - assert (Hnone : cache (snd (useInvite alphabet salt w c userEmail ip lockId))
                      !! Js.toUpperCase c = None)
      by (rewrite Hc; apply lookup_delete_eq).
    split; [exact Hnone|].
    unfold getFromCache, live. rewrite Hnone. now destruct (redisFails _ GET).
  - rewrite Hr in Hok. discriminate.
Qed.

Lemma success_invalidates_cache_witness :
  let w1 := snd (issue world0 "admin@test.com" 1 30) in
  let w' := snd (useInvite testAlphabet testSalt w1 testCode
                   "user@test.com" "127.0.0.1" "uuid-1") in
  cache w' !! Js.toUpperCase testCode = None /\
  getFromCache w' (Js.toUpperCase testCode) = None.
Proof.
  apply (success_invalidates_cache testAlphabet testSalt
           (snd (issue world0 "admin@test.com" 1 30))
           testCode "user@test.com" "127.0.0.1" "uuid-1"). reflexivity.
Defined.

(** X13. One redemption per identity: once [useInvite] has recorded a
    redemption for an address, no later call for the same identity succeeds,
    under whatever spelling of the address (letter case, surrounding blanks)
    and for any code, IP address or lock identifier, in any world that still
    holds that record.  The addresses are ASCII strings. *)
Theorem identity_redeems_once (alphabet salt : list ascii) (w : World)
        (c : list ascii) (userEmail ip lockId : string) (u : Invite)
        (w2 : World) (c2 : list ascii) (userEmail2 ip2 lockId2 : string) :
  isAsciiString userEmail = true -> isAsciiString userEmail2 = true ->
  fst (useInvite alphabet salt w c userEmail ip lockId) = Ok (Some u) ->
  In u (invites w2) ->
  normalizeEmail userEmail2 = normalizeEmail userEmail ->
  isOk (fst (useInvite alphabet salt w2 c2 userEmail2 ip2 lockId2)) = false.
Proof.
  intros _ _ Hok Hin Hsame.
  pose proof (redeemed_record alphabet salt w c userEmail ip lockId (Some u) Hok) as Hu.
  cbn zeta in Hu. destruct Hu as (_ & old & _ & _ & _ & _ & _ & _ & _ & _ & _ & Hu).
  destruct (useInvite_outcome alphabet salt w2 c2 userEmail2 ip2 lockId2)
    as [_ [(_ & _ & Hfail)|(invite & l' & upd & _ & _ & _ & _ & Hnone & _)]];
    [exact Hfail|].
  exfalso. apply (findOneUsedBy_None _ _ u Hnone Hin).
  rewrite Hsame, Hu, map_app. apply in_or_app. right. left. reflexivity.
Qed.

Lemma identity_redeems_once_witness :
  let w1 := snd (issue world0 "admin@test.com" 2 30) in
  let r := useInvite testAlphabet testSalt w1 testCode "user@test.com" "127.0.0.1" "uuid-1" in
  isOk (fst (useInvite testAlphabet testSalt (snd r) testCode
               " USER@Test.com" "10.0.0.1" "uuid-2")) = false.
Proof.
  cbn zeta.
  eapply (identity_redeems_once testAlphabet testSalt
            (snd (issue world0 "admin@test.com" 2 30))
            testCode "user@test.com" "127.0.0.1" "uuid-1").
  - reflexivity.
  - reflexivity.
  - vm_compute. reflexivity.
  - vm_compute. left. reflexivity.
  - reflexivity.
Defined.

(** ** Issuing and validating *)

Section IssueOutcome.

Variable alphabet : list ascii.
Variable salt : list ascii.

(** Every call of [createInvite] either leaves the collection and the cache
    as they were and fails, or has inserted one record under a free code;
    the insertion is then followed by the cache write, whose rejection fails
    the call. *)
Lemma createInvite_outcome (w : World) (referrer : string) (maxU days : Z) :
  let r := fst (createInvite alphabet salt w referrer maxU days) in
  let w' := snd (createInvite alphabet salt w referrer maxU days) in
  (now w' = now w /\ redisFails w' = redisFails w /\ locks w' = locks w /\
   (nextId w <= nextId w')%nat) /\
  ((invites w' = invites w /\ cache w' = cache w /\ isOk r = false) \/
   (exists k inv,
       ~ collides alphabet salt w k /\
       inv = {| _id := nextId w; code := candidate alphabet salt w k; maxUses := maxU;
                currentUses := 0; referrerEmail := normalizeEmail referrer;
                usedBy := [];
                isActive := true;
                expiresAt := now w + days * 24 * 60 * 60 * 1000 |} /\
       schemaValid inv = true /\
       invites w' = invites w ++ [inv] /\ nextId w' = S (nextId w) /\
       ((redisFails w SETEX = false /\ r = Ok inv /\
         cache w' = <[code inv := (toCached inv, now w + 86400 * 1000)]> (cache w)) \/
        (redisFails w SETEX = true /\ r = Err (RedisFailure SETEX) /\
         cache w' = cache w)))).
Proof.
  cbn zeta. unfold createInvite.
  pose proof (uniqueCodeLoop_spec alphabet salt maxAttempts 0 None w) as Hloop.
  destruct (uniqueCodeLoop alphabet salt maxAttempts 0 None w) as [[c attempts] w1].
  destruct Hloop as [Hw Hloop]. unfold maxAttempts in *.
  assert (Hframe : invites w1 = invites w /\ cache w1 = cache w /\ now w1 = now w /\
                   redisFails w1 = redisFails w /\ locks w1 = locks w /\
                   nextId w1 = nextId w) by (rewrite Hw; cbn; auto 7).
  destruct Hframe as (Hi & Hc & Hn & Hf & Hl & Hx).
  destruct Hloop as [(k & Hk & Hbefore & Hfree & Hcode & Ha & Hd)|(Hall & Ha & Hd)].
  - destruct (Nat.eqb_spec attempts 10) as [E|_]; [lia|]. subst c.
    rewrite ?Hn, ?Hx.
    set (inv := {| _id := nextId w; code := candidate alphabet salt w k; maxUses := maxU;
                   currentUses := 0; referrerEmail := normalizeEmail referrer;
                usedBy := [];
                   isActive := true;
                   expiresAt := now w + days * 24 * 60 * 60 * 1000 |}).
    destruct (schemaValid inv) eqn:Ev; cbn [negb].
    + cbn [redisFails withInvites withNextId invites now cache]. rewrite Hf.
      destruct (redisFails w SETEX) eqn:Es; cbn [fst snd];
        cbn [invites now cache redisFails locks nextId withInvites withNextId withCache];
        rewrite ?Hn, ?Hf, ?Hl, ?Hx, ?Hi, ?Hc;
        (split; [repeat split; lia|]); right; exists k, inv;
        repeat split; try assumption; try reflexivity; [right|left]; auto.
    + cbn [fst snd invites now cache redisFails locks nextId withInvites withNextId].
      rewrite ?Hn, ?Hf, ?Hl, ?Hx, ?Hi, ?Hc.
      split; [repeat split; lia|]. left. auto.
  - destruct (Nat.eqb_spec attempts 10) as [_|E]; [|lia].
    cbn [fst snd]. rewrite Hn, Hf, Hl, Hx, Hi, Hc.
    split; [repeat split; lia|]. left. auto.
Qed.

Lemma findOneByCode_app_new (l : list Invite) (inv : Invite) :
  findOneByCode l (code inv) = None ->
  findOneByCode (l ++ [inv]) (code inv) = Some inv.
Proof.
  unfold findOneByCode. induction l as [|x r IH]; cbn [List.find app].
  - intros _. now rewrite bool_decide_eq_true_2.
  - destruct (bool_decide (code x = code inv)); [discriminate | exact IH].
Qed.

(** Generated codes are in normal form and valid. *)
Lemma generate_normal (bytes : nat -> byte) :
  alphabetOk alphabet = true ->
  Js.toUpperCase (generate alphabet salt bytes) = generate alphabet salt bytes /\
  validate alphabet salt (generate alphabet salt bytes) = true.
Proof.
  intros Hok. pose proof (alphabetOk_nonempty alphabet Hok) as Hne.
  destruct (generate_spec alphabet salt bytes Hne)
    as (a & b & c & k & d & e & f & g & Hgen & Hall & Hk & _).
  rewrite Hgen. split.
  - assert (Hup : forall x, In x [a; b; c; k; d; e; f; g] -> Js.upper x = x).
    { intros x Hx. rewrite List.Forall_forall in Hall.
      now destruct (alphabetOk_symbol alphabet x Hok (Hall x Hx)). }
    unfold Js.toUpperCase. cbn [map].
    rewrite (Hup a), (Hup b), (Hup c), (Hup k), (Hup d), (Hup e), (Hup f), (Hup g)
      by (cbn; tauto).
    reflexivity.
  - rewrite <- (format_clean alphabet a b c k d e f g Hok Hall).
    rewrite (validate_format alphabet salt Hok _ Hall eq_refl).
    apply validate_clean_intro; assumption.
Qed.

End IssueOutcome.

(** An address that no stored redemption carries is not found. *)
Lemma findOneUsedBy_fresh (l : list Invite) (userEmail : string) :
  (forall d, In d l -> ~ In (normalizeEmail userEmail) (map email (usedBy d))) ->
  findOneUsedBy l userEmail = None.
Proof.
  intros Hfresh. destruct (findOneUsedBy l userEmail) as [d|] eqn:E; [|reflexivity].
  unfold findOneUsedBy in E. apply find_some in E as [Hin Hex].
  apply existsb_exists in Hex as (u & Hu & He). apply bool_decide_eq_true in He.
  exfalso. apply (Hfresh d Hin). rewrite <- He. now apply in_map.
Qed.

(** X14. What [validateInvite] promises, [useInvite] keeps: when
    [validateInvite] answers valid, it reports at least one remaining use
    and an expiry in the future, and a redemption of the same code in the
    same world by an identity that has not redeemed yet (no stored
    redemption carries the address, lower-cased and trimmed) succeeds,
    provided the lock is free and the client accepts the lock and the
    invalidation commands.  Code and address are ASCII strings. *)
Theorem valid_then_redeemable (alphabet salt : list ascii) (w : World) (c : list ascii)
        (userEmail ip lockId : string) (remaining validUntil : Z) :
  Js.isAscii c = true -> isAsciiString userEmail = true ->
  validateInvite alphabet salt w c = IsValid remaining validUntil ->
  redisFails w SET = false -> redisFails w DEL = false ->
  live (locks w) (Js.toUpperCase c) (now w) = None ->
  (forall d, In d (invites w) ->
             ~ In (normalizeEmail userEmail) (map email (usedBy d))) ->
  1 <= remaining /\ now w < validUntil /\
  isOk (fst (useInvite alphabet salt w c userEmail ip lockId)) = true.
Proof.
  intros _ _ Hvalid Hset Hdel Hfree Hnew. apply findOneUsedBy_fresh in Hnew.
  unfold validateInvite in Hvalid.
  destruct (isValidFormat alphabet salt (Js.toUpperCase c)) eqn:Hv;
    [cbn [negb] in Hvalid | discriminate Hvalid].
  assert (Hload : exists invite,
             loadInvite w (Js.toUpperCase c) = Some invite /\
             c_currentUses invite < c_maxUses invite /\
             now w < c_expiresAt invite /\
             remaining = c_maxUses invite - c_currentUses invite /\
             validUntil = c_expiresAt invite).
  { unfold loadInvite.
    destruct (getFromCache w (Js.toUpperCase c)) as [cached|].
    - destruct (c_isActive cached); [cbn [negb] in Hvalid | discriminate Hvalid].
      destruct (Z.geb_spec (c_currentUses cached) (c_maxUses cached));
        [discriminate Hvalid|].
      destruct (Z.leb_spec (c_expiresAt cached) (now w)); [discriminate Hvalid|].
      injection Hvalid as <- <-. exists cached. repeat split; [lia | lia].
    - destruct (findOneByCode (invites w) (Js.toUpperCase c)) as [d|] eqn:Ed;
        [cbn [option_map] in Hvalid | discriminate Hvalid].
      destruct (c_isActive (toCached d)) eqn:Ea; [cbn [negb] in Hvalid | discriminate Hvalid].
      destruct (Z.geb_spec (c_currentUses (toCached d)) (c_maxUses (toCached d)));
        [discriminate Hvalid|].
      destruct (Z.leb_spec (c_expiresAt (toCached d)) (now w)); [discriminate Hvalid|].
      injection Hvalid as <- <-. exists (toCached d).
      rewrite (findOneActive_of_code _ _ _ Ed Ea). repeat split; [lia | lia]. }
  destruct Hload as (invite & Hload & Huses & Hexp & -> & ->).
  split; [lia|]. split; [exact Hexp|].
  rewrite (useInvite_locked alphabet salt w c userEmail ip lockId Hv Hset Hfree).
  unfold redeemLocked.
  change (loadInvite (withLocks w _) (Js.toUpperCase c))
    with (loadInvite w (Js.toUpperCase c)).
  rewrite Hload. cbn [invites now withLocks].
  destruct (Z.geb_spec (c_currentUses invite) (c_maxUses invite)); [lia|].
  destruct (Z.gtb_spec (now w) (c_expiresAt invite)); [lia|].
  rewrite Hnew. destruct (findByIdAndUpdate _ _ _ _) as [l upd].
  cbn [redisFails withInvites withLocks]. rewrite Hdel. reflexivity.
Qed.

(** The invite with two uses, redeemed once by user@test.com, is still
    valid, and another address can redeem it. *)
Lemma valid_then_redeemable_witness :
  1 <= 1 /\ now worldRedeemedOnce < 1702592000000 /\
  isOk (fst (useInvite testAlphabet testSalt worldRedeemedOnce (Js.str "kkk5-kkkk")
               " Other@Test.com " "127.0.0.1" "uuid-2")) = true.
Proof.
  apply (valid_then_redeemable testAlphabet testSalt worldRedeemedOnce (Js.str "kkk5-kkkk")
           " Other@Test.com " "127.0.0.1" "uuid-2" 1 1702592000000);
    try reflexivity.
  vm_compute. intros d [<-|[]] [E|[]]. discriminate E.
Defined.

(** X15. A freshly issued invite can be looked up and validates: when
    [createInvite] succeeds (usable alphabet, a positive number of days), the
    new record is the one found under its code, it is what a redemption would
    load, and [validateInvite] on its code answers valid with all [maxUses]
    uses remaining and the record's expiry. *)
Theorem issued_invite_is_valid (alphabet salt : list ascii) (w : World)
        (referrer : string) (maxU days : Z) (inv : Invite) :
  alphabetOk alphabet = true -> 0 < days ->
  fst (createInvite alphabet salt w referrer maxU days) = Ok inv ->
  let w' := snd (createInvite alphabet salt w referrer maxU days) in
  findOneByCode (invites w') (code inv) = Some inv /\
  loadInvite w' (code inv) = Some (toCached inv) /\
  validateInvite alphabet salt w' (code inv) = IsValid maxU (expiresAt inv).
Proof.
  intros Hok Hdays Hres w'. subst w'.
  destruct (createInvite_outcome alphabet salt w referrer maxU days)
    as [(Hn & Hf & _ & _) [(_ & _ & Hfail)|(k & inv' & Hfree & Hinv & Hvalid & Hl & _ & Hc)]].
  { rewrite Hres in Hfail. discriminate. }
  destruct Hc as [(Hsetex & Hr & Hcache)|(_ & Hr & _)]; [|congruence].
  rewrite Hres in Hr. injection Hr as <-.
  set (w' := snd (createInvite alphabet salt w referrer maxU days)) in *.
  assert (Hcode : code inv = candidate alphabet salt w k) by (rewrite Hinv; reflexivity).
  assert (Hfind : findOneByCode (invites w') (code inv) = Some inv).
  { rewrite Hl. apply findOneByCode_app_new. rewrite Hcode.
    destruct (findOneByCode (invites w) (candidate alphabet salt w k)) eqn:Ef;
      [|reflexivity].
    exfalso. apply Hfree, findOneByCode_In. rewrite Ef. discriminate. }
  assert (Hget : getFromCache w' (code inv) = Some (toCached inv) \/
                 getFromCache w' (code inv) = None).
  { unfold getFromCache. destruct (redisFails w' GET); [right; reflexivity|].
    left. rewrite Hcache, Hn. apply live_insert_same. lia. }
  assert (Hactive : isActive inv = true) by (rewrite Hinv; reflexivity).
  assert (Hload : loadInvite w' (code inv) = Some (toCached inv)).
  { unfold loadInvite. destruct Hget as [->| ->]; [reflexivity|].
    now rewrite (findOneActive_of_code _ _ _ Hfind Hactive). }
  split; [exact Hfind|]. split; [exact Hload|].
  unfold validateInvite, isValidFormat.
  destruct (generate_normal alphabet salt (randomBytes w (drawn w + k)) Hok) as [Hup Hv].
  fold (candidate alphabet salt w k) in Hup, Hv. rewrite <- Hcode in Hup, Hv.
  rewrite Hup, Hv. cbn [negb].
  assert (Hsome : match getFromCache w' (code inv) with
                  | Some cached => Some cached
                  | None => option_map toCached (findOneByCode (invites w') (code inv))
                  end = Some (toCached inv))
    by (destruct Hget as [->| ->]; [reflexivity | now rewrite Hfind]).
  rewrite Hsome.
  unfold schemaValid in Hvalid.
  apply andb_prop in Hvalid as [Hvalid _].
  apply andb_prop in Hvalid as [_ Hmax]. apply Z.leb_le in Hmax.
  rewrite Hn. rewrite Hinv in *. cbn [toCached c_isActive c_currentUses c_maxUses
                                     c_expiresAt isActive currentUses maxUses expiresAt negb] in *.
  destruct (Z.geb_spec 0 maxU); [lia|].
  destruct (Z.leb_spec (now w + days * 24 * 60 * 60 * 1000) (now w)); [lia|].
  now rewrite Z.sub_0_r.
Qed.

Lemma issued_invite_is_valid_witness :
  exists inv,
    fst (issue world0 "admin@test.com" 3 30) = Ok inv /\
    validateInvite testAlphabet testSalt (snd (issue world0 "admin@test.com" 3 30)) (code inv)
      = IsValid 3 (expiresAt inv).
Proof.
  eexists. split; [vm_compute; reflexivity|].
  apply (issued_invite_is_valid testAlphabet testSalt world0 "admin@test.com" 3 30);
    [reflexivity | lia | reflexivity].
Defined.

(** ** Consistency of the store *)

Section Consistency.

Variable alphabet : list ascii.
Variable salt : list ascii.

(** Consistency speaks of the collection, the cache and the identifier
    counter only. *)
Lemma consistent_same (w w' : World) :
  invites w' = invites w -> cache w' = cache w -> (nextId w <= nextId w')%nat ->
  Consistent w -> Consistent w'.
Proof.
  intros Hi Hc Hn [H1 H2 H3 H4 H5 H6].
  split; rewrite ?Hi, ?Hc; try assumption.
  eapply List.Forall_impl; [|exact H3]. intros d Hd. cbn in Hd. lia.
Qed.

Lemma emails_None (l : list Invite) (userEmail : string) :
  findOneUsedBy l userEmail = None ->
  ~ In (normalizeEmail userEmail) (concat (map (fun d => map email (usedBy d)) l)).
Proof.
  intros Hnone Hin. apply in_concat in Hin as (es & Hes & Hin).
  apply in_map_iff in Hes as (d & <- & Hd).
  exact (findOneUsedBy_None l userEmail d Hnone Hd Hin).
Qed.

(** With unique identifiers, two stored records with the same identifier
    are the same record. *)
Lemma same_id_same_record (l : list Invite) (d d' : Invite) :
  List.NoDup (map _id l) -> In d l -> In d' l -> _id d = _id d' -> d = d'.
Proof.
  induction l as [|x r IH]; [intros _ []|].
  cbn [map]. intros Hnd Hd Hd' Hid. apply List.NoDup_cons_iff in Hnd as [Hx Hnd].
  destruct Hd as [->|Hd], Hd' as [->|Hd'].
  - reflexivity.
  - exfalso. apply Hx. rewrite Hid. now apply in_map.
  - exfalso. apply Hx. rewrite <- Hid. now apply in_map.
  - now apply IH.
Qed.

(** In a consistent world the loaded record is the image of the stored
    record of the code. *)
Lemma load_stands_for (w : World) (c : list ascii) (invite : Cached) :
  Consistent w -> loadInvite w c = Some invite ->
  exists d, In d (invites w) /\ code d = c /\ toCached d = invite.
Proof.
  intros Hcons. unfold loadInvite, getFromCache.
  destruct (redisFails w GET).
  - destruct (findOneActive (invites w) c) as [d|] eqn:E; [|discriminate].
    cbn. intros [= <-]. apply findOneActive_Some in E as (Hin & Hc & _). eauto.
  - unfold live. destruct (cache w !! c) as [[cached t]|] eqn:Ec.
    + destruct (now w <? t).
      * intros [= <-]. exact (cons_cache w Hcons c cached t Ec).
      * destruct (findOneActive (invites w) c) as [d|] eqn:E; [|discriminate].
        cbn. intros [= <-]. apply findOneActive_Some in E as (Hin & Hc & _). eauto.
    + destruct (findOneActive (invites w) c) as [d|] eqn:E; [|discriminate].
      cbn. intros [= <-]. apply findOneActive_Some in E as (Hin & Hc & _). eauto.
Qed.

Lemma consistent_createInvite (w : World) (referrer : string) (maxU days : Z) :
  Consistent w ->
  Consistent (snd (createInvite alphabet salt w referrer maxU days)).
Proof.
  intros Hcons.
  destruct (createInvite_outcome alphabet salt w referrer maxU days)
    as [(_ & _ & _ & Hnext)
          [(Hi & Hc & _)|(k & inv & Hfree & Hinv & Hvalid & Hl & Hn & Hcache)]].
  { exact (consistent_same w _ Hi Hc Hnext Hcons). }
  set (w' := snd (createInvite alphabet salt w referrer maxU days)) in *.
  destruct Hcons as [H1 H2 H3 H4 H5 H6].
  assert (Hcode : ~ In (code inv) (map code (invites w))).
  { rewrite Hinv. cbn [code]. exact Hfree. }
  assert (Hid : ~ In (_id inv) (map _id (invites w))).
  { intros Hin. apply in_map_iff in Hin as (d & Hd & Hin).
    rewrite List.Forall_forall in H3. specialize (H3 d Hin). cbn in H3.
    rewrite Hinv in Hd. cbn [_id] in Hd. lia. }
  split; rewrite ?Hl, ?Hn.
  - rewrite map_app. cbn [map]. apply List.NoDup_app; [exact H1 | repeat constructor; auto |].
    intros a Ha [<-|[]]. contradiction.
  - rewrite map_app. cbn [map]. apply List.NoDup_app; [exact H2 | repeat constructor; auto |].
    intros a Ha [<-|[]]. contradiction.
  - apply Forall_app. split.
    + eapply List.Forall_impl; [|exact H3]. intros d Hd. cbn in Hd. lia.
    + constructor; [|constructor]. rewrite Hinv. cbn [_id]. lia.
  - apply Forall_app. split; [exact H4|]. constructor; [|constructor].
    unfold schemaValid in Hvalid. apply andb_prop in Hvalid as [Hvalid _].
    apply andb_prop in Hvalid as [_ Hmax].
    apply Z.leb_le in Hmax. rewrite Hinv in Hmax |- *.
    cbn [currentUses maxUses isActive usedBy length] in Hmax |- *.
    repeat split; lia.
  - rewrite map_app, concat_app. cbn [map concat]. rewrite Hinv. cbn [usedBy map app].
    rewrite app_nil_r. exact H5.
  - intros c cached t Hlook.
    assert (Hold : cache w !! c = Some (cached, t) ->
                   exists d, In d (invites w ++ [inv]) /\ code d = c /\ toCached d = cached).
    { intros Hc. destruct (H6 c cached t Hc) as (d & Hd & Hdc & Hdt).
      exists d. split; [apply in_or_app; left; exact Hd | auto]. }
    destruct Hcache as [(_ & _ & Hc)|(_ & _ & Hc)]; rewrite Hc in Hlook; [|auto].
    destruct (decide (code inv = c)) as [E|E].
    + rewrite E, lookup_insert_eq in Hlook. injection Hlook as <- <-.
      exists inv. split; [apply in_or_app; right; left; reflexivity | auto].
    + rewrite lookup_insert_ne in Hlook by exact E. auto.
Qed.

Lemma consistent_useInvite (w : World) (c : list ascii) (userEmail ip lockId : string) :
  Consistent w -> redisFails w DEL = false ->
  Consistent (snd (useInvite alphabet salt w c userEmail ip lockId)).
Proof.
  intros Hcons Hdel.
  destruct (useInvite_outcome alphabet salt w c userEmail ip lockId)
    as [(_ & _ & Hnext)
          [(Hi & Hc & _)|(invite & l' & upd & _ & Hload & Huses & _ & Hnew & Hupd & Hl & Hres)]].
  { apply (consistent_same w _ Hi Hc); [lia | exact Hcons]. }
  set (w' := snd (useInvite alphabet salt w c userEmail ip lockId)) in *.
  destruct Hres as [(_ & _ & Hcache)|(Hbad & _)]; [|congruence].
  destruct (load_stands_for w _ invite Hcons Hload) as (d & Hd & Hdc & Hdt).
  pose proof (findByIdAndUpdate_spec (invites w) (c_id invite)
                {| email := normalizeEmail userEmail; usedAt := now w; ipAddress := ip |}
                (c_currentUses invite + 1 <? c_maxUses invite)) as Hspec.
  rewrite Hupd in Hspec.
  destruct Hcons as [H1 H2 H3 H4 H5 H6].
  destruct upd as [u|].
  2:{ destruct Hspec as [Hsame Hnone]. exfalso.
      rewrite List.Forall_forall in Hnone. apply (Hnone d Hd).
      rewrite <- Hdt. reflexivity. }
  destruct Hspec as (l1 & old & l2 & Hsplit & Hl' & Hu & Hid & _).
  assert (Hold : old = d).
  { apply (same_id_same_record (invites w)); try assumption.
    - rewrite Hsplit. apply in_or_app. right. left. reflexivity.
    - rewrite Hid, <- Hdt. reflexivity. }
  subst old.
  assert (Hcur : c_currentUses invite = currentUses d) by (rewrite <- Hdt; reflexivity).
  assert (Hmax : c_maxUses invite = maxUses d) by (rewrite <- Hdt; reflexivity).
  rewrite Hcur, Hmax in *.
  rewrite Hsplit in H1, H2, H3, H4, H5.
  assert (Hwl : invites w' = l1 ++ u :: l2) by congruence.
  split; rewrite ?Hwl, ?Hnext.
  - rewrite map_app in *. cbn [map] in *. rewrite Hu. exact H1.
  - rewrite map_app in *. cbn [map] in *. rewrite Hu. exact H2.
  - apply Forall_app in H3 as [Ha Hb]. apply Forall_app. split; [exact Ha|].
    inversion Hb; subst. constructor; assumption.
  - apply Forall_app in H4 as [Ha Hb]. apply Forall_app. split; [exact Ha|].
    inversion Hb as [|? ? Hdd Hrest]; subst. constructor; [|exact Hrest].
    cbn [applyUse currentUses maxUses isActive usedBy].
    destruct Hdd as (Hrange & Hact & Hlen).
    rewrite length_app. cbn [length]. repeat split; lia.
  - rewrite map_app, concat_app in *. cbn [map concat] in *.
    rewrite Hu. cbn [applyUse usedBy]. rewrite map_app. cbn [map].
    rewrite <- app_assoc. cbn [app].
    pose proof (emails_None (invites w) userEmail Hnew) as Hfresh.
    rewrite Hsplit, map_app, concat_app in Hfresh. cbn [map concat] in Hfresh.
    rewrite app_assoc in Hfresh, H5 |- *.
    apply (List.NoDup_Add (Add_app (normalizeEmail userEmail) _ _)). split; assumption.
  - intros c' cached t Hlook. rewrite Hcache in Hlook.
    apply lookup_delete_Some in Hlook as [Hne Hlook].
    destruct (H6 c' cached t Hlook) as (d' & Hd' & Hdc' & Hdt').
    exists d'. split; [|auto].
    rewrite Hsplit in Hd'. apply in_app_or in Hd' as [Hin|[->|Hin]].
    + apply in_or_app. left. exact Hin.
    + congruence.
    + apply in_or_app. right. right. exact Hin.
Qed.

Lemma consistent_fresh (t : Z) (bytes : nat -> nat -> byte) :
  Consistent (freshWorld t bytes).
Proof.
  split; cbn; try constructor.
  intros c cached t' H. rewrite lookup_empty in H. discriminate.
Qed.

End Consistency.

(** X16. Both operations keep the store consistent.  In a world where
    codes and identifiers are unique, every counter lies between 0 and its
    maximum, counts its redemption entries and decides the active flag, no
    identity has redeemed twice, and every cache entry mirrors the stored
    record of its code, the same holds after [createInvite], whatever it
    returns and whatever the client rejects; and after [useInvite], whatever
    it returns, as long as the client does not reject the cache
    invalidation. *)
Theorem operations_keep_consistency (alphabet salt : list ascii) (w : World) :
  Consistent w ->
  (forall referrer maxU days,
      Consistent (snd (createInvite alphabet salt w referrer maxU days))) /\
  (redisFails w DEL = false ->
   forall c userEmail ip lockId,
     Consistent (snd (useInvite alphabet salt w c userEmail ip lockId))).
Proof.
  intros Hcons. split.
  - intros referrer maxU days. now apply consistent_createInvite.
  - intros Hdel c userEmail ip lockId. now apply consistent_useInvite.
Qed.

Lemma operations_keep_consistency_witness :
  Consistent (snd (createInvite testAlphabet testSalt world0 "admin@test.com" 1 30)).
Proof.
  apply (operations_keep_consistency testAlphabet testSalt world0).
  apply consistent_fresh.
Defined.

Section Histories.

Variable alphabet : list ascii.
Variable salt : list ascii.

Lemma history_consistent (events : list Event) (w : World) :
  Consistent w -> redisFails w DEL = false ->
  Forall invalidationWorks events ->
  Consistent (history alphabet salt w events) /\
  redisFails (history alphabet salt w events) DEL = false.
Proof.
  unfold history. revert w.
  induction events as [|e events IH]; intros w Hcons Hdel Hall; [auto|].
  inversion Hall as [|? ? He Hrest]; subst. cbn [fold_left].
  apply IH; [| |exact Hrest]; destruct e as [referrer maxU days|c userEmail ip lockId|t|fails];
    cbn [happen invalidationWorks] in *.
  - now apply consistent_createInvite.
  - now apply consistent_useInvite.
  - apply (consistent_same w); [reflexivity | reflexivity | cbn; lia | exact Hcons].
  - apply (consistent_same w); [reflexivity | reflexivity | cbn; lia | exact Hcons].
  - destruct (createInvite_outcome alphabet salt w referrer maxU days) as [(_ & -> & _) _].
    exact Hdel.
  - destruct (useInvite_outcome alphabet salt w c userEmail ip lockId) as [(_ & -> & _) _].
    exact Hdel.
  - exact Hdel.
  - exact He.
Qed.

End Histories.

(** X17. No over-redemption and one redemption per identity, over the
    whole life of a deployment: starting from an empty store, after any
    sequence of issues and redemptions (served one after the other), with
    the clock and the Redis client changing in any way that never rejects
    the cache invalidation, the store is consistent; in particular every
    record has [0 <= currentUses <= maxUses], is active exactly when
    [currentUses < maxUses], and no identity appears twice in the redemption
    lists of the collection. *)
Theorem deployment_stays_consistent (alphabet salt : list ascii) (t : Z)
        (bytes : nat -> nat -> byte) (events : list Event) :
  Forall invalidationWorks events ->
  let w := history alphabet salt (freshWorld t bytes) events in
  Consistent w /\
  Forall (fun d => 0 <= currentUses d <= maxUses d /\
                   isActive d = (currentUses d <? maxUses d)) (invites w) /\
  List.NoDup (concat (map (fun d => map email (usedBy d)) (invites w))).
Proof.
  intros Hall w.
  destruct (history_consistent alphabet salt events (freshWorld t bytes)
              (consistent_fresh t bytes) eq_refl Hall) as [Hcons _].
  fold w in Hcons. split; [exact Hcons|]. split.
  - eapply List.Forall_impl; [|exact (cons_counts w Hcons)].
    intros d (Hr & Ha & _). auto.
  - exact (cons_identities w Hcons).
Qed.

Lemma deployment_stays_consistent_witness :
  let w := history testAlphabet testSalt (freshWorld 1700000000000 (fun _ => constBytes x00))
             [Issued "admin@test.com" 1 30;
              Redeemed testCode "user@test.com" "127.0.0.1" "uuid-1";
              ClockReads 1700000060000;
              Redeemed testCode "other@test.com" "127.0.0.1" "uuid-2"] in
  Consistent w /\
  Forall (fun d => 0 <= currentUses d <= maxUses d /\
                   isActive d = (currentUses d <? maxUses d)) (invites w) /\
  List.NoDup (concat (map (fun d => map email (usedBy d)) (invites w))).
Proof.
  apply (deployment_stays_consistent testAlphabet testSalt 1700000000000
           (fun _ => constBytes x00)).
  repeat constructor.
Defined.

(** ** A stale cache entry *)

Lemma findByIdAndUpdate_hit (l1 l2 : list Invite) (d : Invite) (u : UsedBy) (active : bool) :
  Forall (fun x => _id x <> _id d) l1 ->
  findByIdAndUpdate (l1 ++ d :: l2) (_id d) u active =
  (l1 ++ applyUse d u active :: l2, Some (applyUse d u active)).
Proof.
  induction 1 as [|x r Hx _ IH]; cbn [app findByIdAndUpdate].
  - now rewrite bool_decide_eq_true_2.
  - rewrite bool_decide_eq_false_2 by exact Hx. now rewrite IH.
Qed.

(** X18. The limit is checked on the cached counters, not on the stored
    ones: when the cache holds a live entry for the code whose counters are
    below the maximum and whose expiry has not passed, a redemption by a new
    identity (no stored redemption carries the address, lower-cased and
    trimmed) increments the stored record's [currentUses] even if the stored
    record is already used up, and the record then exceeds its maximum.
    (Such an entry is what a rejected cache invalidation leaves behind.)
    Code and address are ASCII strings. *)
Theorem stale_cache_over_redeems (alphabet salt : list ascii) (w : World) (c : list ascii)
        (userEmail ip lockId : string) (cached : Cached) (t : Z)
        (l1 l2 : list Invite) (d : Invite) :
  Js.isAscii c = true -> isAsciiString userEmail = true ->
  isValidFormat alphabet salt (Js.toUpperCase c) = true ->
  redisFails w SET = false -> redisFails w GET = false ->
  live (locks w) (Js.toUpperCase c) (now w) = None ->
  cache w !! Js.toUpperCase c = Some (cached, t) -> now w < t ->
  c_currentUses cached < c_maxUses cached -> now w <= c_expiresAt cached ->
  (forall d', In d' (invites w) ->
              ~ In (normalizeEmail userEmail) (map email (usedBy d'))) ->
  invites w = l1 ++ d :: l2 -> Forall (fun x => _id x <> _id d) l1 ->
  c_id cached = _id d ->
  maxUses d <= currentUses d ->
  exists u,
    invites (snd (useInvite alphabet salt w c userEmail ip lockId)) = l1 ++ u :: l2 /\
    currentUses u = currentUses d + 1 /\ maxUses u = maxUses d /\
    maxUses u < currentUses u.
Proof.
  intros _ _ Hv Hset Hget Hfree Hcache Hlive Huses Hexp Hnew Hsplit Hl1 Hid Hfull.
  apply findOneUsedBy_fresh in Hnew. unfold useInvite. rewrite Hv, Hset, Hfree. cbn [negb].
  unfold redeemLocked, loadInvite, getFromCache, live.
  cbn [redisFails cache now invites withLocks]. rewrite Hget, Hcache.
  destruct (Z.ltb_spec (now w) t) as [_|?]; [|lia].
  destruct (Z.geb_spec (c_currentUses cached) (c_maxUses cached)); [lia|].
  destruct (Z.gtb_spec (now w) (c_expiresAt cached)); [lia|].
  rewrite Hnew, Hsplit, Hid, (findByIdAndUpdate_hit l1 l2 d _ _ Hl1).
  set (u := applyUse d _ _).
  exists u.
  assert (Hu : currentUses u = currentUses d + 1 /\ maxUses u = maxUses d) by (split; reflexivity).
  destruct Hu as [Hu1 Hu2].
  split; [|split; [exact Hu1 | split; [exact Hu2 | lia]]].
  cbn [redisFails withInvites withLocks].
  destruct (redisFails w DEL); cbn [snd]; rewrite releaseLock_invites; reflexivity.
Qed.

Lemma stale_cache_over_redeems_witness :
  exists u,
    invites (snd (useInvite testAlphabet testSalt worldStaleCache testCode
                    "Other@Test.com" "127.0.0.1" "uuid-2")) = [] ++ u :: [] /\
    currentUses u = currentUses usedUpRecord + 1 /\ maxUses u = maxUses usedUpRecord /\
    maxUses u < currentUses u.
Proof.
  apply (stale_cache_over_redeems testAlphabet testSalt worldStaleCache testCode
           "Other@Test.com" "127.0.0.1" "uuid-2"
           (cachedRecord 0 1 1702592000000) 1700086400000 [] [] usedUpRecord);
    try reflexivity; try (vm_compute; congruence).
  - vm_compute. intros d' [<-|[]] [E|[]]. discriminate E.
  - constructor.
Defined.

(** ** Statistics: what the figures can be *)

Section StatsBounds.

Lemma filter_disjoint_length {A} (f g : A -> bool) (l : list A) :
  (forall x, f x && g x = false) ->
  (length (List.filter f l) + length (List.filter g l) <= length l)%nat.
Proof.
  intros Hfg. induction l as [|x r IH]; [cbn; lia|].
  cbn [List.filter length]. specialize (Hfg x).
  destruct (f x), (g x); cbn [length] in *; try discriminate; lia.
Qed.

Lemma filter_length_le {A} (f : A -> bool) (l : list A) :
  (length (List.filter f l) <= length l)%nat.
Proof.
  induction l as [|x r IH]; [cbn; lia|].
  cbn [List.filter length]. destruct (f x); cbn [length]; lia.
Qed.

Lemma ratio_range (d : Invite) :
  0 <= currentUses d <= maxUses d -> 1 <= maxUses d ->
  (0 <= inject_Z (currentUses d) / inject_Z (maxUses d) <= 1)%Q.
Proof.
  intros Hr Hm.
  assert (Hpos : (0 < inject_Z (maxUses d))%Q).
  { change 0%Q with (inject_Z 0). rewrite <- Zlt_Qlt. lia. }
  split.
  - apply Qle_shift_div_l; [exact Hpos|]. rewrite Qmult_0_l.
    change 0%Q with (inject_Z 0). rewrite <- Zle_Qle. lia.
  - apply Qle_shift_div_r; [exact Hpos|]. rewrite Qmult_1_l.
    rewrite <- Zle_Qle. lia.
Qed.

Lemma ratioSum_range (l : list Invite) :
  Forall (fun d => 0 <= currentUses d <= maxUses d /\ 1 <= maxUses d) l ->
  (0 <= ratioSum l <= inject_Z (Z.of_nat (length l)))%Q.
Proof.
  induction 1 as [|d r [Hr Hm] _ IH]; cbn [ratioSum length].
  - split; apply Qle_refl.
  - destruct (ratio_range d Hr Hm) as [H0 H1]. destruct IH as [IH0 IH1].
    rewrite Nat2Z.inj_succ, <- Z.add_1_l, inject_Z_plus.
    split.
    + rewrite <- (Qplus_0_l 0). apply Qplus_le_compat; assumption.
    + apply Qplus_le_compat; assumption.
Qed.

End StatsBounds.

(** X19. The figures of [getInviteStats] are coherent: no record is
    counted both as active and as expired, so active + expired never exceeds
    the total, nor does the number of fully used records; and when every
    record of the creator has [0 <= currentUses <= maxUses] and
    [maxUses >= 1], the usage rate is a finite number between 0 and 100. *)
Theorem stats_are_coherent (w : World) (referrer : string) :
  let s := getInviteStats w referrer in
  (activeInvites s + expiredInvites s <= totalInvites s)%nat /\
  (fullyUsedInvites s <= totalInvites s)%nat /\
  (Forall (fun d => 0 <= currentUses d <= maxUses d /\ 1 <= maxUses d)
          (findByReferrer (invites w) referrer) ->
   exists q, averageUsageRate s = Some q /\ (0 <= q <= 100)%Q).
Proof.
  intros s. subst s. unfold getInviteStats.
  cbn [totalInvites activeInvites expiredInvites fullyUsedInvites averageUsageRate].
  set (l := findByReferrer (invites w) referrer).
  split; [|split].
  - apply filter_disjoint_length. intros d.
    destruct (isActive d); [cbn [andb]|reflexivity].
    destruct (Z.gtb_spec (expiresAt d) (now w)), (Z.leb_spec (expiresAt d) (now w));
      try reflexivity; lia.
  - apply filter_length_le.
  - intros Hall.
    destruct (0 <? length l)%nat eqn:Elen.
    2:{ exists 0%Q. split; [reflexivity|]. split; [apply Qle_refl | discriminate]. }
    apply Nat.ltb_lt in Elen.
    assert (Hz : existsb (fun inv => maxUses inv =? 0) l = false).
    { destruct (existsb _ l) eqn:E; [|reflexivity].
      apply existsb_exists in E as (d & Hd & Hz). apply Z.eqb_eq in Hz.
      rewrite List.Forall_forall in Hall. specialize (Hall d Hd). lia. }
    rewrite Hz. eexists. split; [reflexivity|].
    destruct (ratioSum_range l Hall) as [H0 H1].
    assert (Hn : (0 < inject_Z (Z.of_nat (length l)))%Q).
    { change 0%Q with (inject_Z 0). rewrite <- Zlt_Qlt. lia. }
    rewrite fold_ratio, Qplus_0_l.
    split.
    + apply Qmult_le_0_compat; [|discriminate].
      apply Qle_shift_div_l; [exact Hn|]. now rewrite Qmult_0_l.
    + apply Qle_trans with (1 * inject_Z 100)%Q; [|discriminate].
      apply Qmult_le_compat_r; [|discriminate].
      apply Qle_shift_div_r; [exact Hn|]. now rewrite Qmult_1_l.
Qed.

Lemma stats_are_coherent_witness :
  exists q,
    averageUsageRate (getInviteStats (snd (issue world0 "admin@test.com" 2 30))
                        "admin@test.com") = Some q /\ (0 <= q <= 100)%Q.
Proof.
  apply (stats_are_coherent (snd (issue world0 "admin@test.com" 2 30)) "admin@test.com").
  vm_compute. constructor; [|constructor]. split; [split|]; discriminate.
Defined.


(** ** The rate limiter *)

Lemma ceilSeconds_covers (x : Z) : x <= ceilSeconds x * 1000.
Proof.
  unfold ceilSeconds.
  pose proof (Z.mul_div_le (- x) 1000 ltac:(lia)). lia.
Qed.

Section SortedSetFacts.

Variable r : gmap string KeyState.
Variable key : string.
Variable t : Z.

Lemma liveMembers_writeMembers (ms : list (Member * Z)) :
  liveMembers (writeMembers r key t ms) key t = ms.
Proof.
  unfold liveMembers, writeMembers. destruct ms as [|m ms].
  - now rewrite lookup_delete_eq.
  - rewrite lookup_insert_eq. cbn [expiry members].
    unfold liveExpiry. destruct (r !! key) as [ks|]; [|reflexivity].
    destruct (expiry ks) as [e|]; [|reflexivity].
    destruct (t <? e) eqn:E; [|reflexivity]. now rewrite E.
Qed.

Lemma stored_writeMembers (ms : list (Member * Z)) :
  stored (writeMembers r key t ms) key = ms.
Proof.
  unfold stored, writeMembers. destruct ms as [|m ms].
  - now rewrite lookup_delete_eq.
  - now rewrite lookup_insert_eq.
Qed.

Lemma writeMembers_other (ms : list (Member * Z)) (k : string) :
  k <> key -> writeMembers r key t ms !! k = r !! k.
Proof.
  intros Hk. unfold writeMembers. destruct ms.
  - now rewrite lookup_delete_ne.
  - now rewrite lookup_insert_ne.
Qed.

Lemma expire_other (seconds : Z) (k : string) :
  k <> key -> expire r key t seconds !! k = r !! k.
Proof.
  intros Hk. unfold expire. destruct (liveMembers r key t); [reflexivity|].
  now rewrite lookup_insert_ne.
Qed.

Lemma liveMembers_stored : liveMembers r key t = stored r key \/ liveMembers r key t = [].
Proof.
  unfold liveMembers, stored. destruct (r !! key) as [ks|]; [|now left].
  destruct (expiry ks); [|now left]. destruct (t <? z); [now left|now right].
Qed.

End SortedSetFacts.

Lemma filter_narrow {A} (p q : A -> bool) (l : list A) :
  (forall a, p a = true -> q a = true) ->
  List.filter p (List.filter q l) = List.filter p l.
Proof.
  intros Hpq. induction l as [|a l IH]; [reflexivity|]. cbn.
  destruct (q a) eqn:Eq; cbn.
  - now rewrite IH.
  - destruct (p a) eqn:Ep; [|exact IH]. apply Hpq in Ep. congruence.
Qed.

Lemma filter_none {A} (p : A -> bool) (l : list A) :
  (forall a, In a l -> p a = false) -> List.filter p l = [].
Proof.
  intros H. induction l as [|a l IH]; [reflexivity|]. cbn.
  rewrite (H a) by now left. apply IH. intros b Hb. apply H. now right.
Qed.

Lemma filter_scored (lo : Z) (l : list Member) :
  List.filter (fun e : Member * Z => negb (snd e <=? lo)) (map scored l)
  = map scored (List.filter (fun a => lo <? fst a) l).
Proof.
  induction l as [|a l IH]; [reflexivity|]. cbn.
  rewrite IH.
  destruct (Z.leb_spec (fst a) lo), (Z.ltb_spec lo (fst a)); cbn; (reflexivity || lia).
Qed.

Lemma app_one_split {A} (l pre post : list A) (x y : A) :
  l ++ [x] = pre ++ y :: post ->
  (post = [] /\ pre = l /\ y = x)
  \/ exists post', post = post' ++ [x] /\ l = pre ++ y :: post'.
Proof.
  intros H. destruct post as [|p post] using rev_ind.
  - left. apply app_inj_tail in H as [-> ->]. auto.
  - right. exists post.
    change (pre ++ y :: post ++ [p]) with (pre ++ (y :: post) ++ [p]) in H.
    rewrite app_assoc in H. apply app_inj_tail in H as [-> ->]. auto.
Qed.


Section LimiterFacts.

Variable o : Limits.
Variable req : Client.

Lemma existsb_fresh (m : Member) (l : list (Member * Z)) :
  ~ In m (map fst l) -> existsb (fun e => bool_decide (fst e = m)) l = false.
Proof.
  intros H. induction l as [|x l IH]; [reflexivity|]. cbn.
  rewrite bool_decide_eq_false_2; [apply IH|]; intros E; apply H; cbn; auto.
Qed.

(** One request served by a healthy Redis, in terms of the members of the
    client's key that are younger than the window. *)
Lemma rateLimiter_healthy (r : gmap string KeyState) (now : Z) (rnd : N) :
  let key := limiterKey o req in
  let kept := List.filter (fun e : Member * Z => negb (snd e <=? now - windowMs o))
                          (liveMembers r key now) in
  let added := kept ++ [((now, rnd), now)] in
  ~ In (now, rnd) (map fst kept) ->
  rateLimiter o healthy r req now rnd
  = if Z.of_nat (length kept) >=? maxRequests o
    then (TooManyRequests (ceilSeconds (windowMs o)), writeMembers r key now kept)
    else (Next (Some (maxRequests o, maxRequests o - Z.of_nat (length kept) - 1,
                      now + windowMs o)),
          <[key := {| members := added;
                      expiry := Some (now + ceilSeconds (windowMs o) * 1000) |}]>
            (writeMembers (writeMembers r key now kept) key now added)).
Proof.
  intros key kept added Hfresh.
  unfold rateLimiter, healthy. cbn zeta. fold (limiterKey o req). fold key.
  unfold zcard, zremrangebyscore. fold kept.
  rewrite liveMembers_writeMembers.
  destruct (Z.of_nat (length kept) >=? maxRequests o); [reflexivity|].
  unfold zadd. rewrite liveMembers_writeMembers, (existsb_fresh _ _ Hfresh).
  fold added. unfold expire. rewrite liveMembers_writeMembers.
  unfold added at 1. destruct kept; reflexivity.
Qed.

End LimiterFacts.


Section LimiterRuns.

Variable o : Limits.
Variable req : Client.
Hypothesis Hwindow : 0 < windowMs o.

Lemma admitted_app (log : list (Member * Response)) (a : Member) (resp : Response) :
  admitted (log ++ [(a, resp)])
  = admitted log ++ match resp with Next (Some _) => [a] | _ => [] end.
Proof.
  unfold admitted. rewrite List.filter_app, map_app. cbn.
  destruct resp as [|[h|]]; reflexivity.
Qed.

Lemma admitted_logged (log : list (Member * Response)) (a : Member) :
  In a (admitted log) -> In a (map fst log).
Proof.
  unfold admitted. rewrite !in_map_iff. intros [x [E Hx]].
  apply List.filter_In in Hx as [Hx _]. eauto.
Qed.

Lemma map_fst_scored (l : list Member) : map fst (map scored l) = l.
Proof. induction l as [|a l IH]; [reflexivity|]. cbn. now rewrite IH. Qed.

Lemma live_bound (r : gmap string KeyState) (log : list (Member * Response)) (tlast t : Z)
      (x : Member * Z) :
  LimiterInv o req (r, log) tlast ->
  In x (liveMembers r (limiterKey o req) t) ->
  exists e, liveExpiry r (limiterKey o req) t = Some e /\ snd x + windowMs o <= e.
Proof.
  intros Hinv. unfold liveMembers, liveExpiry.
  destruct (r !! limiterKey o req) as [ks|] eqn:Er; [|intros []].
  destruct (inv_expiry _ _ _ _ Hinv ks Er) as [e [-> Hb]].
  destruct (t <? e); [|intros []]. intros Hx. exists e. auto.
Qed.

(** The members the limiter keeps are the admitted requests of the window. *)
Lemma kept_is_window (r : gmap string KeyState) (log : list (Member * Response)) (tlast t : Z) :
  LimiterInv o req (r, log) tlast ->
  tlast <= t ->
  List.filter (fun e : Member * Z => negb (snd e <=? t - windowMs o))
              (liveMembers r (limiterKey o req) t)
  = map scored (List.filter (fun a => t - windowMs o <? fst a) (admitted log)).
Proof.
  intros Hinv Ht.
  assert (Hs : List.filter (fun e : Member * Z => negb (snd e <=? t - windowMs o))
                           (liveMembers r (limiterKey o req) t)
               = List.filter (fun e : Member * Z => negb (snd e <=? t - windowMs o))
                             (stored r (limiterKey o req))).
  { unfold liveMembers, stored.
    destruct (r !! limiterKey o req) as [ks|] eqn:Er; [|reflexivity].
    destruct (inv_expiry _ _ _ _ Hinv ks Er) as [e [-> Hb]].
    destruct (Z.ltb_spec t e); [reflexivity|].
    symmetry. apply filter_none. intros x Hx. apply Hb in Hx.
    destruct (Z.leb_spec (snd x) (t - windowMs o)); [reflexivity|lia]. }
  pose proof (inv_members _ _ _ _ Hinv) as Hm. cbn [fst snd] in Hm.
  rewrite Hs, Hm, filter_scored, filter_narrow; [reflexivity|].
  intros a Ha. apply Z.ltb_lt in Ha. apply Z.ltb_lt. lia.
Qed.

Lemma serveOne_inv (st : gmap string KeyState * list (Member * Response))
      (tlast : Z) (a : Member) :
  LimiterInv o req st tlast ->
  tlast <= fst a ->
  ~ In a (map fst (snd st)) ->
  LimiterInv o req (serveOne o req st a) (fst a).
Proof.
  destruct st as [r log], a as [t rnd]. cbn [fst snd]. intros Hinv Ht Hnew.
  pose proof (kept_is_window r log tlast t Hinv Ht) as Hkept.
  pose proof (fun x => live_bound r log tlast t x Hinv) as Hbound.
  unfold serveOne. cbn [fst snd].
  set (window := List.filter (fun a => t - windowMs o <? fst a) (admitted log)) in *.
  assert (Hfresh : ~ In (t, rnd) (map fst (map scored window))).
  { rewrite map_fst_scored. intros Hin. apply Hnew, admitted_logged.
    now apply List.filter_In in Hin as [Hin _]. }
  assert (Hold : forall x, In x (map scored window) -> snd x <= t).
  { intros x Hx. apply in_map_iff in Hx as [b [<- Hb]]. cbn.
    apply List.filter_In in Hb as [Hb _]. apply admitted_logged in Hb.
    apply (inv_times _ _ _ _ Hinv) in Hb. lia. }
  assert (Hresp : forall pre a' resp post,
             log ++ [((t, rnd), decision o (Z.of_nat (length window)) t)]
             = pre ++ (a', resp) :: post ->
             resp = decision o (admittedAfter (fst a' - windowMs o) pre) (fst a')).
  { intros pre a' resp post Hsplit.
    apply app_one_split in Hsplit as [[_ [-> E]]|[post' [_ E]]].
    - injection E as -> ->. reflexivity.
    - exact (inv_log _ _ _ _ Hinv _ _ _ _ E). }
  rewrite rateLimiter_healthy; rewrite Hkept; [|exact Hfresh].
  rewrite length_map. unfold decision in Hresp. unfold Member in *.
  destruct (Z.of_nat (length window) >=? maxRequests o) eqn:Efull.
  - constructor; cbn [fst snd].
    + intros b. rewrite map_app, in_app_iff. intros [Hb|[<-|[]]]; [|cbn; lia].
      apply (inv_times _ _ _ _ Hinv) in Hb. lia.
    + now rewrite stored_writeMembers, admitted_app, app_nil_r.
    + intros ks. unfold writeMembers.
      assert (Hlive : forall x, In x (map scored window) ->
                                In x (liveMembers r (limiterKey o req) t)).
      { intros x Hx. unfold Member in *. rewrite <- Hkept in Hx.
        now apply List.filter_In in Hx as [Hx _]. }
      unfold Member in *.
      match goal with
      | |- context [match ?l with [] => _ | _ => _ end] => set (kept := l) in *
      end.
      clearbody kept. destruct kept as [|m ms].
      * now rewrite lookup_delete_eq.
      * rewrite lookup_insert_eq. intros [= <-]. cbn [expiry members].
        destruct (Hbound m (Hlive m (or_introl eq_refl))) as [e [He _]].
        exists e. split; [exact He|]. intros x Hx.
        destruct (Hbound x (Hlive x Hx)) as [e' [He' Hle]]. congruence.
    + exact Hresp.
  - constructor; cbn [fst snd].
    + intros b. rewrite map_app, in_app_iff. intros [Hb|[<-|[]]]; [|cbn; lia].
      apply (inv_times _ _ _ _ Hinv) in Hb. lia.
    + unfold stored. rewrite lookup_insert_eq. cbn [members].
      rewrite admitted_app, List.filter_app, map_app. cbn.
      destruct (Z.ltb_spec (t - windowMs o) t); [reflexivity|lia].
    + intros ks. rewrite lookup_insert_eq. intros [= <-]. cbn [expiry members].
      eexists. split; [reflexivity|]. intros x Hx.
      pose proof (ceilSeconds_covers (windowMs o)). unfold Member in *.
      apply in_app_iff in Hx as [Hx|[<-|[]]]; [apply Hold in Hx; lia|cbn; lia].
    + exact Hresp.
Qed.

Lemma last_nonempty {A} (l : list A) (y x d : A) :
  List.last (y :: l) x = List.last (y :: l) d.
Proof.
  revert y. induction l as [|z l IH]; intros y; [reflexivity|].
  exact (IH z).
Qed.

Lemma serve_inv (arrivals : list Member)
      (st : gmap string KeyState * list (Member * Response)) (tlast : Z) :
  LimiterInv o req st tlast ->
  Sorted Z.le (tlast :: map fst arrivals) ->
  List.NoDup (map fst (snd st) ++ arrivals) ->
  LimiterInv o req (fold_left (serveOne o req) arrivals st)
             (List.last (map fst arrivals) tlast).
Proof.
  revert st tlast. induction arrivals as [|a rest IH]; intros st tlast Hinv Hs Hnd.
  - exact Hinv.
  - cbn [fold_left]. cbn [map] in Hs.
    apply Sorted_inv in Hs as [Hs Hhd]. apply HdRel_inv in Hhd.
    replace (List.last (map fst (a :: rest)) tlast) with (List.last (map fst rest) (fst a))
      by (cbn [map]; destruct (map fst rest) as [|z l];
          [reflexivity|exact (last_nonempty l z (fst a) tlast)]).
    apply IH; [|exact Hs|].
    + apply (serveOne_inv st tlast a Hinv Hhd).
      apply NoDup_remove_2 in Hnd. rewrite in_app_iff in Hnd. tauto.
    + destruct st as [r log]. unfold serveOne. cbn [fst snd] in *.
      destruct (rateLimiter o healthy r req (fst a) (snd a)) as [resp r'].
      cbn [snd]. rewrite map_app. cbn. now rewrite <- app_assoc.
Qed.

(** The responses of a run to a client whose key is new. *)
Lemma serveAll_spec (r : gmap string KeyState) (arrivals : list Member)
      (pre post : list (Member * Response)) (a : Member) (resp : Response) :
  r !! limiterKey o req = None ->
  Sorted Z.le (map fst arrivals) ->
  List.NoDup arrivals ->
  snd (serveAll o req r arrivals) = pre ++ (a, resp) :: post ->
  resp = decision o (admittedAfter (fst a - windowMs o) pre) (fst a).
Proof.
  intros Hr Hs Hnd Hlog. unfold serveAll in Hlog.
  destruct arrivals as [|a0 rest].
  { cbn in Hlog. now destruct pre. }
  assert (Hinv : LimiterInv o req (fold_left (serveOne o req) (a0 :: rest) (r, []))
                            (List.last (map fst (a0 :: rest)) (fst a0))).
  apply serve_inv.
  - constructor; cbn [fst snd].
    + intros b [].
    + unfold stored. now rewrite Hr.
    + intros ks. now rewrite Hr.
    + intros pre' b resp' post' E. now destruct pre'.
  - constructor; [exact Hs|]. constructor. cbn. lia.
  - exact Hnd.
  - exact (inv_log _ _ _ _ Hinv _ _ _ _ Hlog).
Qed.

End LimiterRuns.


Section LimiterGuarantees.

Variable o : Limits.
Variable req : Client.

(** X20. The sliding window holds: when the requests of a client whose key
    is new arrive in time order, with distinct members, and a healthy Redis
    serves them, then at every request that is let through, the requests let
    through in the last [windowMs] milliseconds, this one included, are at
    most [max]. *)
Theorem window_guarantee (r : gmap string KeyState) (arrivals : list Member)
        (pre post : list (Member * Response)) (a : Member) (h : Z * Z * Z) :
  0 < windowMs o ->
  r !! limiterKey o req = None ->
  Sorted Z.le (map fst arrivals) ->
  List.NoDup arrivals ->
  snd (serveAll o req r arrivals) = pre ++ (a, Next (Some h)) :: post ->
  admittedAfter (fst a - windowMs o) (pre ++ [(a, Next (Some h))]) <= maxRequests o.
Proof.
  intros Hw Hr Hs Hnd Hlog.
  pose proof (serveAll_spec o req Hw r arrivals pre post a _ Hr Hs Hnd Hlog) as Hd.
  unfold decision in Hd.
  destruct (Z.geb_spec (admittedAfter (fst a - windowMs o) pre) (maxRequests o)) as [|Hlt];
    [discriminate|].
  unfold admittedAfter in *. rewrite admitted_app, List.filter_app, length_app. cbn.
  unfold Member in *.
  match goal with |- context [if ?c then _ else _] => destruct c end; cbn; lia.
Qed.

Lemma serveAll_log (r : gmap string KeyState) (arrivals : list Member) :
  map fst (snd (serveAll o req r arrivals)) = arrivals.
Proof.
  unfold serveAll.
  assert (H : forall st, map fst (snd (fold_left (serveOne o req) arrivals st))
                         = map fst (snd st) ++ arrivals).
  { induction arrivals as [|a rest IH]; intros st; cbn [fold_left].
    - now rewrite app_nil_r.
    - rewrite IH. unfold serveOne.
      destruct (rateLimiter o healthy (fst st) req (fst a) (snd a)) as [resp r'].
      cbn [snd]. rewrite map_app. cbn. now rewrite <- app_assoc. }
  now rewrite H.
Qed.

(** X21. What the limiter answers: under the same conditions every request
    is answered, and the answer to each is decided by the number [n] of
    requests let through before it in the last [windowMs] milliseconds: 429
    with [retryAfter = ceil(windowMs / 1000)] when [n >= max], otherwise
    [next()] with the headers limit [max], remaining [max - n - 1] and reset
    [now + windowMs]. *)
Theorem limiter_decision (r : gmap string KeyState) (arrivals : list Member) :
  0 < windowMs o ->
  r !! limiterKey o req = None ->
  Sorted Z.le (map fst arrivals) ->
  List.NoDup arrivals ->
  map fst (snd (serveAll o req r arrivals)) = arrivals /\
  forall pre a resp post,
    snd (serveAll o req r arrivals) = pre ++ (a, resp) :: post ->
    resp = decision o (admittedAfter (fst a - windowMs o) pre) (fst a).
Proof.
  intros Hw Hr Hs Hnd. split; [apply serveAll_log|].
  intros pre a resp post. now apply serveAll_spec.
Qed.

End LimiterGuarantees.

Lemma window_guarantee_witness :
  admittedAfter (1004 - windowMs strictLimiter)
                (map (fun a => (a, Next (Some (5, 5 - (fst a - 1000) - 1, fst a + 60000))))
                     (firstn 4 burst)
                 ++ [((1004, 0%N), Next (Some (5, 0, 61004)))])
  <= maxRequests strictLimiter.
Proof.
  apply (window_guarantee strictLimiter clientA ∅ burst _
           [((1005, 0%N), TooManyRequests 60); ((1006, 0%N), TooManyRequests 60)]
           (1004, 0%N) (5, 0, 61004)).
  - reflexivity.
  - reflexivity.
  - repeat constructor; cbn; lia.
  - repeat constructor; cbn; intuition discriminate.
  - vm_compute. reflexivity.
Defined.

Lemma limiter_decision_witness :
  map fst (snd (serveAll strictLimiter clientA ∅ burst)) = burst /\
  forall pre a resp post,
    snd (serveAll strictLimiter clientA ∅ burst) = pre ++ (a, resp) :: post ->
    resp = decision strictLimiter (admittedAfter (fst a - windowMs strictLimiter) pre) (fst a).
Proof.
  apply (limiter_decision strictLimiter clientA ∅ burst).
  - reflexivity.
  - reflexivity.
  - repeat constructor; cbn; lia.
  - repeat constructor; cbn; intuition discriminate.
Defined.


Lemma append_inj (p s s' : string) : (p ++ s)%string = (p ++ s')%string -> s = s'.
Proof. induction p as [|c p IH]; cbn; [auto|]. intros [= H]. auto. Qed.

Section LimiterSteps.

Variable o : Limits.
Variable zfails : ZCmd -> bool.
Variable r : gmap string KeyState.
Variable req : Client.
Variable now : Z.
Variable rnd : N.

Lemma rateLimiter_other (k : string) :
  k <> limiterKey o req ->
  snd (rateLimiter o zfails r req now rnd) !! k = r !! k.
Proof.
  intros Hk. unfold rateLimiter. cbn zeta. fold (limiterKey o req).
  repeat match goal with
         | |- context [if ?c then _ else _] => destruct c
         end; cbn [snd];
    unfold expire, zadd, zremrangebyscore;
    repeat match goal with
           | |- context [match ?l with [] => _ | _ => _ end] => destruct l
           end;
    rewrite ?lookup_insert_ne by congruence;
    rewrite ?writeMembers_other by congruence; reflexivity.
Qed.

(** X22. The quota of a client is its own: a request of one client leaves
    the sorted set of every client with another identifier as it was,
    whatever Redis does. *)
Theorem other_clients_untouched (req' : Client) :
  identifier req' <> identifier req ->
  snd (rateLimiter o zfails r req now rnd) !! limiterKey o req' = r !! limiterKey o req'.
Proof.
  intros Hid. apply rateLimiter_other. unfold limiterKey. intros E.
  apply append_inj, append_inj in E. contradiction.
Qed.

(** X23. The headers of a request that is let through: the limit is [max],
    the reset time is [now + windowMs], and the remaining count lies between
    0 and [max - 1]. *)
Theorem headers_in_range (limit remaining reset : Z) :
  fst (rateLimiter o zfails r req now rnd) = Next (Some (limit, remaining, reset)) ->
  limit = maxRequests o /\ reset = now + windowMs o /\ 0 <= remaining < maxRequests o.
Proof.
  unfold rateLimiter. cbn zeta.
  destruct (zfails ZREMRANGEBYSCORE); [discriminate|].
  destruct (zfails ZCARD); [discriminate|].
  match goal with |- context [if ?c >=? _ then _ else _] => set (count := c) end.
  destruct (Z.geb_spec count (maxRequests o)); [discriminate|].
  destruct (zfails ZADD); [discriminate|].
  destruct (zfails EXPIRE); [discriminate|].
  cbn [fst]. intros [= <- <- <-].
  assert (0 <= count) by (unfold count, zcard; lia). lia.
Qed.

(** X24. A request answered with 429 is not counted: the answer tells to
    retry after [ceil(windowMs / 1000)] seconds, the client's set holds at
    least [max] members, and all of them were there before the request. *)
Theorem rejected_request_not_recorded (retryAfter : Z) :
  fst (rateLimiter o zfails r req now rnd) = TooManyRequests retryAfter ->
  let r' := snd (rateLimiter o zfails r req now rnd) in
  retryAfter = ceilSeconds (windowMs o) /\
  maxRequests o <= zcard r' (limiterKey o req) now /\
  incl (liveMembers r' (limiterKey o req) now) (liveMembers r (limiterKey o req) now).
Proof.
  unfold rateLimiter. cbn zeta. fold (limiterKey o req).
  destruct (zfails ZREMRANGEBYSCORE); [discriminate|].
  destruct (zfails ZCARD); [discriminate|].
  destruct (Z.geb_spec (zcard (zremrangebyscore r (limiterKey o req) now (now - windowMs o))
                              (limiterKey o req) now) (maxRequests o)) as [Hfull|].
  - cbn [fst snd]. intros [= <-]. split; [reflexivity|]. split; [lia|].
    unfold zremrangebyscore. rewrite liveMembers_writeMembers.
    intros x Hx. now apply List.filter_In in Hx as [Hx _].
  - destruct (zfails ZADD); [discriminate|]. destruct (zfails EXPIRE); discriminate.
Qed.

End LimiterSteps.

Lemma other_clients_untouched_witness :
  snd (rateLimiter strictLimiter healthy (fst (serveAll strictLimiter clientB ∅ burst))
                   clientA 2000 0%N)
  !! limiterKey strictLimiter clientB
  = fst (serveAll strictLimiter clientB ∅ burst) !! limiterKey strictLimiter clientB.
Proof.
  apply (other_clients_untouched strictLimiter healthy
           (fst (serveAll strictLimiter clientB ∅ burst)) clientA 2000 0%N clientB).
  vm_compute. discriminate.
Defined.

Lemma headers_in_range_witness :
  5 = maxRequests strictLimiter /\ 61003 = 1003 + windowMs strictLimiter
  /\ 0 <= 1 < maxRequests strictLimiter.
Proof.
  apply (headers_in_range strictLimiter healthy
           (fst (serveAll strictLimiter clientA ∅ (firstn 3 burst))) clientA 1003 0%N).
  vm_compute. reflexivity.
Defined.

Lemma rejected_request_not_recorded_witness :
  let r := fst (serveAll strictLimiter clientA ∅ (firstn 5 burst)) in
  let r' := snd (rateLimiter strictLimiter healthy r clientA 1005 0%N) in
  60 = ceilSeconds (windowMs strictLimiter) /\
  maxRequests strictLimiter <= zcard r' (limiterKey strictLimiter clientA) 1005 /\
  incl (liveMembers r' (limiterKey strictLimiter clientA) 1005)
       (liveMembers r (limiterKey strictLimiter clientA) 1005).
Proof.
  apply (rejected_request_not_recorded strictLimiter healthy
           (fst (serveAll strictLimiter clientA ∅ (firstn 5 burst))) clientA 1005 0%N 60).
  vm_compute. reflexivity.
Defined.


(** ** The two validation endpoints *)

Lemma findOneByCode_unique (l : list Invite) (d : Invite) :
  List.NoDup (map code l) -> In d l -> findOneByCode l (code d) = Some d.
Proof.
  unfold findOneByCode. induction l as [|x l IH]; [intros _ []|].
  cbn [map List.find]. intros Hnd Hin. apply List.NoDup_cons_iff in Hnd as [Hx Hnd].
  destruct Hin as [->|Hin].
  - now rewrite bool_decide_eq_true_2.
  - rewrite bool_decide_eq_false_2; [now apply IH|].
    intros E. apply Hx. rewrite E. now apply in_map.
Qed.

Section Endpoints.

Variable alphabet : list ascii.
Variable salt : list ascii.

(** X25. The controller's endpoint and the service agree on the codes a
    client can redeem: in a consistent store, for a code in upper case with
    a valid checksum, the service's [validateInvite] answers valid with some
    remaining uses and expiry exactly when the controller's endpoint answers
    [valid: true] with the same values. *)
Theorem endpoints_agree (w : World) (c : list ascii) (remaining validUntil : Z) :
  Consistent w ->
  Js.toUpperCase c = c ->
  isValidFormat alphabet salt c = true ->
  validateInvite alphabet salt w c = IsValid remaining validUntil
  <-> InviteController.validateInvite w c
      = InviteController.Validated true remaining validUntil.
Proof.
  intros Hcons Hup Hfmt.
  unfold validateInvite, InviteController.validateInvite. rewrite Hup, Hfmt. cbn [negb].
  assert (Hrec : forall cached,
             match getFromCache w c with
             | Some cached => Some cached
             | None => option_map toCached (findOneByCode (invites w) c)
             end = Some cached ->
             exists d, findOneByCode (invites w) c = Some d /\ toCached d = cached).
  { intros cached. unfold getFromCache, live.
    assert (Hdb : option_map toCached (findOneByCode (invites w) c) = Some cached ->
                  exists d, findOneByCode (invites w) c = Some d /\ toCached d = cached).
    { destruct (findOneByCode (invites w) c) as [d|]; [|discriminate].
      cbn. intros [= <-]. eauto. }
    destruct (redisFails w GET); [exact Hdb|].
    destruct (cache w !! c) as [[cached' t]|] eqn:Ec; [|exact Hdb].
    destruct (now w <? t); [|exact Hdb]. intros [= <-].
    destruct (cons_cache w Hcons c cached' t Ec) as (d & Hin & <- & Hd).
    exists d. split; [|exact Hd].
    apply findOneByCode_unique; [apply (cons_codes w Hcons)|exact Hin]. }
  split.
  - destruct (match getFromCache w c with
              | Some cached => Some cached
              | None => option_map toCached (findOneByCode (invites w) c)
              end) as [cached|] eqn:E; [|discriminate].
    destruct (Hrec cached eq_refl) as (d & Hd & <-). cbn [toCached c_isActive c_currentUses
      c_maxUses c_expiresAt].
    destruct (isActive d) eqn:Ea; [|discriminate]. cbn [negb].
    destruct (Z.geb_spec (currentUses d) (maxUses d)); [discriminate|].
    destruct (Z.leb_spec (expiresAt d) (now w)); [discriminate|].
    intros [= <- <-]. rewrite (findOneActive_of_code _ _ _ Hd Ea).
    f_equal. apply andb_true_intro. split; [apply Z.ltb_lt|apply Z.ltb_lt]; lia.
  - destruct (findOneActive (invites w) c) as [d|] eqn:Ed; [|discriminate].
    intros [= Hv <- <-]. apply andb_prop in Hv as [Hu He].
    apply Z.ltb_lt in Hu. apply Z.ltb_lt in He.
    apply findOneActive_Some in Ed as (Hin & Hc & Ha).
    pose proof (findOneByCode_unique _ d (cons_codes w Hcons) Hin) as Hfind.
    rewrite Hc in Hfind.
    destruct (match getFromCache w c with
              | Some cached => Some cached
              | None => option_map toCached (findOneByCode (invites w) c)
              end) as [cached|] eqn:E.
    + destruct (Hrec cached eq_refl) as (d' & Hd' & <-).
      rewrite Hfind in Hd'. injection Hd' as <-.
      cbn [toCached c_isActive c_currentUses c_maxUses c_expiresAt].
      rewrite Ha. cbn [negb].
      destruct (Z.geb_spec (currentUses d) (maxUses d)); [lia|].
      destruct (Z.leb_spec (expiresAt d) (now w)); [lia|]. reflexivity.
    + unfold getFromCache in E. rewrite Hfind in E.
      destruct (redisFails w GET); [discriminate|].
      destruct (live (cache w) c (now w)); discriminate.
Qed.

End Endpoints.

Lemma endpoints_agree_witness :
  validateInvite testAlphabet testSalt (snd (issue world0 "admin@test.com" 3 30)) testCode
  = IsValid 3 1702592000000
  <-> InviteController.validateInvite (snd (issue world0 "admin@test.com" 3 30)) testCode
      = InviteController.Validated true 3 1702592000000.
Proof.
  apply (endpoints_agree testAlphabet testSalt (snd (issue world0 "admin@test.com" 3 30))
                         testCode 3 1702592000000).
  - apply (consistent_createInvite testAlphabet testSalt world0). apply consistent_fresh.
  - reflexivity.
  - reflexivity.
Defined.


Section SharedKeys.

Variable o1 o2 : Limits.
Variable req : Client.

Lemma last_Forall {A} (P : A -> Prop) (l : list A) (d : A) :
  Forall P l -> P d -> P (List.last l d).
Proof.
  induction l as [|x l IH]; [auto|]. intros Hl Hd.
  apply Forall_cons_iff in Hl as [Hx Hl]. destruct l as [|y l]; [exact Hx|].
  exact (IH Hl Hd).
Qed.

Lemma serveAll_inv (r : gmap string KeyState) (arrivals : list Member) (t : Z) :
  0 < windowMs o1 ->
  r !! limiterKey o1 req = None ->
  Sorted Z.le (map fst arrivals) ->
  List.NoDup arrivals ->
  (forall a, In a arrivals -> fst a <= t) ->
  exists tlast, tlast <= t /\ LimiterInv o1 req (serveAll o1 req r arrivals) tlast.
Proof.
  intros Hw Hr Hs Hnd Hbefore.
  assert (Hempty : forall tlast, LimiterInv o1 req (r, []) tlast).
  { intros tlast. constructor; cbn [fst snd].
    - intros b [].
    - unfold stored. now rewrite Hr.
    - intros ks. now rewrite Hr.
    - intros pre b resp post E. now destruct pre. }
  destruct arrivals as [|a0 rest].
  { exists t. split; [lia|apply Hempty]. }
  exists (List.last (map fst (a0 :: rest)) (fst a0)). split.
  - apply (last_Forall (fun x => x <= t)).
    + apply List.Forall_forall. intros x Hx. apply in_map_iff in Hx as [a [<- Ha]]. auto.
    + apply Hbefore. now left.
  - apply (serve_inv o1 req Hw); [apply Hempty| |exact Hnd].
    constructor; [exact Hs|]. constructor. cbn. lia.
Qed.

(** X26. Limiters with the same key prefix and window share one quota per
    client: after a client's requests were served by one limiter, the other
    limiter decides on the next request of this client by the number of
    requests the first one let through in the window.  The three exported
    limiters all have the prefix [rl], and [default] and [strict] the same
    window. *)
Theorem limiters_share_quota (r : gmap string KeyState) (arrivals : list Member)
        (t : Z) (rnd : N) :
  keyPrefix o2 = keyPrefix o1 ->
  windowMs o2 = windowMs o1 ->
  0 < windowMs o1 ->
  r !! limiterKey o1 req = None ->
  Sorted Z.le (map fst arrivals) ->
  List.NoDup ((t, rnd) :: arrivals) ->
  (forall a, In a arrivals -> fst a <= t) ->
  fst (rateLimiter o2 healthy (fst (serveAll o1 req r arrivals)) req t rnd)
  = decision o2 (admittedAfter (t - windowMs o1) (snd (serveAll o1 req r arrivals))) t.
Proof.
  intros Hp Hwin Hw Hr Hs Hnd Hbefore.
  apply List.NoDup_cons_iff in Hnd as [Hnew Hnd].
  destruct (serveAll_inv r arrivals t Hw Hr Hs Hnd Hbefore) as (tlast & Hle & Hinv).
  pose proof (serveAll_log o1 req r arrivals) as Hlog.
  destruct (serveAll o1 req r arrivals) as [r1 log]. cbn [fst snd] in *.
  assert (Hkey : limiterKey o2 req = limiterKey o1 req).
  { unfold limiterKey. now rewrite Hp. }
  pose proof (kept_is_window o1 req r1 log tlast t Hinv Hle) as Hkept.
  rewrite rateLimiter_healthy; rewrite Hkey, Hwin, Hkept.
  - unfold decision, admittedAfter. rewrite length_map, Hwin. unfold Member in *.
    match goal with |- context [if ?c then _ else _] => destruct c end; reflexivity.
  - rewrite map_fst_scored. intros Hin. apply List.filter_In in Hin as [Hin _].
    apply admitted_logged in Hin. rewrite Hlog in Hin. contradiction.
Qed.

End SharedKeys.

Lemma limiters_share_quota_witness :
  fst (rateLimiter strictLimiter healthy (fst (serveAll defaultLimiter clientA ∅ burst))
                   clientA 1007 0%N)
  = decision strictLimiter
             (admittedAfter (1007 - windowMs defaultLimiter)
                            (snd (serveAll defaultLimiter clientA ∅ burst))) 1007.
Proof.
  apply (limiters_share_quota defaultLimiter strictLimiter clientA ∅ burst 1007 0%N).
  - reflexivity.
  - reflexivity.
  - reflexivity.
  - reflexivity.
  - repeat constructor; cbn; lia.
  - repeat constructor; cbn; intuition discriminate.
  - cbn. intros a Ha. intuition (subst; cbn; lia).
Defined.

(** Seven requests that the default limiter let through within the minute
    close the strict limiter to the client. *)
Example default_requests_exhaust_strict :
  fst (rateLimiter strictLimiter healthy (fst (serveAll defaultLimiter clientA ∅ burst))
                   clientA 1007 0%N)
  = TooManyRequests 60.
Proof. vm_compute. reflexivity. Qed.
